(** * SocketClaude: session engine, history store and relay tunnel

    A shallow embedding of the server's TypeScript sources
    ([session-store.ts], [relay-crypto.ts], [relay-client.ts],
    [claude-session.ts]) and the properties the specification states
    about them. *)

From Stdlib Require Import ZifyN.
From stdpp Require Import gmap strings list pretty.
From Equations Require Import Equations.
From Equations.Prop Require Import Logic.

(** ** JavaScript values *)

Module Js.

(** A JavaScript string is a sequence of UTF-16 code units. *)
Abbreviation str := (list N).

(** A string literal of the source, unit by unit. *)
Definition lit (s : string) : str :=
  Ascii.N_of_ascii <$> String.list_ascii_of_string s.

(** [s.slice(b, e)] for non-negative [b] and [e]: the units at
    positions [b .. e-1], cut off at the end of the string. *)
Definition slice (s : str) (b e : nat) : str :=
  take (e - b) (drop b s).

(** Truthiness of a string value: only the empty string is falsy. *)
Definition truthy (s : str) : bool :=
  match s with
  | [] => false
  | _ :: _ => true
  end.

(** Truthiness of a field that may be [undefined]. *)
Definition truthy_opt (o : option str) : bool :=
  match o with
  | Some s => truthy s
  | None => false
  end.

(** [o || d] where [o] is a string or [undefined]. *)
Definition or_else (o : option str) (d : str) : str :=
  match o with
  | Some s => if truthy s then s else d
  | None => d
  end.

(** [o || undefined]: a falsy string becomes [undefined]. *)
Definition or_undefined (o : option str) : option str :=
  match o with
  | Some s => if truthy s then Some s else None
  | None => None
  end.

(** [n || 0] where [n] is a number or [undefined]. *)
Definition or_zero (o : option Z) : Z := default 0%Z o.

(** [s.endsWith(suffix)] *)
Definition endsWith (s suffix : str) : bool :=
  bool_decide (drop (length s - length suffix) s = suffix).

(** [parts.join(sep)] *)
Fixpoint join (sep : str) (parts : list str) : str :=
  match parts with
  | [] => []
  | [p] => p
  | p :: rest => p ++ sep ++ join sep rest
  end.

(** [s.startsWith(p)] *)
Definition startsWith (s p : str) : bool :=
  bool_decide (take (length p) s = p).

(** [s.replace(pat, rep)] with a string pattern: the first occurrence
    of [pat] is replaced. *)
Fixpoint replace (pat rep : str) (s : str) : str :=
  if startsWith s pat then rep ++ drop (length pat) s
  else match s with
       | [] => []
       | u :: s' => u :: replace pat rep s'
       end.

(** The decimal rendering of a number in a template literal. *)
Definition ofN (n : N) : str := lit (pretty n).
Definition ofZ (z : Z) : str := lit (pretty z).

(** An optional string in a template literal. *)
Definition shown (o : option str) : str :=
  default (lit "undefined") o.

(** *** [Map]: keys in insertion order *)

Fixpoint mapGet {V} (k : str) (m : list (str * V)) : option V :=
  match m with
  | [] => None
  | (k', v) :: m' => if bool_decide (k' = k) then Some v else mapGet k m'
  end.

(** [m.set(k, v)]: a key that is present keeps its position. *)
Fixpoint mapSet {V} (k : str) (v : V) (m : list (str * V)) : list (str * V) :=
  match m with
  | [] => [(k, v)]
  | (k', v') :: m' =>
      if bool_decide (k' = k) then (k, v) :: m' else (k', v') :: mapSet k v m'
  end.

Fixpoint mapDelete {V} (k : str) (m : list (str * V)) : list (str * V) :=
  match m with
  | [] => []
  | (k', v') :: m' =>
      if bool_decide (k' = k) then m' else (k', v') :: mapDelete k m'
  end.

(** A JSON value, as carried by frames, tool inputs and todo lists. *)
#[warnings="-register-all"]
Inductive val : Type :=
| Null
| Bool (b : bool)
| Num (z : Z)
| Str (s : str)
| Arr (l : list val)
| Obj (fields : list (str * val)).

(** Own-property read [v.k] on a value that is not [null]; [None] is
    [undefined].  Only objects parsed from JSON have own properties with
    the names the sources read. *)
Definition get (k : str) (v : val) : option val :=
  match v with
  | Obj fields => snd <$> List.find (fun kv => bool_decide (fst kv = k)) fields
  | _ => None
  end.

(** [Array.isArray(v)] *)
Definition asArray (o : option val) : option (list val) :=
  match o with
  | Some (Arr l) => Some l
  | _ => None
  end.

Definition truthy_val (o : option val) : bool :=
  match o with
  | None | Some Null => false
  | Some (Bool b) => b
  | Some (Num z) => negb (Z.eqb z 0)
  | Some (Str s) => truthy s
  | Some (Arr _) | Some (Obj _) => true
  end.

(** [v || d] on values *)
Definition or_val (o : option val) (d : val) : val :=
  if truthy_val o then default d o else d.

(** [v === "literal"] *)
Definition is_str (o : option val) (s : str) : bool :=
  match o with
  | Some (Str t) => bool_decide (t = s)
  | _ => false
  end.

(** A value that has been thrown.  Thrown values are objects (the
    [Error]s of the platform, of the SDK and of the sources); [message]
    is their [message] property, when they have one. *)
Record Error := { message : option str }.

Definition error (m : string) : Error := {| message := Some (lit m) |}.

(** How a call ends: with a value or with a thrown error. *)
Inductive outcome (A : Type) : Type :=
| Ok (a : A)
| Throw (e : Error).
Arguments Ok {A} a.
Arguments Throw {A} e.

End Js.

(** ** Calls that read and write a state and may throw *)

Module Run.
Import Js.

Definition M (S A : Type) : Type := S -> outcome A * S.

Definition ret {S A} (a : A) : M S A := fun s => (Ok a, s).

Definition bind {S A B} (m : M S A) (k : A -> M S B) : M S B :=
  fun s =>
    match m s with
    | (Ok a, s') => k a s'
    | (Throw e, s') => (Throw e, s')
    end.

Definition throw {S A} (e : Error) : M S A := fun s => (Throw e, s).

Definition read {S} : M S S := fun s => (Ok s, s).

Definition modify {S} (f : S -> S) : M S unit := fun s => (Ok tt, f s).

(** [try { body } catch (err) { handler }] *)
Definition tryCatch {S A} (body : M S A) (handler : Error -> M S A) : M S A :=
  fun s =>
    match body s with
    | (Ok a, s') => (Ok a, s')
    | (Throw e, s') => handler e s'
    end.

(** [try { body } finally { fin }]: [fin] runs on both exits, and an
    error thrown by [fin] replaces the outcome of [body]. *)
Definition finally {S A} (body : M S A) (fin : M S unit) : M S A :=
  fun s =>
    let '(r, s') := body s in
    match fin s' with
    | (Ok _, s'') => (r, s'')
    | (Throw e, s'') => (Throw e, s'')
    end.

(** [for (const x of l) { f(x) }] over a list that the body does not
    change. *)
Fixpoint forEach {S A} (l : list A) (f : A -> M S unit) : M S unit :=
  match l with
  | [] => ret tt
  | x :: l' => bind (f x) (fun _ => forEach l' f)
  end.

(** [if (c) { m }] *)
Definition when {S} (c : bool) (m : M S unit) : M S unit :=
  if c then m else ret tt.

(** A call on a part of the state. *)
Definition zoom {S T A} (proj : S -> T) (inj : T -> S -> S) (m : M T A) : M S A :=
  fun s => let '(r, t) := m (proj s) in (r, inj t s).

Declare Scope run_scope.
Delimit Scope run_scope with run.
Notation "x <- m ;; k" := (bind m (fun x => k))
  (at level 100, m at next level, right associativity) : run_scope.
Notation "m ;; k" := (bind m (fun _ => k))
  (at level 100, right associativity) : run_scope.

End Run.

(** ** The persistent store ([session-store.ts]) *)

Module Store.
Import Js Run.

Record QuestionOption := {
  label : val;
  description : option val
}.

Record QuestionItem := {
  question : val;
  header : option val;
  options : list QuestionOption;
  multiSelect : option val
}.

(** One entry of a session's history file ([HistoryEntry] of the
    protocol, with the fields the sources read and write). *)
Record HistoryEntry := {
  role : str;
  content : str;
  timestamp : str;
  toolName : option str;
  toolInput : option val;
  toolUseId : option str;
  toolOutput : option str;
  questionId : option str;
  questions : option (list QuestionItem);
  answered : option bool
}.

(** The shapes of entry the engine writes. *)
Definition plain (r c t : str) : HistoryEntry :=
  {| role := r; content := c; timestamp := t;
     toolName := None; toolInput := None; toolUseId := None;
     toolOutput := None; questionId := None; questions := None;
     answered := None |}.

Definition toolCallEntry (name : str) (input : option val) (tid t : str) : HistoryEntry :=
  {| role := lit "tool_call"; content := []; timestamp := t;
     toolName := Some name; toolInput := input; toolUseId := Some tid;
     toolOutput := None; questionId := None; questions := None;
     answered := None |}.

Definition toolResultEntry (tid output t : str) : HistoryEntry :=
  {| role := lit "tool_result"; content := []; timestamp := t;
     toolName := None; toolInput := None; toolUseId := Some tid;
     toolOutput := Some output; questionId := None; questions := None;
     answered := None |}.

Definition questionEntry (qid : str) (qs : list QuestionItem) (t : str) : HistoryEntry :=
  {| role := lit "question"; content := []; timestamp := t;
     toolName := None; toolInput := None; toolUseId := None;
     toolOutput := None; questionId := Some qid; questions := Some qs;
     answered := None |}.

(** What a file of the history directory holds: a JSON array of
    entries, or text that [JSON.parse] rejects. *)
Inductive HistFile :=
| Entries (l : list HistoryEntry)
| Unparseable.

(** The history directory, by file name. *)
Abbreviation HistoryDir := (gmap str HistFile).

Record UsageInfo := {
  inputTokens : Z;
  outputTokens : Z;
  cacheReadTokens : Z;
  cacheCreateTokens : Z;
  contextWindow : Z;
  costUsd : option val;
  numTurns : option val
}.

Record SessionInfo := {
  id : str;
  title : str;
  cwd : str;
  createdAt : str;
  lastActive : str;
  messagePreview : str;
  lastUsage : option UsageInfo
}.

(** The files under the store directory: the history directory,
    [sessions.json] and the todo lists by session id. *)
Record Disk := {
  history : HistoryDir;
  sessions : list SessionInfo;
  todos : gmap str (list val)
}.

Definition with_history (h : HistoryDir) (d : Disk) : Disk :=
  {| history := h; sessions := sessions d; todos := todos d |}.

Definition with_sessions (l : list SessionInfo) (d : Disk) : Disk :=
  {| history := history d; sessions := l; todos := todos d |}.

Definition with_todos (t : gmap str (list val)) (d : Disk) : Disk :=
  {| history := history d; sessions := sessions d; todos := t |}.

(** [arr.find(p)] followed by a mutation of the element found: the
    first element that satisfies [p] is replaced by its image under [f];
    [None] when no element satisfies [p]. *)
Fixpoint updateFirst {A} (p : A -> bool) (f : A -> A) (l : list A) : option (list A) :=
  match l with
  | [] => None
  | x :: l' =>
      if p x then Some (f x :: l')
      else cons x <$> updateFirst p f l'
  end.

(** *** Session list *)

Definition saveSession (session : SessionInfo) (d : Disk) : Disk :=
  let same := fun s : SessionInfo => bool_decide (id s = id session) in
  match updateFirst same (fun _ => session) (sessions d) with
  | Some l => with_sessions l d
  | None => with_sessions (sessions d ++ [session]) d
  end.

Definition getSession (sid : str) (d : Disk) : option SessionInfo :=
  List.find (fun s : SessionInfo => bool_decide (id s = sid)) (sessions d).

Definition remapSession (now : str) (oldId newId : str) (d : Disk) : Disk :=
  let remap := fun s : SessionInfo =>
    {| id := newId; title := title s; cwd := cwd s; createdAt := createdAt s;
       lastActive := now; messagePreview := messagePreview s;
       lastUsage := lastUsage s |} in
  match updateFirst (fun s : SessionInfo => bool_decide (id s = oldId)) remap (sessions d) with
  | Some l => with_sessions l d
  | None => d
  end.

Definition updateSessionActivity (now : str) (sid preview : str)
    (usage : option UsageInfo) (d : Disk) : Disk :=
  let touch := fun s : SessionInfo =>
    {| id := id s; title := title s; cwd := cwd s; createdAt := createdAt s;
       lastActive := now; messagePreview := slice preview 0 200;
       lastUsage := match usage with Some u => Some u | None => lastUsage s end |} in
  match updateFirst (fun s : SessionInfo => bool_decide (id s = sid)) touch (sessions d) with
  | Some l => with_sessions l d
  | None => d
  end.

(** *** Message history per session *)

Definition historyFile (sessionId : str) : str :=
  sessionId ++ lit ".json".

(** [appendHistory]: reads the file when it exists ([JSON.parse]
    throws on text it rejects), pushes the entry and writes the file. *)
Definition appendHistory (sessionId : str) (entry : HistoryEntry) : M Disk unit :=
  fun d =>
    let file := historyFile sessionId in
    match history d !! file with
    | None => (Ok tt, with_history (<[file := Entries [entry]]> (history d)) d)
    | Some (Entries entries) =>
        (Ok tt, with_history (<[file := Entries (entries ++ [entry])]> (history d)) d)
    | Some Unparseable => (Throw (error "Unexpected token in JSON"), d)
    end.

Definition isQuestion (qid : str) (e : HistoryEntry) : bool :=
  bool_decide (role e = lit "question") && bool_decide (questionId e = Some qid).

Definition setAnswered (e : HistoryEntry) : HistoryEntry :=
  {| role := role e; content := content e; timestamp := timestamp e;
     toolName := toolName e; toolInput := toolInput e; toolUseId := toolUseId e;
     toolOutput := toolOutput e; questionId := questionId e;
     questions := questions e; answered := Some true |}.

(** [markQuestionAnswered]: nothing when the file is missing; a parse
    error is caught and logged; otherwise the first question entry with
    this id, if there is one, is marked and the file is written. *)
Definition markQuestionAnswered (sessionId qid : str) (d : Disk) : Disk :=
  let file := historyFile sessionId in
  match history d !! file with
  | Some (Entries entries) =>
      match updateFirst (isQuestion qid) setAnswered entries with
      | Some entries' => with_history (<[file := Entries entries']> (history d)) d
      | None => d
      end
  | Some Unparseable | None => d
  end.

Definition getHistory (sessionId : str) : M Disk (list HistoryEntry) :=
  fun d =>
    match history d !! historyFile sessionId with
    | None => (Ok [], d)
    | Some (Entries entries) => (Ok entries, d)
    | Some Unparseable => (Throw (error "Unexpected token in JSON"), d)
    end.

(** *** Per-session todo list *)

Definition saveTodos (sessionId : str) (l : list val) (d : Disk) : Disk :=
  with_todos (<[sessionId := l]> (todos d)) d.

(** *** Startup cleanup *)

(** The entry [cleanupPendingToolCalls] pushes for a call without a
    result. *)
Definition emptyResult (tid : str) (now : str) : HistoryEntry :=
  toolResultEntry tid [] now.

(** [e.role === "tool_result" && e.toolUseId] *)
Definition isResultWithId (e : HistoryEntry) : bool :=
  bool_decide (role e = lit "tool_result") && truthy_opt (toolUseId e).

(** [new Set(entries.filter(...).map(e => e.toolUseId!))] *)
Definition resultIdsOf (entries : list HistoryEntry) : gset str :=
  list_to_set (omap toolUseId (filter (fun e => isResultWithId e = true) entries)).

(** [entry.role === "tool_call" && entry.toolUseId &&
     !resultIds.has(entry.toolUseId)]; gives the id when it holds. *)
Definition pendingCall (resultIds : gset str) (e : HistoryEntry) : option str :=
  if bool_decide (role e = lit "tool_call") then
    match toolUseId e with
    | Some tid =>
        if truthy tid && negb (bool_decide (tid ∈ resultIds)) then Some tid else None
    | None => None
    end
  else None.

(** Number of entries from position [i] on that the loop answers with
    a push. *)
Definition pendingFrom (resultIds : gset str) (entries : list HistoryEntry) (i : nat) : nat :=
  length (omap (pendingCall resultIds) (drop i entries)).

Lemma pendingFrom_step resultIds entries i e :
  entries !! i = Some e ->
  pendingFrom resultIds entries i =
    (if pendingCall resultIds e is Some _ then 1 else 0)
    + pendingFrom resultIds entries (S i).
Proof.
  intros H. unfold pendingFrom.
  rewrite (drop_S _ _ _ H). simpl.
  destruct (pendingCall resultIds e); reflexivity.
Qed.

Lemma pendingFrom_push resultIds entries i tid now :
  i <= length entries ->
  pendingFrom resultIds (entries ++ [emptyResult tid now]) i =
    pendingFrom resultIds entries i.
Proof.
  intros H. unfold pendingFrom.
  rewrite drop_app_le by exact H.
  rewrite omap_app, length_app. simpl. lia.
Qed.

(** The [for (const entry of entries)] loop.  The array iterator
    re-reads the length at every step, so the entries the body pushes
    are visited as well; [i] is the iterator's position. *)
Equations? cleanupLoop (resultIds : gset str) (now : str)
    (entries : list HistoryEntry) (i : nat) (modified : bool)
    : list HistoryEntry * bool
    by wf ((length entries - i) + pendingFrom resultIds entries i) lt :=
  cleanupLoop resultIds now entries i modified with inspect (entries !! i) := {
    | exist _ (Some entry) Hi with inspect (pendingCall resultIds entry) := {
        | exist _ (Some tid) Hp =>
            cleanupLoop resultIds now (entries ++ [emptyResult tid now]) (S i) true
        | exist _ None Hp =>
            cleanupLoop resultIds now entries (S i) modified }
    | exist _ None Hi => (entries, modified) }.
Proof.
  - pose proof (lookup_lt_Some _ _ _ Hi) as Hlt.
    rewrite pendingFrom_push by lia.
    rewrite (pendingFrom_step _ _ _ _ Hi), Hp.
    rewrite length_app. simpl. lia.
  - pose proof (lookup_lt_Some _ _ _ Hi) as Hlt.
    rewrite (pendingFrom_step _ _ _ _ Hi), Hp. lia.
Qed.

(** The body of the loop over the directory's files, for one file that
    parsed: [Some entries'] when the file is written back, [None] when
    [modified] stayed false and the file is not touched. *)
Definition cleanupEntries (now : str) (entries : list HistoryEntry)
    : option (list HistoryEntry) :=
  let '(entries', modified) :=
    cleanupLoop (resultIdsOf entries) now entries 0 false in
  if modified then Some entries' else None.

(** A file that [JSON.parse] rejects is skipped ([continue]). *)
Definition cleanupFile (now : str) (f : HistFile) : option HistFile :=
  match f with
  | Unparseable => None
  | Entries entries => Entries <$> cleanupEntries now entries
  end.

(** [cleanupPendingToolCalls]: every file of the history directory
    whose name ends in [.json] goes through [cleanupFile]. *)
Definition cleanupPendingToolCalls (now : str) (dir : HistoryDir) : HistoryDir :=
  map_imap (fun name f =>
    Some (if endsWith name (lit ".json")
          then default f (cleanupFile now f)
          else f)) dir.

(** *** The other calls on the session list *)

(** [deleteSession] *)
Definition deleteSession (sid : str) (d : Disk) : Disk :=
  with_sessions (filter (fun s : SessionInfo => id s <> sid) (sessions d)) d.

(** *** Pages of history *)

(** The relative index of [Array.prototype.slice]: a negative index
    counts from the end, and both ends are clamped to the array. *)
Definition relativeIndex (len i : Z) : Z :=
  if (i <? 0)%Z then Z.max (len + i) 0 else Z.min i len.

(** [arr.slice(start, end)] for integer bounds. *)
Definition sliceArray {A} (l : list A) (b e : Z) : list A :=
  let len := Z.of_nat (length l) in
  let k := relativeIndex len b in
  let final := relativeIndex len e in
  take (Z.to_nat (final - k)) (drop (Z.to_nat k) l).

Record HistoryPage := {
  entries : list HistoryEntry;
  total : Z;
  offset : Z
}.

(** [getHistoryPage], for an integer [limit] and an [offset] that is
    an integer or [undefined] ([None]). *)
Definition getHistoryPage (sessionId : str) (limit : Z) (offset : option Z)
    : M Disk HistoryPage :=
  bind (getHistory sessionId) (fun all =>
    let total := Z.of_nat (length all) in
    if (total =? 0)%Z then ret {| entries := []; total := 0; offset := 0 |}
    else
      let start :=
        match offset with
        | Some o => Z.max 0 o
        | None => Z.max 0 (total - limit)
        end in
      let end_ := Z.min (start + limit) total in
      ret {| entries := sliceArray all start end_; total := total; offset := start |}).

(** *** Clearing a session's context *)






End Store.

(** ** Crypto primitives ([relay-crypto.ts]) *)

Module Crypto.
Import Js Run.

(** A [Uint8Array]: a sequence of bytes. *)
Abbreviation bytes := (list N).

(** What the sources call and do not define: tweetnacl's [box] and the
    platform's [Buffer], [JSON] and regular expressions. *)
Class Platform := {
  (** [nacl.box(msg, nonce, theirPublicKey, mySecretKey)]; throws on a
      nonce or key of the wrong size. *)
  nacl_box : bytes -> bytes -> bytes -> bytes -> outcome bytes;
  (** [nacl.box.open(box, nonce, theirPublicKey, mySecretKey)]; [None]
      is the [null] of a failed authentication. *)
  nacl_box_open : bytes -> bytes -> bytes -> bytes -> outcome (option bytes);
  (** [Buffer.from(bytes).toString("base64")] *)
  base64 : bytes -> str;
  (** [new Uint8Array(Buffer.from(v, "base64"))] for a value [v] from a
      frame ([None] is [undefined]); throws on a value that is neither a
      string nor array-like. *)
  bufferFrom : option val -> outcome bytes;
  (** [JSON.parse] *)
  jsonParse : str -> outcome val;
  (** [JSON.stringify] of a value; [None] is [undefined]. *)
  jsonStringify : option val -> option str;
  (** [output.match(/Command running in background with ID: (\S+)\.
      Output is being written to: (\S+)/)]: the two groups. *)
  matchBackground : str -> option (str * str);
  (** [output.match(/agentId:\s*(\S+)/)]: the group. *)
  matchAgentId : str -> option str
}.

(** *** The text codec

    [TextEncoder] and [TextDecoder] of the platform, for the label
    [utf-8] and the default options ([fatal] false, [ignoreBOM] false),
    after the Encoding standard. *)

Definition replacement : N := 0xFFFD.

Definition isHigh (u : N) : bool := (0xD800 <=? u)%N && (u <=? 0xDBFF)%N.
Definition isLow (u : N) : bool := (0xDC00 <=? u)%N && (u <=? 0xDFFF)%N.

(** Conversion of a string to scalar values: a surrogate pair is one
    scalar value, a surrogate that is not part of a pair becomes
    U+FFFD. *)
Fixpoint toScalars (s : str) : list N :=
  match s with
  | [] => []
  | u :: rest =>
      if isHigh u then
        match rest with
        | v :: rest' =>
            if isLow v
            then (0x10000 + (u - 0xD800) * 0x400 + (v - 0xDC00))%N :: toScalars rest'
            else replacement :: toScalars rest
        | [] => [replacement]
        end
      else if isLow u then replacement :: toScalars rest
      else u :: toScalars rest
  end.

(** The bytes of one scalar value. *)
Definition encodeScalar (c : N) : bytes :=
  if (c <? 0x80)%N then [c]
  else if (c <? 0x800)%N then [0xC0 + c / 64; 0x80 + c mod 64]%N
  else if (c <? 0x10000)%N then
    [0xE0 + c / 4096; 0x80 + (c / 64) mod 64; 0x80 + c mod 64]%N
  else
    [0xF0 + c / 262144; 0x80 + (c / 4096) mod 64;
     0x80 + (c / 64) mod 64; 0x80 + c mod 64]%N.

(** [new TextEncoder().encode(s)] *)
Definition textEncode (s : str) : bytes :=
  concat (encodeScalar <$> toScalars s).

(** The state of the UTF-8 decoder. *)
Record Decoder := {
  codePoint : N;
  bytesSeen : N;
  bytesNeeded : N;
  lower : N;
  upper : N
}.

Definition idle : Decoder :=
  {| codePoint := 0; bytesSeen := 0; bytesNeeded := 0;
     lower := 0x80; upper := 0xBF |}.

Definition between (a b c : N) : bool := (a <=? b)%N && (b <=? c)%N.

(** The decoder on a byte when no bytes are needed: the scalar values
    it emits and its new state. *)
Definition lead (b : N) : list N * Decoder :=
  if (b <=? 0x7F)%N then ([b], idle)
  else if between 0xC2 b 0xDF then
    ([], {| codePoint := b mod 32; bytesSeen := 0; bytesNeeded := 1;
            lower := 0x80; upper := 0xBF |})
  else if between 0xE0 b 0xEF then
    ([], {| codePoint := b mod 16; bytesSeen := 0; bytesNeeded := 2;
            lower := if (b =? 0xE0)%N then 0xA0 else 0x80;
            upper := if (b =? 0xED)%N then 0x9F else 0xBF |})
  else if between 0xF0 b 0xF4 then
    ([], {| codePoint := b mod 8; bytesSeen := 0; bytesNeeded := 3;
            lower := if (b =? 0xF0)%N then 0x90 else 0x80;
            upper := if (b =? 0xF4)%N then 0x8F else 0xBF |})
  else ([replacement], idle).

(** The decoder on a sequence of bytes.  A byte outside the expected
    range ends the sequence in progress with U+FFFD and is then read
    again from the idle state. *)
Fixpoint decodeFrom (st : Decoder) (l : bytes) : list N :=
  match l with
  | [] => if (bytesNeeded st =? 0)%N then [] else [replacement]
  | b :: l' =>
      if (bytesNeeded st =? 0)%N then
        let '(out, st') := lead b in out ++ decodeFrom st' l'
      else if negb (between (lower st) b (upper st)) then
        let '(out, st') := lead b in replacement :: out ++ decodeFrom st' l'
      else
        let cp := (codePoint st * 64 + b mod 64)%N in
        if (bytesSeen st + 1 =? bytesNeeded st)%N
        then cp :: decodeFrom idle l'
        else decodeFrom {| codePoint := cp; bytesSeen := bytesSeen st + 1;
                           bytesNeeded := bytesNeeded st;
                           lower := 0x80; upper := 0xBF |} l'
  end.

(** A leading U+FEFF is dropped ([ignoreBOM] is false). *)
Definition stripBOM (l : list N) : list N :=
  match l with
  | c :: l' => if (c =? 0xFEFF)%N then l' else l
  | [] => []
  end.

(** The UTF-16 code units of one scalar value. *)
Definition unitsOf (c : N) : str :=
  if (c <? 0x10000)%N then [c]
  else [0xD800 + (c - 0x10000) / 0x400; 0xDC00 + (c - 0x10000) mod 0x400]%N.

(** [new TextDecoder().decode(b)] *)
Definition textDecode (b : bytes) : str :=
  concat (unitsOf <$> stripBOM (decodeFrom idle b)).

(** *** Keys and envelopes *)

Record KeyPair := {
  publicKey : bytes;
  secretKey : bytes
}.

(** The fields are strings by their declared type; an envelope cast
    from a parsed frame carries whatever the frame had. *)
Record EncryptedEnvelope := {
  n : option val;
  c : option val
}.

Section WithPlatform.
Context {platform : Platform}.

(** [encrypt]; [nonce] is the draw of [nacl.randomBytes].  The array
    [nacl.box] returns is truthy, so the source's [Encryption failed]
    branch is never taken. *)
Definition encrypt (nonce : bytes) (message : str)
    (theirPublicKey mySecretKey : bytes) : outcome EncryptedEnvelope :=
  let messageBytes := textEncode message in
  match nacl_box messageBytes nonce theirPublicKey mySecretKey with
  | Throw e => Throw e
  | Ok ciphertext =>
      Ok {| n := Some (Str (base64 nonce));
            c := Some (Str (base64 ciphertext)) |}
  end.

Definition decryptionFailed : Error :=
  {| message := Some (lit "Decryption failed " ++ [0x2014%N]
                      ++ lit " invalid key or corrupted message") |}.

(** [decrypt] *)
Definition decrypt (envelope : EncryptedEnvelope)
    (theirPublicKey mySecretKey : bytes) : outcome str :=
  match bufferFrom (n envelope) with
  | Throw e => Throw e
  | Ok nonce =>
      match bufferFrom (c envelope) with
      | Throw e => Throw e
      | Ok ciphertext =>
          match nacl_box_open ciphertext nonce theirPublicKey mySecretKey with
          | Throw e => Throw e
          | Ok None => Throw decryptionFailed
          | Ok (Some plaintext) => Ok (textDecode plaintext)
          end
      end
  end.

(** [toBase64] and [fromBase64] *)
Definition toBase64 (b : bytes) : str := base64 b.

Definition fromBase64 (b64 : option val) : outcome bytes := bufferFrom b64.

(** [generateKeyPair] is [nacl.box.keyPair()]: a draw. *)

(** The object [loadOrCreateKeyPair] writes for a pair. *)
Definition keyObject (kp : KeyPair) : val :=
  Obj [(lit "publicKey", Str (toBase64 (publicKey kp)));
       (lit "secretKey", Str (toBase64 (secretKey kp)))].

(** [loadOrCreateKeyPair]; the state is the text of the files by path
    (directories are made as needed), [generated] is the draw of
    [generateKeyPair], which the source makes only when the file does
    not exist. *)
Definition loadOrCreateKeyPair (generated : KeyPair) (configPath : str)
    : M (gmap str str) KeyPair :=
  fun files =>
    match files !! configPath with
    | Some text =>
        match jsonParse text with
        | Throw e => (Throw e, files)
        | Ok Null =>
            (Throw (Js.error "Cannot read properties of null (reading 'publicKey')"),
             files)
        | Ok data =>
            match fromBase64 (get (lit "publicKey") data) with
            | Throw e => (Throw e, files)
            | Ok pk =>
                match fromBase64 (get (lit "secretKey") data) with
                | Throw e => (Throw e, files)
                | Ok sk => (Ok {| publicKey := pk; secretKey := sk |}, files)
                end
            end
        end
    | None =>
        match jsonStringify (Some (keyObject generated)) with
        | Some text => (Ok generated, <[configPath := text]> files)
        | None =>
            (Throw (Js.error "The data argument must be of type string"), files)
        end
    end.

End WithPlatform.

End Crypto.

(** ** The relay tunnel ([relay-client.ts]) *)

Module Relay.
Import Js Run Crypto.

Inductive RelayStatus :=
| disconnected
| connecting
| waiting_for_peer
| paired
| error.

#[global] Instance RelayStatus_eq_dec : EqDecision RelayStatus.
Proof. solve_decision. Defined.

(** What the client does to the outside, in order.  The callback
    [opts.onStatusChange] returns: the one the server installs logs
    the status and replaces its connection handler. *)
Inductive Effect :=
| StatusChange (s : RelayStatus)        (* opts.onStatusChange(s) *)
| NewSocket                             (* new WebSocket(url) *)
| WsSend (text : option str)            (* ws.send(text) *)
| WsSendEnvelope (e : EncryptedEnvelope)(* ws.send(JSON.stringify(envelope)) *)
| WsSendAck                             (* ws.send('{"type":"key_exchange_ack"}') *)
| WsClose                               (* ws.close() *)
| SetTimeout (delay : Z)                (* setTimeout(() => this.connect(), delay) *)
| ClearTimeout
| Deliver (msg : val)                   (* opts.onMessage(msg) *)
| Log (line : string).

(** The fields of [RelayClient].  [ws] holds whether the socket's
    [readyState] is [OPEN]; [virtualOpen] is the [readyState] of the
    virtual socket (no callbacks are ever registered on it);
    [effects] is what the client has done so far. *)
Record RelayClient := {
  ws : option bool;
  phonePublicKey : option bytes;
  status : RelayStatus;
  reconnectDelay : Z;
  reconnectTimer : option Z;
  closed : bool;
  virtualOpen : bool;
  keyPair : KeyPair;
  effects : list Effect
}.

Definition with_ws (v : option bool) (r : RelayClient) : RelayClient :=
  {| ws := v; phonePublicKey := phonePublicKey r; status := status r;
     reconnectDelay := reconnectDelay r; reconnectTimer := reconnectTimer r;
     closed := closed r; virtualOpen := virtualOpen r; keyPair := keyPair r;
     effects := effects r |}.

Definition with_phonePublicKey (v : option bytes) (r : RelayClient) : RelayClient :=
  {| ws := ws r; phonePublicKey := v; status := status r;
     reconnectDelay := reconnectDelay r; reconnectTimer := reconnectTimer r;
     closed := closed r; virtualOpen := virtualOpen r; keyPair := keyPair r;
     effects := effects r |}.

Definition with_status (v : RelayStatus) (r : RelayClient) : RelayClient :=
  {| ws := ws r; phonePublicKey := phonePublicKey r; status := v;
     reconnectDelay := reconnectDelay r; reconnectTimer := reconnectTimer r;
     closed := closed r; virtualOpen := virtualOpen r; keyPair := keyPair r;
     effects := effects r |}.

Definition with_reconnectDelay (v : Z) (r : RelayClient) : RelayClient :=
  {| ws := ws r; phonePublicKey := phonePublicKey r; status := status r;
     reconnectDelay := v; reconnectTimer := reconnectTimer r;
     closed := closed r; virtualOpen := virtualOpen r; keyPair := keyPair r;
     effects := effects r |}.

Definition with_reconnectTimer (v : option Z) (r : RelayClient) : RelayClient :=
  {| ws := ws r; phonePublicKey := phonePublicKey r; status := status r;
     reconnectDelay := reconnectDelay r; reconnectTimer := v;
     closed := closed r; virtualOpen := virtualOpen r; keyPair := keyPair r;
     effects := effects r |}.

Definition with_closed (v : bool) (r : RelayClient) : RelayClient :=
  {| ws := ws r; phonePublicKey := phonePublicKey r; status := status r;
     reconnectDelay := reconnectDelay r; reconnectTimer := reconnectTimer r;
     closed := v; virtualOpen := virtualOpen r; keyPair := keyPair r;
     effects := effects r |}.

Definition with_virtualOpen (v : bool) (r : RelayClient) : RelayClient :=
  {| ws := ws r; phonePublicKey := phonePublicKey r; status := status r;
     reconnectDelay := reconnectDelay r; reconnectTimer := reconnectTimer r;
     closed := closed r; virtualOpen := v; keyPair := keyPair r;
     effects := effects r |}.

Definition emit (e : Effect) (r : RelayClient) : RelayClient :=
  {| ws := ws r; phonePublicKey := phonePublicKey r; status := status r;
     reconnectDelay := reconnectDelay r; reconnectTimer := reconnectTimer r;
     closed := closed r; virtualOpen := virtualOpen r; keyPair := keyPair r;
     effects := effects r ++ [e] |}.

(** The client as its constructor leaves it. *)
Definition new (kp : KeyPair) : RelayClient :=
  {| ws := None; phonePublicKey := None; status := disconnected;
     reconnectDelay := 1000; reconnectTimer := None; closed := false;
     virtualOpen := false; keyPair := kp; effects := [] |}.

Section WithPlatform.
Context {platform : Platform}.

(** [opts.onMessage]: whether the callback returns or throws. *)
Variable onMessage : val -> outcome unit.

Local Open Scope run_scope.

Definition act (e : Effect) : M RelayClient unit := modify (emit e).

Definition setStatus (s : RelayStatus) : M RelayClient unit :=
  modify (with_status s) ;;
  act (StatusChange s).

(** [scheduleReconnect] *)
Definition scheduleReconnect : M RelayClient unit :=
  r <- read ;;
  if closed r then ret tt
  else
    setStatus disconnected ;;
    act (Log "Reconnecting") ;;
    act (SetTimeout (reconnectDelay r)) ;;
    modify (with_reconnectTimer (Some (reconnectDelay r))) ;;
    modify (with_reconnectDelay (Z.min (reconnectDelay r * 2) 30000)).

(** [connect]; [ctor] is how [new WebSocket(url)] ends. *)
Definition connect (ctor : outcome unit) : M RelayClient unit :=
  r <- read ;;
  if closed r then ret tt
  else
    setStatus connecting ;;
    match ctor with
    | Throw err =>
        act (Log "Connection error") ;;
        scheduleReconnect
    | Ok _ =>
        modify (with_ws (Some false)) ;;
        act NewSocket
    end.

(** The handler of the socket's [open] event. *)
Definition onOpen : M RelayClient unit :=
  modify (fun r => with_ws (match ws r with Some _ => Some true | None => None end) r) ;;
  modify (with_reconnectDelay 1000) ;;
  setStatus waiting_for_peer.

(** The handler of the socket's [close] event. *)
Definition onClose : M RelayClient unit :=
  modify (with_ws None) ;;
  modify (with_phonePublicKey None) ;;
  modify (with_virtualOpen false) ;;
  setStatus disconnected ;;
  r <- read ;;
  if closed r then ret tt else scheduleReconnect.

(** [send]; [nonce] is the draw of [nacl.randomBytes] in [encrypt]. *)
Definition send (nonce : bytes) (msg : option val) : M RelayClient unit :=
  r <- read ;;
  match ws r with
  | Some true =>
      let json := jsonStringify msg in
      match phonePublicKey r with
      | Some key =>
          fun s =>
            match encrypt nonce (default [] json) key (secretKey (keyPair r)) with
            | Throw e => (Throw e, s)
            | Ok envelope => act (WsSendEnvelope envelope) s
            end
      | None => act (WsSend json)
      end
  | _ => ret tt
  end.

(** [close] *)
Definition close : M RelayClient unit :=
  modify (with_closed true) ;;
  r <- read ;;
  when (bool_decide (is_Some (reconnectTimer r))) (act ClearTimeout) ;;
  when (bool_decide (is_Some (ws r))) (act WsClose) ;;
  modify (with_ws None) ;;
  setStatus disconnected.

Definition lift {A} (o : outcome A) : M RelayClient A := fun r => (o, r).

(** [handleRelayMessage] *)
Definition handleRelayMessage (parsed : val) : M RelayClient unit :=
  match parsed with
  | Null => throw (Js.error "Cannot read properties of null (reading 'type')")
  | _ =>
      if is_str (get (lit "type") parsed) (lit "peer_connected") then
        act (Log "Phone connected to relay") ;;
        setStatus waiting_for_peer
      else if is_str (get (lit "type") parsed) (lit "peer_disconnected") then
        act (Log "Phone disconnected from relay") ;;
        modify (with_phonePublicKey None) ;;
        modify (with_virtualOpen false) ;;
        setStatus waiting_for_peer
      else if is_str (get (lit "type") parsed) (lit "key_exchange") then
        act (Log "Received phone public key") ;;
        key <- lift (fromBase64 (get (lit "pubkey") parsed)) ;;
        modify (with_phonePublicKey (Some key)) ;;
        setStatus paired ;;
        modify (with_virtualOpen true) ;;
        r <- read ;;
        when (bool_decide (is_Some (ws r))) (act WsSendAck) ;;
        act (Log "Key exchange complete")
      else if truthy_val (get (lit "n") parsed) && truthy_val (get (lit "c") parsed) then
        r <- read ;;
        match phonePublicKey r with
        | None => act (Log "Received encrypted message before key exchange")
        | Some key =>
            tryCatch
              (plaintext <- lift (decrypt
                  {| n := get (lit "n") parsed; c := get (lit "c") parsed |}
                  key (secretKey (keyPair r))) ;;
               msg <- lift (jsonParse plaintext) ;;
               act (Deliver msg) ;;
               lift (onMessage msg))
              (fun err => act (Log "Decryption failed"))
        end
      else act (Log "Unknown message type")
  end.

(** The handler of the socket's [message] event. *)
Definition onMessageEvent (raw : str) : M RelayClient unit :=
  tryCatch
    (parsed <- lift (jsonParse raw) ;;
     handleRelayMessage parsed)
    (fun err => act (Log "Failed to parse message")).

(** What can happen to the client: calls of its public methods and the
    events of its socket. *)
Inductive Event :=
| Connect (ctor : outcome unit)   (* connect(), at startup or from the timer *)
| Open
| Message (raw : str)
| Close
| SocketError
| Send (nonce : bytes) (msg : option val)
| CloseCall.

Definition handle (ev : Event) : M RelayClient unit :=
  match ev with
  | Connect ctor => connect ctor
  | Open => onOpen
  | Message raw => onMessageEvent raw
  | Close => onClose
  | SocketError => act (Log "Error")
  | Send nonce msg => send nonce msg
  | CloseCall => close
  end.

(** The state after an event; an error thrown by a public method goes
    to its caller and leaves the state as it was when thrown. *)
Definition step (r : RelayClient) (ev : Event) : RelayClient :=
  snd (handle ev r).

Definition run (r : RelayClient) (evs : list Event) : RelayClient :=
  foldl step r evs.

(** [VirtualRelaySocket.send]: text that parses goes to [send] as the
    value parsed, other text as [{raw: data}]; the [catch] is entered
    as well when [send] throws.  [nonce] and [nonce'] are the draws of
    the two calls of [send]. *)
Definition virtualSocketSend (nonce nonce' : bytes) (data : str) : M RelayClient unit :=
  tryCatch
    (msg <- lift (jsonParse data) ;;
     send nonce (Some msg))
    (fun err => send nonce' (Some (Obj [(lit "raw", Str data)]))).

(** [isPaired] *)
Definition isPaired (r : RelayClient) : bool :=
  bool_decide (status r = paired) && bool_decide (is_Some (phonePublicKey r)).

End WithPlatform.

End Relay.

(** ** The session engine ([claude-session.ts])

    The engine is embedded as its constructor builds it by default,
    without plugins.  Log lines are not kept.  What is thrown is an
    [Error] object, with or without a [message].  What can throw is
    the SDK's [query] and [streamInput], the stream itself, the parsing
    of a history file, the text of a tool result that has none, and the
    transport's [send]: the virtual socket of the relay hands the frame
    to [encrypt], and [nacl.box] throws on a peer key of the wrong
    size, which the relay client stores as it comes. *)

Module Session.
Import Js Run.
Import Crypto (Platform, jsonStringify, matchBackground, matchAgentId).

(** *** Outward messages *)

Record ResultUsage := {
  inputTokens : Z;
  outputTokens : Z;
  cacheReadTokens : Z;
  cacheCreateTokens : Z;
  contextWindow : Z
}.

Inductive ServerMessage :=
| MsgText (content sessionId : str)
| MsgQuestion (questionId : str) (questions : list Store.QuestionItem) (sessionId : str)
| MsgSessionCreated (sessionId cwd : str)
| MsgToolProgress (toolUseId toolName : str) (elapsedSeconds : Z) (sessionId : str)
| MsgCompacting (active : bool) (sessionId : str)
| MsgCompactBoundary (trigger : str) (preTokens : Z) (sessionId : str)
| MsgTaskNotification (taskId status : str) (outputFile : option str)
    (summary : val) (originToolUseId : option str) (sessionId : str)
| MsgTodos (todos : list val) (sessionId : str)
| MsgToolCall (tool : str) (input : option val) (toolUseId sessionId : str)
| MsgBashBackgrounded (toolUseId taskId outputFile sessionId : str)
| MsgToolResultChunk (toolUseId : str) (chunkIndex : nat) (content : str)
    (done : bool) (sessionId : str)
| MsgToolResult (toolUseId output sessionId : str)
| MsgResult (content sessionId : str) (costUsd durationMs : option val)
    (usage : ResultUsage) (numTurns : option val)
    (stopReason resultSubtype : option str) (errors : option (list str))
| MsgError (message : str).

(** *** The agent's event stream *)

(** The [content] of a [tool_result] block: a string, an array of
    parts with a [type] and a [text], or anything else. *)
Inductive ResultContent :=
| ContentString (s : str)
| ContentParts (parts : list (str * option str))
| ContentOther (v : option val).

Inductive Block :=
| TextBlock (text : str)
| ToolUse (id name : str) (input : option val)
| ToolResult (tool_use_id : option str) (content : ResultContent)
| OtherBlock.

Record StartUsage := {
  input_tokens : option Z;
  cache_read_input_tokens : option Z;
  cache_creation_input_tokens : option Z
}.

Inductive StreamEvent :=
| TextDelta (text : str)
| MessageStart (usage : option StartUsage)
| MessageDelta (output_tokens : option (option Z))
| OtherEvent.

Record ResultInfo := {
  result : option str;
  modelUsage : option (list Z);   (* the contextWindow of each model *)
  total_cost_usd : option val;
  duration_ms : option val;
  num_turns : option val;
  stop_reason : option str;
  subtype : option str;
  errors : option (list str)
}.

Inductive SdkMessage :=
| SystemInit (session_id : str)
| SystemStatus (status : option str)
| SystemCompactBoundary (trigger : option str) (pre_tokens : option Z)
| SystemTaskNotification (task_id status output_file summary : option str)
| ToolProgress (tool_use_id tool_name : option str) (elapsed_time_seconds : option Z)
| StreamEventMsg (event : StreamEvent)
| Assistant (content : option (list Block))
| User (content : option (list Block))
| Result (r : ResultInfo)
| OtherMessage.

(** *** The engine's state *)

Inductive Effort := low | medium | high | max.

Inductive Thinking :=
| adaptive
| enabled (budgetTokens : Z)
| disabled.

(** The user turn [injectMessage] hands to the query. *)
Record UserTurn := {
  turnContent : str;
  turnSessionId : str
}.

Record QueryOptions := {
  optPrompt : str;
  optResume : option str;
  optForkSession : bool;
  optEffort : Effort;
  optThinking : Thinking;
  optCwd : str
}.

(** What the engine does to the outside, in order: frames written to a
    transport, calls on the SDK, resolutions of question promises,
    activity callbacks, and the interval of the output watcher. *)
Inductive Effect :=
| WsSend (transport : nat) (msg : ServerMessage)
| SdkQuery (q : nat) (opts : QueryOptions)
| SdkStopTask (q : nat) (sdkTaskId : str)
| SdkStreamInput (q : nat) (turns : list UserTurn)
| SdkClose (q : nat)
| AbortSignal (controller : nat)
| Resolve (promise : nat) (answers : list (str * str))
| OnActivity
| SetInterval (filePath : str)
| ClearInterval (filePath : str).

Record PendingQuestion := {
  questionId : str;
  resolve : nat;                        (* the promise's resolve function *)
  questionData : option ServerMessage
}.

(** The transport: which socket it is, whether its [readyState] is
    [OPEN], and the error its [send] throws, if it throws: a
    [WebSocket] and the sink of [detachWebSocket] take the frame and
    return, the virtual socket of the relay throws what [nacl.box]
    throws. *)
Record Transport := {
  socket : nat;
  isOpen : bool;
  sendThrows : option Error
}.

Record ClaudeSession := {
  sessionId : option str;
  pendingQuestions : list (str * PendingQuestion);
  abortController : option nat;
  activeQuery : option nat;
  questionCounter : N;
  _isRunning : bool;
  _ttsEnabled : bool;
  _effort : Effort;
  _thinking : Thinking;
  _forkFromSessionId : option str;
  _backgroundTaskToolUseIds : gset str;
  _taskIdToToolUseId : list (str * str);
  _activeBashStream : option str;
  _streamingText : str;
  _lastPreview : str;
  _stoppedTasks : gset str;
  replacesSessionId : option str;
  ws : Transport;
  cwd : str
}.

(** The engine and what it acts on: the store's files, the clock
    ([new Date().toISOString()]), a supply of fresh object identities
    and the effects so far. *)
Record World := {
  session : ClaudeSession;
  disk : Store.Disk;
  clock : str;
  fresh : nat;
  effects : list Effect
}.

(** Assignment to one field. *)
Definition set_sessionId (v : option str) (s : ClaudeSession) : ClaudeSession :=
  {| sessionId := v; pendingQuestions := pendingQuestions s;
     abortController := abortController s; activeQuery := activeQuery s;
     questionCounter := questionCounter s; _isRunning := _isRunning s;
     _ttsEnabled := _ttsEnabled s; _effort := _effort s;
     _thinking := _thinking s; _forkFromSessionId := _forkFromSessionId s;
     _backgroundTaskToolUseIds := _backgroundTaskToolUseIds s;
     _taskIdToToolUseId := _taskIdToToolUseId s;
     _activeBashStream := _activeBashStream s;
     _streamingText := _streamingText s; _lastPreview := _lastPreview s;
     _stoppedTasks := _stoppedTasks s;
     replacesSessionId := replacesSessionId s; ws := ws s; cwd := cwd s |}.

Definition set_pendingQuestions (v : list (str * PendingQuestion)) (s : ClaudeSession) : ClaudeSession :=
  {| sessionId := sessionId s; pendingQuestions := v;
     abortController := abortController s; activeQuery := activeQuery s;
     questionCounter := questionCounter s; _isRunning := _isRunning s;
     _ttsEnabled := _ttsEnabled s; _effort := _effort s;
     _thinking := _thinking s; _forkFromSessionId := _forkFromSessionId s;
     _backgroundTaskToolUseIds := _backgroundTaskToolUseIds s;
     _taskIdToToolUseId := _taskIdToToolUseId s;
     _activeBashStream := _activeBashStream s;
     _streamingText := _streamingText s; _lastPreview := _lastPreview s;
     _stoppedTasks := _stoppedTasks s;
     replacesSessionId := replacesSessionId s; ws := ws s; cwd := cwd s |}.

Definition set_abortController (v : option nat) (s : ClaudeSession) : ClaudeSession :=
  {| sessionId := sessionId s; pendingQuestions := pendingQuestions s;
     abortController := v; activeQuery := activeQuery s;
     questionCounter := questionCounter s; _isRunning := _isRunning s;
     _ttsEnabled := _ttsEnabled s; _effort := _effort s;
     _thinking := _thinking s; _forkFromSessionId := _forkFromSessionId s;
     _backgroundTaskToolUseIds := _backgroundTaskToolUseIds s;
     _taskIdToToolUseId := _taskIdToToolUseId s;
     _activeBashStream := _activeBashStream s;
     _streamingText := _streamingText s; _lastPreview := _lastPreview s;
     _stoppedTasks := _stoppedTasks s;
     replacesSessionId := replacesSessionId s; ws := ws s; cwd := cwd s |}.

Definition set_activeQuery (v : option nat) (s : ClaudeSession) : ClaudeSession :=
  {| sessionId := sessionId s; pendingQuestions := pendingQuestions s;
     abortController := abortController s; activeQuery := v;
     questionCounter := questionCounter s; _isRunning := _isRunning s;
     _ttsEnabled := _ttsEnabled s; _effort := _effort s;
     _thinking := _thinking s; _forkFromSessionId := _forkFromSessionId s;
     _backgroundTaskToolUseIds := _backgroundTaskToolUseIds s;
     _taskIdToToolUseId := _taskIdToToolUseId s;
     _activeBashStream := _activeBashStream s;
     _streamingText := _streamingText s; _lastPreview := _lastPreview s;
     _stoppedTasks := _stoppedTasks s;
     replacesSessionId := replacesSessionId s; ws := ws s; cwd := cwd s |}.

Definition set_questionCounter (v : N) (s : ClaudeSession) : ClaudeSession :=
  {| sessionId := sessionId s; pendingQuestions := pendingQuestions s;
     abortController := abortController s; activeQuery := activeQuery s;
     questionCounter := v; _isRunning := _isRunning s;
     _ttsEnabled := _ttsEnabled s; _effort := _effort s;
     _thinking := _thinking s; _forkFromSessionId := _forkFromSessionId s;
     _backgroundTaskToolUseIds := _backgroundTaskToolUseIds s;
     _taskIdToToolUseId := _taskIdToToolUseId s;
     _activeBashStream := _activeBashStream s;
     _streamingText := _streamingText s; _lastPreview := _lastPreview s;
     _stoppedTasks := _stoppedTasks s;
     replacesSessionId := replacesSessionId s; ws := ws s; cwd := cwd s |}.

Definition set_isRunning (v : bool) (s : ClaudeSession) : ClaudeSession :=
  {| sessionId := sessionId s; pendingQuestions := pendingQuestions s;
     abortController := abortController s; activeQuery := activeQuery s;
     questionCounter := questionCounter s; _isRunning := v;
     _ttsEnabled := _ttsEnabled s; _effort := _effort s;
     _thinking := _thinking s; _forkFromSessionId := _forkFromSessionId s;
     _backgroundTaskToolUseIds := _backgroundTaskToolUseIds s;
     _taskIdToToolUseId := _taskIdToToolUseId s;
     _activeBashStream := _activeBashStream s;
     _streamingText := _streamingText s; _lastPreview := _lastPreview s;
     _stoppedTasks := _stoppedTasks s;
     replacesSessionId := replacesSessionId s; ws := ws s; cwd := cwd s |}.

Definition set_ttsEnabled (v : bool) (s : ClaudeSession) : ClaudeSession :=
  {| sessionId := sessionId s; pendingQuestions := pendingQuestions s;
     abortController := abortController s; activeQuery := activeQuery s;
     questionCounter := questionCounter s; _isRunning := _isRunning s;
     _ttsEnabled := v; _effort := _effort s; _thinking := _thinking s;
     _forkFromSessionId := _forkFromSessionId s;
     _backgroundTaskToolUseIds := _backgroundTaskToolUseIds s;
     _taskIdToToolUseId := _taskIdToToolUseId s;
     _activeBashStream := _activeBashStream s;
     _streamingText := _streamingText s; _lastPreview := _lastPreview s;
     _stoppedTasks := _stoppedTasks s;
     replacesSessionId := replacesSessionId s; ws := ws s; cwd := cwd s |}.

Definition set_effort (v : Effort) (s : ClaudeSession) : ClaudeSession :=
  {| sessionId := sessionId s; pendingQuestions := pendingQuestions s;
     abortController := abortController s; activeQuery := activeQuery s;
     questionCounter := questionCounter s; _isRunning := _isRunning s;
     _ttsEnabled := _ttsEnabled s; _effort := v; _thinking := _thinking s;
     _forkFromSessionId := _forkFromSessionId s;
     _backgroundTaskToolUseIds := _backgroundTaskToolUseIds s;
     _taskIdToToolUseId := _taskIdToToolUseId s;
     _activeBashStream := _activeBashStream s;
     _streamingText := _streamingText s; _lastPreview := _lastPreview s;
     _stoppedTasks := _stoppedTasks s;
     replacesSessionId := replacesSessionId s; ws := ws s; cwd := cwd s |}.

Definition set_thinking (v : Thinking) (s : ClaudeSession) : ClaudeSession :=
  {| sessionId := sessionId s; pendingQuestions := pendingQuestions s;
     abortController := abortController s; activeQuery := activeQuery s;
     questionCounter := questionCounter s; _isRunning := _isRunning s;
     _ttsEnabled := _ttsEnabled s; _effort := _effort s; _thinking := v;
     _forkFromSessionId := _forkFromSessionId s;
     _backgroundTaskToolUseIds := _backgroundTaskToolUseIds s;
     _taskIdToToolUseId := _taskIdToToolUseId s;
     _activeBashStream := _activeBashStream s;
     _streamingText := _streamingText s; _lastPreview := _lastPreview s;
     _stoppedTasks := _stoppedTasks s;
     replacesSessionId := replacesSessionId s; ws := ws s; cwd := cwd s |}.

Definition set_forkFromSessionId (v : option str) (s : ClaudeSession) : ClaudeSession :=
  {| sessionId := sessionId s; pendingQuestions := pendingQuestions s;
     abortController := abortController s; activeQuery := activeQuery s;
     questionCounter := questionCounter s; _isRunning := _isRunning s;
     _ttsEnabled := _ttsEnabled s; _effort := _effort s;
     _thinking := _thinking s; _forkFromSessionId := v;
     _backgroundTaskToolUseIds := _backgroundTaskToolUseIds s;
     _taskIdToToolUseId := _taskIdToToolUseId s;
     _activeBashStream := _activeBashStream s;
     _streamingText := _streamingText s; _lastPreview := _lastPreview s;
     _stoppedTasks := _stoppedTasks s;
     replacesSessionId := replacesSessionId s; ws := ws s; cwd := cwd s |}.

Definition set_backgroundTaskToolUseIds (v : gset str) (s : ClaudeSession) : ClaudeSession :=
  {| sessionId := sessionId s; pendingQuestions := pendingQuestions s;
     abortController := abortController s; activeQuery := activeQuery s;
     questionCounter := questionCounter s; _isRunning := _isRunning s;
     _ttsEnabled := _ttsEnabled s; _effort := _effort s;
     _thinking := _thinking s; _forkFromSessionId := _forkFromSessionId s;
     _backgroundTaskToolUseIds := v;
     _taskIdToToolUseId := _taskIdToToolUseId s;
     _activeBashStream := _activeBashStream s;
     _streamingText := _streamingText s; _lastPreview := _lastPreview s;
     _stoppedTasks := _stoppedTasks s;
     replacesSessionId := replacesSessionId s; ws := ws s; cwd := cwd s |}.

Definition set_taskIdToToolUseId (v : list (str * str)) (s : ClaudeSession) : ClaudeSession :=
  {| sessionId := sessionId s; pendingQuestions := pendingQuestions s;
     abortController := abortController s; activeQuery := activeQuery s;
     questionCounter := questionCounter s; _isRunning := _isRunning s;
     _ttsEnabled := _ttsEnabled s; _effort := _effort s;
     _thinking := _thinking s; _forkFromSessionId := _forkFromSessionId s;
     _backgroundTaskToolUseIds := _backgroundTaskToolUseIds s;
     _taskIdToToolUseId := v; _activeBashStream := _activeBashStream s;
     _streamingText := _streamingText s; _lastPreview := _lastPreview s;
     _stoppedTasks := _stoppedTasks s;
     replacesSessionId := replacesSessionId s; ws := ws s; cwd := cwd s |}.

Definition set_activeBashStream (v : option str) (s : ClaudeSession) : ClaudeSession :=
  {| sessionId := sessionId s; pendingQuestions := pendingQuestions s;
     abortController := abortController s; activeQuery := activeQuery s;
     questionCounter := questionCounter s; _isRunning := _isRunning s;
     _ttsEnabled := _ttsEnabled s; _effort := _effort s;
     _thinking := _thinking s; _forkFromSessionId := _forkFromSessionId s;
     _backgroundTaskToolUseIds := _backgroundTaskToolUseIds s;
     _taskIdToToolUseId := _taskIdToToolUseId s; _activeBashStream := v;
     _streamingText := _streamingText s; _lastPreview := _lastPreview s;
     _stoppedTasks := _stoppedTasks s;
     replacesSessionId := replacesSessionId s; ws := ws s; cwd := cwd s |}.

Definition set_streamingText (v : str) (s : ClaudeSession) : ClaudeSession :=
  {| sessionId := sessionId s; pendingQuestions := pendingQuestions s;
     abortController := abortController s; activeQuery := activeQuery s;
     questionCounter := questionCounter s; _isRunning := _isRunning s;
     _ttsEnabled := _ttsEnabled s; _effort := _effort s;
     _thinking := _thinking s; _forkFromSessionId := _forkFromSessionId s;
     _backgroundTaskToolUseIds := _backgroundTaskToolUseIds s;
     _taskIdToToolUseId := _taskIdToToolUseId s;
     _activeBashStream := _activeBashStream s; _streamingText := v;
     _lastPreview := _lastPreview s; _stoppedTasks := _stoppedTasks s;
     replacesSessionId := replacesSessionId s; ws := ws s; cwd := cwd s |}.

Definition set_lastPreview (v : str) (s : ClaudeSession) : ClaudeSession :=
  {| sessionId := sessionId s; pendingQuestions := pendingQuestions s;
     abortController := abortController s; activeQuery := activeQuery s;
     questionCounter := questionCounter s; _isRunning := _isRunning s;
     _ttsEnabled := _ttsEnabled s; _effort := _effort s;
     _thinking := _thinking s; _forkFromSessionId := _forkFromSessionId s;
     _backgroundTaskToolUseIds := _backgroundTaskToolUseIds s;
     _taskIdToToolUseId := _taskIdToToolUseId s;
     _activeBashStream := _activeBashStream s;
     _streamingText := _streamingText s; _lastPreview := v;
     _stoppedTasks := _stoppedTasks s;
     replacesSessionId := replacesSessionId s; ws := ws s; cwd := cwd s |}.

Definition set_stoppedTasks (v : gset str) (s : ClaudeSession) : ClaudeSession :=
  {| sessionId := sessionId s; pendingQuestions := pendingQuestions s;
     abortController := abortController s; activeQuery := activeQuery s;
     questionCounter := questionCounter s; _isRunning := _isRunning s;
     _ttsEnabled := _ttsEnabled s; _effort := _effort s;
     _thinking := _thinking s; _forkFromSessionId := _forkFromSessionId s;
     _backgroundTaskToolUseIds := _backgroundTaskToolUseIds s;
     _taskIdToToolUseId := _taskIdToToolUseId s;
     _activeBashStream := _activeBashStream s;
     _streamingText := _streamingText s; _lastPreview := _lastPreview s;
     _stoppedTasks := v; replacesSessionId := replacesSessionId s;
     ws := ws s; cwd := cwd s |}.

Definition set_replacesSessionId (v : option str) (s : ClaudeSession) : ClaudeSession :=
  {| sessionId := sessionId s; pendingQuestions := pendingQuestions s;
     abortController := abortController s; activeQuery := activeQuery s;
     questionCounter := questionCounter s; _isRunning := _isRunning s;
     _ttsEnabled := _ttsEnabled s; _effort := _effort s;
     _thinking := _thinking s; _forkFromSessionId := _forkFromSessionId s;
     _backgroundTaskToolUseIds := _backgroundTaskToolUseIds s;
     _taskIdToToolUseId := _taskIdToToolUseId s;
     _activeBashStream := _activeBashStream s;
     _streamingText := _streamingText s; _lastPreview := _lastPreview s;
     _stoppedTasks := _stoppedTasks s; replacesSessionId := v; ws := ws s;
     cwd := cwd s |}.

Definition set_ws (v : Transport) (s : ClaudeSession) : ClaudeSession :=
  {| sessionId := sessionId s; pendingQuestions := pendingQuestions s;
     abortController := abortController s; activeQuery := activeQuery s;
     questionCounter := questionCounter s; _isRunning := _isRunning s;
     _ttsEnabled := _ttsEnabled s; _effort := _effort s;
     _thinking := _thinking s; _forkFromSessionId := _forkFromSessionId s;
     _backgroundTaskToolUseIds := _backgroundTaskToolUseIds s;
     _taskIdToToolUseId := _taskIdToToolUseId s;
     _activeBashStream := _activeBashStream s;
     _streamingText := _streamingText s; _lastPreview := _lastPreview s;
     _stoppedTasks := _stoppedTasks s;
     replacesSessionId := replacesSessionId s; ws := v; cwd := cwd s |}.

Definition with_session (v : ClaudeSession) (w : World) : World :=
  {| session := v; disk := disk w; clock := clock w; fresh := fresh w;
     effects := effects w |}.

Definition with_disk (v : Store.Disk) (w : World) : World :=
  {| session := session w; disk := v; clock := clock w; fresh := fresh w;
     effects := effects w |}.

Definition with_clock (v : str) (w : World) : World :=
  {| session := session w; disk := disk w; clock := v; fresh := fresh w;
     effects := effects w |}.

Definition with_fresh (v : nat) (w : World) : World :=
  {| session := session w; disk := disk w; clock := clock w; fresh := v;
     effects := effects w |}.

Definition with_effects (v : list Effect) (w : World) : World :=
  {| session := session w; disk := disk w; clock := clock w;
     fresh := fresh w; effects := v |}.

Definition new (transport : Transport) (dir : str) : ClaudeSession :=
  {| sessionId := None; pendingQuestions := []; abortController := None;
     activeQuery := None; questionCounter := 0; _isRunning := false;
     _ttsEnabled := false; _effort := high; _thinking := adaptive;
     _forkFromSessionId := None; _backgroundTaskToolUseIds := ∅;
     _taskIdToToolUseId := []; _activeBashStream := None;
     _streamingText := []; _lastPreview := []; _stoppedTasks := ∅;
     replacesSessionId := None; ws := transport; cwd := dir |}.

Section WithPlatform.
Context {platform : Platform}.

Local Open Scope run_scope.

(** *** Access to the state *)

Definition act (e : Effect) : M World unit :=
  modify (fun w => with_effects (effects w ++ [e]) w).

Definition update (f : ClaudeSession -> ClaudeSession) : M World unit :=
  modify (fun w => with_session (f (session w)) w).

Definition this : M World ClaudeSession :=
  w <- read ;; ret (session w).

(** [new Date().toISOString()] *)
Definition now : M World str :=
  w <- read ;; ret (clock w).

(** A new object (a query, an abort controller, a promise, a socket). *)
Definition newObject : M World nat :=
  w <- read ;;
  modify (with_fresh (S (fresh w))) ;;
  ret (fresh w).

Definition onDisk {A} (m : M Store.Disk A) : M World A :=
  zoom disk with_disk m.

Definition writeDisk (f : Store.Disk -> Store.Disk) : M World unit :=
  modify (fun w => with_disk (f (disk w)) w).

Definition lift {A} (o : outcome A) : M World A := fun w => (o, w).

(** [this.sessionId || ""] *)
Definition sid : M World str :=
  s <- this ;; ret (or_else (sessionId s) []).

(** [appendHistory] under [if (this.sessionId)] *)
Definition logEntry (mk : str -> Store.HistoryEntry) : M World unit :=
  s <- this ;;
  match sessionId s with
  | Some id =>
      if truthy id then
        t <- now ;; onDisk (Store.appendHistory id (mk t))
      else ret tt
  | None => ret tt
  end.

(** *** The control surface *)

(** [send] *)
Definition send (msg : ServerMessage) : M World unit :=
  s <- this ;;
  if isOpen (ws s) then
    match sendThrows (ws s) with
    | Some err => throw err
    | None => act (WsSend (socket (ws s)) msg)
    end
  else ret tt.

Definition setTtsEnabled (v : bool) : M World unit := update (set_ttsEnabled v).
Definition setEffort (v : Effort) : M World unit := update (set_effort v).
Definition setThinking (v : Thinking) : M World unit := update (set_thinking v).

Definition setForkSource (sessionId : str) : M World unit :=
  update (set_forkFromSessionId (Some sessionId)).

(** The loop of [stopTask] over [_taskIdToToolUseId.entries()]: the
    agent id of the first entry whose tool-use id is [taskId], else
    [taskId] itself. *)
Definition sdkTaskIdOf (taskId : str) (m : list (str * str)) : str :=
  match List.find (fun kv => bool_decide (snd kv = taskId)) m with
  | Some (agentId, _) => agentId
  | None => taskId
  end.

(** [stopTask] *)
Definition stopTask (taskId : str) : M World unit :=
  s <- this ;;
  if bool_decide (taskId ∈ _stoppedTasks s) then ret tt
  else
    update (fun s => set_stoppedTasks ({[taskId]} ∪ _stoppedTasks s) s) ;;
    match activeQuery s with
    | None => ret tt
    | Some q => act (SdkStopTask q (sdkTaskIdOf taskId (_taskIdToToolUseId s)))
    end.

(** [_stopBashWatcher] *)
Definition _stopBashWatcher : M World unit :=
  s <- this ;;
  match _activeBashStream s with
  | Some filePath =>
      act (ClearInterval filePath) ;;
      update (set_activeBashStream None)
  | None => ret tt
  end.

(** [_startBashWatcher] *)
Definition _startBashWatcher (filePath : str) : M World unit :=
  _stopBashWatcher ;;
  act (SetInterval filePath) ;;
  update (set_activeBashStream (Some filePath)).

(** [setWebSocket] *)
Definition setWebSocket (transport : Transport) : M World unit :=
  update (set_ws transport) ;;
  s <- this ;;
  id <- sid ;;
  when (bool_decide (0 < length (_streamingText s)))
    (send (MsgText (_streamingText s) id)) ;;
  forEach (pendingQuestions s) (fun kv =>
    match questionData (snd kv) with
    | Some data => send data
    | None => ret tt
    end).

(** [detachWebSocket] *)
Definition detachWebSocket : M World unit :=
  o <- newObject ;;
  update (set_ws {| socket := o; isOpen := false; sendThrows := None |}).

(** [resolveQuestion] *)
Definition resolveQuestion (qid : str) (answers : list (str * str)) : M World unit :=
  s <- this ;;
  match mapGet qid (pendingQuestions s) with
  | Some pending =>
      act (Resolve (resolve pending) answers) ;;
      update (fun s => set_pendingQuestions (mapDelete qid (pendingQuestions s)) s) ;;
      match sessionId s with
      | Some id =>
          if truthy id then writeDisk (Store.markQuestionAnswered id qid)
          else ret tt
      | None => ret tt
      end
  | None => ret tt
  end.

(** [abort]; an error thrown by [close()] is swallowed. *)
Definition abort : M World unit :=
  s <- this ;;
  match abortController s with
  | Some c => act (AbortSignal c)
  | None => ret tt
  end ;;
  match activeQuery s with
  | Some q =>
      act (SdkClose q) ;;
      update (set_activeQuery None)
  | None => ret tt
  end.

(** [injectMessage]; [streamed] is how the awaited [streamInput]
    ends. *)
Definition injectMessage (text : str) (streamed : outcome unit) : M World unit :=
  s <- this ;;
  match activeQuery s with
  | Some q =>
      if _isRunning s then
        let sessionId := or_else (sessionId s) [] in
        (if truthy sessionId then
           t <- now ;;
           onDisk (Store.appendHistory sessionId (Store.plain (lit "user") text t))
         else ret tt) ;;
        tryCatch
          (act (SdkStreamInput q
                  [{| turnContent := text; turnSessionId := sessionId |}]) ;;
           lift streamed)
          (fun e => ret tt)
      else ret tt
  | None => ret tt
  end.

(** *** Questions ([canUseTool]) *)

Definition optionOf (o : val) : Store.QuestionOption :=
  {| Store.label := or_val (get (lit "label") o) (Str []);
     Store.description := get (lit "description") o |}.

Definition questionOf (q : val) : Store.QuestionItem :=
  {| Store.question := or_val (get (lit "question") q) (Str []);
     Store.header := get (lit "header") q;
     Store.options :=
       match asArray (get (lit "options") q) with
       | Some l => optionOf <$> l
       | None => []
       end;
     Store.multiSelect := get (lit "multiSelect") q |}.

Definition planQuestions (planContent : str) : list Store.QuestionItem :=
  [{| Store.question :=
        Str (if truthy planContent then planContent
             else lit "Claude has proposed a plan. Approve or reject?");
      Store.header := Some (Str (lit "Plan Review"));
      Store.options :=
        [{| Store.label := Str (lit "Approve");
            Store.description :=
              Some (Str (lit "Accept this plan and proceed with implementation")) |};
         {| Store.label := Str (lit "Reject");
            Store.description := Some (Str (lit "Reject this plan")) |}];
      Store.multiSelect := Some (Bool false) |}].

(** The part of [canUseTool] shared by the two kinds of question, up
    to the [await] of the answer: the next id is taken, the question is
    sent and logged, and a promise is left pending under the id. *)
Definition ask (questions : list Store.QuestionItem) : M World unit :=
  update (fun s => set_questionCounter (questionCounter s + 1)%N s) ;;
  s <- this ;;
  let qId := lit "q" ++ ofN (questionCounter s) in
  id <- sid ;;
  let questionMsg := MsgQuestion qId questions id in
  send questionMsg ;;
  logEntry (Store.questionEntry qId questions) ;;
  promise <- newObject ;;
  update (fun s => set_pendingQuestions
            (mapSet qId {| questionId := qId; resolve := promise;
                           questionData := Some questionMsg |}
                    (pendingQuestions s)) s).

(** [canUseTool], up to the [await]; [planContent] is the text of the
    most recent plan file, empty when there is none. *)
Definition canUseTool (toolName : str) (input : option val) (planContent : str)
    : M World unit :=
  if bool_decide (toolName = lit "AskUserQuestion") then
    ask (match asArray (mbind (get (lit "questions")) input) with
         | Some l => questionOf <$> l
         | None => []
         end)
  else if bool_decide (toolName = lit "ExitPlanMode") then
    ask (planQuestions planContent)
  else ret tt.

(** *** Tool results *)

Definition CHUNK_THRESHOLD : nat := 500.
Definition CHUNK_SIZE : nat := 200.

(** The loop [for (let i = 0; i < output.length; i += CHUNK_SIZE)]
    with its counter [chunkIdx]. *)
Equations? chunkLoop (output toolUseId : str) (i chunkIdx : nat) : M World unit
    by wf (length output - i) lt :=
  chunkLoop output toolUseId i chunkIdx with decide (i < length output) := {
    | left _ =>
        id <- sid ;;
        send (MsgToolResultChunk toolUseId chunkIdx
                (slice output i (i + CHUNK_SIZE))
                (bool_decide (length output <= i + CHUNK_SIZE)) id) ;;
        chunkLoop output toolUseId (i + CHUNK_SIZE) (S chunkIdx)
    | right _ => ret tt }.
Proof. unfold CHUNK_SIZE. lia. Qed.

(** Large outputs go out in chunks, the others whole. *)
Definition sendToolResult (toolUseId output : str) : M World unit :=
  if bool_decide (CHUNK_THRESHOLD < length output) then
    chunkLoop output toolUseId 0 0
  else
    id <- sid ;;
    send (MsgToolResult toolUseId output id).

(** The text of a [tool_result] block; where the content is neither a
    string nor an array and [JSON.stringify] gives [undefined], the
    [output.match] that follows throws. *)
Definition outputOf (content : ResultContent) : outcome str :=
  match content with
  | ContentString s => Ok s
  | ContentParts parts =>
      Ok (join [10%N]
            ((fun p => default [] (snd p)) <$>
             filter (fun p => fst p = lit "text") parts))
  | ContentOther v =>
      match jsonStringify v with
      | Some s => Ok s
      | None => Throw (Js.error "Cannot read properties of undefined (reading 'match')")
      end
  end.

(** The body of the loop over a user message's blocks, for a
    [tool_result] block. *)
Definition onToolResult (tool_use_id : option str) (content : ResultContent)
    : M World unit :=
  output <- lift (outputOf content) ;;
  let toolUseId := or_else tool_use_id [] in
  s <- this ;;
  match matchBackground output, _activeBashStream s with
  | Some (bgTaskId, outputFile), Some _ =>
      _stopBashWatcher ;;
      _startBashWatcher outputFile ;;
      id <- sid ;;
      send (MsgBashBackgrounded toolUseId bgTaskId outputFile id) ;;
      update (fun s => set_taskIdToToolUseId
                         (mapSet bgTaskId toolUseId (_taskIdToToolUseId s)) s)
  | _, _ => _stopBashWatcher
  end ;;
  s <- this ;;
  when (bool_decide (toolUseId ∈ _backgroundTaskToolUseIds s))
    (update (fun s => set_backgroundTaskToolUseIds
                        (_backgroundTaskToolUseIds s ∖ {[toolUseId]}) s) ;;
     match matchAgentId output with
     | Some agentId =>
         update (fun s => set_taskIdToToolUseId
                            (mapSet agentId toolUseId (_taskIdToToolUseId s)) s)
     | None => ret tt
     end) ;;
  sendToolResult toolUseId output ;;
  logEntry (Store.toolResultEntry toolUseId output).

(** *** Tool calls *)

(** [block.name.replace("mcp__tts-tools__", "")
      .replace("mcp__reminder-tools__", "")] *)
Definition mcpNameOf (name : str) : str :=
  replace (lit "mcp__reminder-tools__") []
    (replace (lit "mcp__tts-tools__") [] name).

(** The body of the loop over an assistant message's blocks, for a
    [tool_use] block. *)
Definition onToolUse (id name : str) (input : option val) : M World unit :=
  if bool_decide (name = lit "AskUserQuestion") then ret tt
  else if bool_decide (name = lit "TodoWrite") then
    match asArray (mbind (get (lit "todos")) input) with
    | Some todos =>
        s <- this ;;
        match sessionId s with
        | Some sessionId =>
            when (truthy sessionId) (writeDisk (Store.saveTodos sessionId todos))
        | None => ret tt
        end ;;
        sessionId <- sid ;;
        send (MsgTodos todos sessionId)
    | None => ret tt
    end
  else
    let mcpName := mcpNameOf name in
    if bool_decide (mcpName = lit "Speak") || bool_decide (mcpName = lit "SendFile")
       || bool_decide (mcpName = lit "ScheduleReminder") then
      sessionId <- sid ;;
      send (MsgToolCall mcpName input id sessionId) ;;
      logEntry (Store.toolCallEntry mcpName input id)
    else
      sessionId <- sid ;;
      send (MsgToolCall name input id sessionId) ;;
      when (bool_decide (name = lit "Bash"))
        (_startBashWatcher (lit "/tmp/claude-bash-live.log")) ;;
      when (bool_decide (name = lit "Task")
            && truthy_val (mbind (get (lit "run_in_background")) input))
        (let desc := or_val (mbind (get (lit "description")) input)
                            (Str (lit "Background task")) in
         update (fun s => set_backgroundTaskToolUseIds
                            ({[id]} ∪ _backgroundTaskToolUseIds s) s) ;;
         send (MsgTaskNotification id (lit "started") None desc None sessionId)) ;;
      logEntry (Store.toolCallEntry name input id).

(** *** The query loop *)

(** The variables of [runQuery] that live across iterations. *)
Record Locals := {
  currentText : str;
  lastResultContent : str;
  lastTurnInputTokens : Z;
  lastTurnOutputTokens : Z;
  lastTurnCacheReadTokens : Z;
  lastTurnCacheCreateTokens : Z;
  promptLogged : bool
}.

Definition set_currentText (v : str) (l : Locals) : Locals :=
  {| currentText := v; lastResultContent := lastResultContent l;
     lastTurnInputTokens := lastTurnInputTokens l;
     lastTurnOutputTokens := lastTurnOutputTokens l;
     lastTurnCacheReadTokens := lastTurnCacheReadTokens l;
     lastTurnCacheCreateTokens := lastTurnCacheCreateTokens l;
     promptLogged := promptLogged l |}.

Definition set_promptLogged (v : bool) (l : Locals) : Locals :=
  {| currentText := currentText l; lastResultContent := lastResultContent l;
     lastTurnInputTokens := lastTurnInputTokens l;
     lastTurnOutputTokens := lastTurnOutputTokens l;
     lastTurnCacheReadTokens := lastTurnCacheReadTokens l;
     lastTurnCacheCreateTokens := lastTurnCacheCreateTokens l;
     promptLogged := v |}.

Definition set_outputTokens (v : Z) (l : Locals) : Locals :=
  {| currentText := currentText l; lastResultContent := lastResultContent l;
     lastTurnInputTokens := lastTurnInputTokens l;
     lastTurnOutputTokens := v;
     lastTurnCacheReadTokens := lastTurnCacheReadTokens l;
     lastTurnCacheCreateTokens := lastTurnCacheCreateTokens l;
     promptLogged := promptLogged l |}.

Definition set_startUsage (u : StartUsage) (l : Locals) : Locals :=
  {| currentText := currentText l; lastResultContent := lastResultContent l;
     lastTurnInputTokens := or_zero (input_tokens u);
     lastTurnOutputTokens := 0;
     lastTurnCacheReadTokens := or_zero (cache_read_input_tokens u);
     lastTurnCacheCreateTokens := or_zero (cache_creation_input_tokens u);
     promptLogged := promptLogged l |}.

Definition set_result (v : str) (l : Locals) : Locals :=
  {| currentText := []; lastResultContent := v;
     lastTurnInputTokens := lastTurnInputTokens l;
     lastTurnOutputTokens := lastTurnOutputTokens l;
     lastTurnCacheReadTokens := lastTurnCacheReadTokens l;
     lastTurnCacheCreateTokens := lastTurnCacheCreateTokens l;
     promptLogged := promptLogged l |}.

Definition dash : str := [0x2014%N].
Definition newline : str := [10%N].

Definition ttsInstruction : str :=
  newline ++ newline ++
  lit "IMPORTANT: Text-to-speech is enabled. Before writing your final text response, you MUST call the Speak tool with a concise, natural spoken summary. Keep it brief and conversational "
  ++ dash ++
  lit " don't read code, URLs, or markdown aloud. If your response is short and simple, speak it nearly verbatim. If it's long or technical, summarize the key points. Always still write your full text response after speaking.".

Definition toolContext (tts : bool) : str :=
  lit "You are a general-purpose personal assistant. You can schedule reminders for the user using the ScheduleReminder tool "
  ++ dash ++
  lit " use ISO 8601 datetime for the scheduledTime parameter."
  ++ (if tts then ttsInstruction else [])
  ++ newline ++ newline ++ lit "User request: ".

(** The [system]/[init] message. *)
Definition onInit (prompt : str) (resumeSessionId : option str)
    (session_id : str) (l : Locals) : M World Locals :=
  update (set_sessionId (Some session_id)) ;;
  s <- this ;;
  send (MsgSessionCreated session_id (cwd s)) ;;
  (if truthy_opt (replacesSessionId s) then
     t <- now ;;
     writeDisk (Store.remapSession t (default [] (replacesSessionId s)) session_id) ;;
     update (set_replacesSessionId None)
   else if negb (truthy_opt resumeSessionId) then
     t <- now ;;
     writeDisk (Store.saveSession
       {| Store.id := session_id;
          Store.title := slice prompt 0 50
                         ++ (if bool_decide (50 < length prompt) then lit "..." else []);
          Store.cwd := cwd s;
          Store.createdAt := t;
          Store.lastActive := t;
          Store.messagePreview := [];
          Store.lastUsage := None |})
   else ret tt) ;;
  if promptLogged l then ret l
  else
    t <- now ;;
    onDisk (Store.appendHistory session_id (Store.plain (lit "user") prompt t)) ;;
    ret (set_promptLogged true l).

(** The [assistant] message. *)
Definition onAssistant (content : option (list Block)) : M World unit :=
  update (set_streamingText []) ;;
  match content with
  | Some blocks =>
      let textParts := omap (fun b => match b with TextBlock t => Some t | _ => None end) blocks in
      when (bool_decide (0 < length textParts))
        (update (set_lastPreview (slice (join [] textParts) 0 200)) ;;
         act OnActivity ;;
         logEntry (Store.plain (lit "assistant") (join [] textParts))) ;;
      forEach blocks (fun b =>
        match b with
        | ToolUse id name input => onToolUse id name input
        | _ => ret tt
        end)
  | None => ret tt
  end.

(** The [user] message. *)
Definition onUser (content : option (list Block)) : M World unit :=
  match content with
  | Some blocks =>
      forEach blocks (fun b =>
        match b with
        | ToolResult tool_use_id c => onToolResult tool_use_id c
        | _ => ret tt
        end)
  | None => ret tt
  end.

(** The [stream_event] message. *)
Definition onStreamEvent (event : StreamEvent) (l : Locals) : M World Locals :=
  match event with
  | TextDelta text =>
      update (fun s => set_streamingText (_streamingText s ++ text) s) ;;
      sessionId <- sid ;;
      send (MsgText text sessionId) ;;
      ret (set_currentText (currentText l ++ text) l)
  | MessageStart (Some u) => ret (set_startUsage u l)
  | MessageStart None => ret l
  | MessageDelta (Some o) => ret (set_outputTokens (or_zero o) l)
  | MessageDelta None => ret l
  | OtherEvent => ret l
  end.

(** The [result] message. *)
Definition onResult (r : ResultInfo) (l : Locals) : M World Locals :=
  let content :=
    or_else (result r) (if truthy (currentText l) then currentText l
                        else lit "Task completed.") in
  let window := foldl (fun acc w => if (acc <? w)%Z then w else acc) 0%Z
                      (default [] (modelUsage r)) in
  let usage := {| inputTokens := lastTurnInputTokens l;
                  outputTokens := lastTurnOutputTokens l;
                  cacheReadTokens := lastTurnCacheReadTokens l;
                  cacheCreateTokens := lastTurnCacheCreateTokens l;
                  contextWindow := window |} in
  sessionId <- sid ;;
  send (MsgResult content sessionId (total_cost_usd r) (duration_ms r) usage
          (num_turns r) (or_undefined (stop_reason r)) (or_undefined (subtype r))
          (match errors r with
           | Some (e :: es) => Some (e :: es)
           | _ => None
           end)) ;;
  update (set_lastPreview (slice content 0 200)) ;;
  s <- this ;;
  match Session.sessionId s with
  | Some id =>
      when (truthy id)
        (t <- now ;;
         writeDisk (Store.updateSessionActivity t id content
           (Some {| Store.inputTokens := lastTurnInputTokens l;
                    Store.outputTokens := lastTurnOutputTokens l;
                    Store.cacheReadTokens := lastTurnCacheReadTokens l;
                    Store.cacheCreateTokens := lastTurnCacheCreateTokens l;
                    Store.contextWindow := window;
                    Store.costUsd := total_cost_usd r;
                    Store.numTurns := num_turns r |})))
  | None => ret tt
  end ;;
  act OnActivity ;;
  ret (set_result content l).

(** The body of [for await (const message of q)]. *)
Definition onMessage (prompt : str) (resumeSessionId : option str)
    (message : SdkMessage) (l : Locals) : M World Locals :=
  match message with
  | SystemInit session_id => onInit prompt resumeSessionId session_id l
  | ToolProgress tool_use_id tool_name elapsed =>
      sessionId <- sid ;;
      send (MsgToolProgress (or_else tool_use_id []) (or_else tool_name [])
              (or_zero elapsed) sessionId) ;;
      ret l
  | SystemStatus status =>
      sessionId <- sid ;;
      send (MsgCompacting (bool_decide (status = Some (lit "compacting"))) sessionId) ;;
      ret l
  | SystemCompactBoundary trigger pre_tokens =>
      sessionId <- sid ;;
      send (MsgCompactBoundary (or_else trigger (lit "auto")) (or_zero pre_tokens)
              sessionId) ;;
      logEntry (Store.plain (lit "assistant")
                  (lit "[compact_boundary:" ++ ofZ (or_zero pre_tokens) ++ lit ":"
                   ++ or_else trigger (lit "auto") ++ lit "]")) ;;
      ret l
  | SystemTaskNotification task_id status output_file summary =>
      s <- this ;;
      let sdkTaskId := or_else task_id [] in
      let originToolUseId := or_undefined (mapGet sdkTaskId (_taskIdToToolUseId s)) in
      when (bool_decide (is_Some originToolUseId))
        (update (fun s => set_taskIdToToolUseId
                            (mapDelete sdkTaskId (_taskIdToToolUseId s)) s)) ;;
      sessionId <- sid ;;
      send (MsgTaskNotification sdkTaskId (or_else status (lit "completed"))
              (or_undefined output_file) (Str (or_else summary []))
              originToolUseId sessionId) ;;
      logEntry (Store.plain (lit "assistant")
                  (lit "[Task " ++ shown status ++ lit "] " ++ or_else summary [])) ;;
      ret l
  | StreamEventMsg event => onStreamEvent event l
  | Assistant content => onAssistant content ;; ret l
  | User content => onUser content ;; ret l
  | Result r => onResult r l
  | OtherMessage => ret l
  end.

(** Calls on the engine from other control paths, and changes of its
    surroundings, that can happen while the loop awaits the next
    message. *)
Inductive Control :=
| CallInjectMessage (text : str) (streamed : outcome unit)
| CallAbort
| CallStopTask (taskId : str)
| CallResolveQuestion (qid : str) (answers : list (str * str))
| CallSetWebSocket (transport : Transport)
| CallDetachWebSocket
| CallCanUseTool (toolName : str) (input : option val) (planContent : str)
| CallSetForkSource (sessionId : str)
| CallSetTtsEnabled (v : bool)
| CallSetEffort (v : Effort)
| CallSetThinking (v : Thinking)
| SocketReadyState (open : bool)
| SocketSendThrows (err : option Error)
| ClockReads (t : str).

Definition control (c : Control) : M World unit :=
  match c with
  | CallInjectMessage text streamed => injectMessage text streamed
  | CallAbort => abort
  | CallStopTask taskId => stopTask taskId
  | CallResolveQuestion qid answers => resolveQuestion qid answers
  | CallSetWebSocket transport => setWebSocket transport
  | CallDetachWebSocket => detachWebSocket
  | CallCanUseTool toolName input planContent => canUseTool toolName input planContent
  | CallSetForkSource sessionId => setForkSource sessionId
  | CallSetTtsEnabled v => setTtsEnabled v
  | CallSetEffort v => setEffort v
  | CallSetThinking v => setThinking v
  | SocketReadyState open =>
      update (fun s => set_ws {| socket := socket (ws s); isOpen := open;
                                 sendThrows := sendThrows (ws s) |} s)
  | SocketSendThrows err =>
      update (fun s => set_ws {| socket := socket (ws s); isOpen := isOpen (ws s);
                                 sendThrows := err |} s)
  | ClockReads t => modify (with_clock t)
  end.

(** What the loop sees between two of its steps: the next message of
    the stream, or something that happened while it was waiting. *)
Inductive Tick :=
| Incoming (message : SdkMessage)
| Meanwhile (c : Control).

(** A call from another control path runs to its end, or to the error
    it throws to its own caller. *)
Definition meanwhile (c : Control) : M World unit :=
  fun w => (Ok tt, snd (control c w)).

(** [for await (const message of q)]: [ending] is the error with which
    the stream ends, if it does not end normally. *)
Fixpoint loop (prompt : str) (resumeSessionId : option str)
    (stream : list Tick) (ending : option Error) (l : Locals) : M World unit :=
  match stream with
  | [] =>
      match ending with
      | Some err => throw err
      | None => ret tt
      end
  | Incoming message :: rest =>
      l' <- onMessage prompt resumeSessionId message l ;;
      loop prompt resumeSessionId rest ending l'
  | Meanwhile c :: rest =>
      meanwhile c ;;
      loop prompt resumeSessionId rest ending l
  end.

(** The [try] block of [runQuery]; [started] is how the call of the
    SDK's [query] ends. *)
Definition tryBlock (prompt : str) (resumeSessionId : option str)
    (started : outcome unit) (stream : list Tick) (ending : option Error)
    : M World unit :=
  s <- this ;;
  let enrichedPrompt :=
    if negb (truthy_opt resumeSessionId) && negb (truthy_opt (sessionId s))
    then toolContext (_ttsEnabled s) ++ prompt
    else prompt in
  let shouldFork := truthy_opt (_forkFromSessionId s) in
  let forkSourceId := _forkFromSessionId s in
  update (set_forkFromSessionId None) ;;
  let resumeTarget :=
    if shouldFork then forkSourceId
    else if truthy_opt resumeSessionId then resumeSessionId
    else or_undefined (sessionId s) in
  q <- newObject ;;
  act (SdkQuery q {| optPrompt := enrichedPrompt; optResume := resumeTarget;
                     optForkSession := shouldFork; optEffort := _effort s;
                     optThinking := _thinking s; optCwd := cwd s |}) ;;
  lift started ;;
  update (set_activeQuery (Some q)) ;;
  let l0 := {| currentText := []; lastResultContent := [];
               lastTurnInputTokens := 0; lastTurnOutputTokens := 0;
               lastTurnCacheReadTokens := 0; lastTurnCacheCreateTokens := 0;
               promptLogged := false |} in
  l <- (if truthy_opt (sessionId s) || truthy_opt resumeSessionId then
          let id := if truthy_opt (sessionId s) then default [] (sessionId s)
                    else or_else resumeSessionId [] in
          t <- now ;;
          onDisk (Store.appendHistory id (Store.plain (lit "user") prompt t)) ;;
          ret (set_promptLogged true l0)
        else ret l0) ;;
  loop prompt resumeSessionId stream ending l.

(** The [catch] block of [runQuery]. *)
Definition catchBlock (err : Error) : M World unit :=
  let errMsg := or_else (message err) (lit "Unknown error during query") in
  send (MsgError errMsg).

(** The [finally] block of [runQuery]. *)
Definition finallyBlock : M World unit :=
  update (set_isRunning false) ;;
  update (set_activeQuery None).

(** The statements of [runQuery] before its [try]. *)
Definition enterQuery : M World unit :=
  c <- newObject ;;
  update (set_abortController (Some c)) ;;
  update (set_isRunning true) ;;
  update (set_streamingText []) ;;
  update (set_lastPreview []) ;;
  act OnActivity.

(** [runQuery] *)
Definition runQuery (prompt : str) (resumeSessionId : option str)
    (started : outcome unit) (stream : list Tick) (ending : option Error)
    : M World unit :=
  enterQuery ;;
  finally
    (tryCatch (tryBlock prompt resumeSessionId started stream ending) catchBlock)
    finallyBlock.

(** *** The life of an engine *)

(** A query from its start to its end, with what happens during it,
    or something that happens while no query runs. *)
Inductive Op :=
| Query (prompt : str) (resumeSessionId : option str) (started : outcome unit)
    (stream : list Tick) (ending : option Error)
| Between (c : Control).

Definition exec (op : Op) : M World unit :=
  match op with
  | Query prompt resumeSessionId started stream ending =>
      runQuery prompt resumeSessionId started stream ending
  | Between c => control c
  end.

Definition after (w : World) (ops : list Op) : World :=
  foldl (fun w op => snd (exec op w)) w ops.

End WithPlatform.

(** [new ClaudeSession(transport, cwd, plugins)] for a client that
    comes back to a session no engine is running: a new engine over the
    same store. *)
Definition reopen (transport : Transport) (dir : str) (w : World) : World :=
  with_session (new transport dir) w.

(** A world with a new engine on an open transport and an empty
    store. *)
Definition boot (dir : str) : World :=
  {| session := new {| socket := 0; isOpen := true; sendThrows := None |} dir;
     disk := {| Store.history := ∅; Store.sessions := []; Store.todos := ∅ |};
     clock := lit "2026-01-01T00:00:00.000Z";
     fresh := 1;
     effects := [] |}.

End Session.

(** ** The connection handler ([index.ts]): file transfer *)

Module Server.
Import Js Run.
Import Crypto (Platform, bytes, base64, bufferFrom).

(** The functions of the platform's [path] module that the handler
    calls. *)
Class Paths := {
  (** [path.join(a, b)] *)
  join : str -> str -> str;
  (** [path.extname(p)] *)
  extname : str -> str;
  (** [path.basename(p)] and [path.basename(p, ext)] *)
  basename : str -> option str -> str
}.

(** What the handler sends back, of the messages of the protocol. *)
Inductive Reply :=
| FileChunk (fileId : option val) (fileName : str)
    (fileSize chunkIndex totalChunks : nat) (data : str)
| FileComplete (fileId : option val) (fileName : str)
| UploadComplete (uploadId serverPath : str)
| ErrorReply (message : str).

(** An entry of [activeUploads]; the file descriptor is the file
    opened at [filePath]. *)
Record Upload := {
  filePath : str;
  fileName : str;
  receivedChunks : Z;
  totalChunks : Z
}.

(** The handler with what it acts on: the regular files by path,
    whether the transport's [readyState] is [OPEN], the error the
    transport's [send] throws, if it throws (as the virtual socket of
    the relay does on a peer key of the wrong size), and what has been
    sent.  Directories are left out: the paths the cases meet name a
    regular file or nothing, and a file can be created at the path that
    [upload_start] chooses ([.uploads] has been made, and the name has
    no separator).  A file that is written through its descriptor is
    the file at the path it was opened at: no case removes or renames a
    file.  Sizes, indexes and positions are natural numbers. *)
Record Handler := {
  files : gmap str bytes;
  activeUploads : list (str * Upload);
  isOpen : bool;
  sendThrows : option Error;
  sent : list Reply
}.

Definition with_files (v : gmap str bytes) (h : Handler) : Handler :=
  {| files := v; activeUploads := activeUploads h; isOpen := isOpen h;
     sendThrows := sendThrows h; sent := sent h |}.

Definition with_activeUploads (v : list (str * Upload)) (h : Handler) : Handler :=
  {| files := files h; activeUploads := v; isOpen := isOpen h;
     sendThrows := sendThrows h; sent := sent h |}.

Definition with_sent (v : list Reply) (h : Handler) : Handler :=
  {| files := files h; activeUploads := activeUploads h; isOpen := isOpen h;
     sendThrows := sendThrows h; sent := v |}.

Definition CHUNK_SIZE : nat := 512 * 1024.

Section WithPlatform.
Context {platform : Platform} {paths : Paths}.

Local Open Scope run_scope.

(** [sendJson] *)
Definition sendJson (reply : Reply) : M Handler unit :=
  h <- read ;;
  if isOpen h then
    match sendThrows h with
    | Some err => throw err
    | None => modify (with_sent (sent h ++ [reply]))
    end
  else ret tt.

(** [Math.ceil(size / chunk)] *)
Definition chunkCount (size chunk : nat) : nat := (size + chunk - 1) / chunk.

(** [fs.readSync(fd, buf, 0, length, position)] and the part of the
    buffer that was read. *)
Definition readAt (content : bytes) (position length : nat) : bytes :=
  take length (drop position content).

(** The case [request_file] of [handleMessage], with chunks of [chunk]
    bytes. *)
Definition requestFileBy (chunk : nat) (path : str) (fileId : option val)
    : M Handler unit :=
  h <- read ;;
  match (if truthy path then files h !! path else None) with
  | None => sendJson (ErrorReply (lit "File not found: " ++ path))
  | Some content =>
      let size := length content in
      let name := basename path None in
      let total := chunkCount size chunk in
      forEach (seq 0 total) (fun i =>
        sendJson (FileChunk fileId name size i total
                    (base64 (readAt content (i * chunk) chunk)))) ;;
      sendJson (FileComplete fileId name)
  end.

Definition requestFile : str -> option val -> M Handler unit :=
  requestFileBy CHUNK_SIZE.

(** The name tried after [counter - 1] names were taken. *)
Definition numbered (uploadDir name : str) (counter : N) : str :=
  let ext := extname name in
  let base := basename name (Some ext) in
  join uploadDir (base ++ lit " (" ++ ofN counter ++ lit ")" ++ ext).

(** The loop [while (fs.existsSync(filePath))] of the case
    [upload_start], followed for at most [fuel] iterations: the path
    it ends with, [None] when it has not ended by then. *)
Fixpoint freePath (fuel : nat) (taken : str -> bool) (uploadDir name : str)
    (path : str) (counter : N) : option str :=
  if taken path then
    match fuel with
    | O => None
    | S fuel' =>
        freePath fuel' taken uploadDir name (numbered uploadDir name counter)
          (counter + 1)
    end
  else Some path.

(** The case [upload_start], with its loop followed for at most [fuel]
    iterations; [cwd] is [activeSession?.getCwd() || DEFAULT_CWD]. *)
Definition uploadStart (fuel : nat) (cwd uploadId name : str) (total : Z)
    (h : Handler) : option Handler :=
  let uploadDir := join cwd (lit ".uploads") in
  path ← freePath fuel (fun p => bool_decide (is_Some (files h !! p)))
           uploadDir name (join uploadDir name) 1;
  Some (with_activeUploads
          (mapSet uploadId {| filePath := path; fileName := name;
                              receivedChunks := 0; totalChunks := total |}
                  (activeUploads h))
          (with_files (<[path := []]> (files h)) h)).

(** [fs.writeSync(fd, bytes, 0, bytes.length, position)]: nothing is
    written for no bytes; a position past the end leaves a gap of zero
    bytes. *)
Definition writeAt (content : bytes) (position : nat) (data : bytes) : bytes :=
  match data with
  | [] => content
  | _ :: _ =>
      take position (content ++ replicate (position - length content) 0%N)
      ++ data ++ drop (position + length data) content
  end.

(** The case [upload_chunk], with chunks of [chunk] bytes. *)
Definition uploadChunkBy (chunk : nat) (uploadId : str) (chunkIndex : nat)
    (data : option val) : M Handler unit :=
  h <- read ;;
  match mapGet uploadId (activeUploads h) with
  | None => sendJson (ErrorReply (lit "Unknown upload: " ++ uploadId))
  | Some upload =>
      received <- (fun h => (bufferFrom data, h)) ;;
      modify (fun h =>
        with_files (<[filePath upload :=
                        writeAt (default [] (files h !! filePath upload))
                                (chunkIndex * chunk) received]> (files h)) h) ;;
      let upload' := {| filePath := filePath upload; fileName := fileName upload;
                        receivedChunks := receivedChunks upload + 1;
                        totalChunks := totalChunks upload |} in
      modify (fun h => with_activeUploads (mapSet uploadId upload' (activeUploads h)) h) ;;
      if (totalChunks upload' <=? receivedChunks upload')%Z then
        modify (fun h => with_activeUploads (mapDelete uploadId (activeUploads h)) h) ;;
        sendJson (UploadComplete uploadId (filePath upload'))
      else ret tt
  end.

Definition uploadChunk : str -> nat -> option val -> M Handler unit :=
  uploadChunkBy CHUNK_SIZE.

End WithPlatform.

(** *** The debounced broadcast

    [broadcastPending], the callbacks that [setTimeout] holds and have
    not run, and how often such a callback has called
    [broadcastSessionList]. *)
Record Broadcaster := {
  broadcastPending : bool;
  timers : nat;
  broadcasts : nat
}.

Definition idle : Broadcaster :=
  {| broadcastPending := false; timers := 0; broadcasts := 0 |}.

(** [scheduleBroadcast] *)
Definition scheduleBroadcast (b : Broadcaster) : Broadcaster :=
  if broadcastPending b then b
  else {| broadcastPending := true; timers := S (timers b);
          broadcasts := broadcasts b |}.

(** The callback that [scheduleBroadcast] hands to [setTimeout]. *)
Definition onTimeout (b : Broadcaster) : Broadcaster :=
  {| broadcastPending := false; timers := pred (timers b);
     broadcasts := S (broadcasts b) |}.

(** What happens to the broadcaster: a call of [scheduleBroadcast], or
    a timeout, which runs a callback when one is held. *)
Inductive Tick := Schedule | Timeout.

Definition tick (b : Broadcaster) (t : Tick) : Broadcaster :=
  match t with
  | Schedule => scheduleBroadcast b
  | Timeout => match timers b with O => b | S _ => onTimeout b end
  end.

Definition ticks (ts : list Tick) (b : Broadcaster) : Broadcaster :=
  foldl tick b ts.

End Server.

(** * Properties *)

(** ** A platform to run the engine on

    A miniature [box] that prefixes the message with the two keys,
    opens only under the same pair and throws on an empty key, as
    [nacl.box] and [nacl.box.open] do on a key of the wrong size;
    base64 as the identity, a JSON for objects of string fields, and
    matchers that find nothing.  It serves to run the definitions on
    concrete inputs. *)

Module Toy.
Import Js Crypto.

Definition sealed (pk sk : bytes) : bytes :=
  N.of_nat (length pk) :: N.of_nat (length sk) :: pk ++ sk.

(** What the two sides of the miniature box have to agree on. *)
Definition shared (pk sk : bytes) : bytes := sealed pk sk.

(** The error for a key of the wrong size. *)
Definition badSize (pk sk : bytes) : option Error :=
  if bool_decide (pk = []) then Some (error "bad public key size")
  else if bool_decide (sk = []) then Some (error "bad secret key size")
  else None.

Definition box (m nonce pk sk : bytes) : outcome bytes :=
  match badSize pk sk with
  | Some e => Throw e
  | None => Ok (sealed pk sk ++ m)
  end.

Definition box_open (box nonce pk sk : bytes) : outcome (option bytes) :=
  match badSize pk sk with
  | Some e => Throw e
  | None =>
      if bool_decide (take (length (sealed pk sk)) box = sealed pk sk)
      then Ok (Some (drop (length (sealed pk sk)) box))
      else Ok None
  end.

Definition bufferFrom (v : option val) : outcome bytes :=
  match v with
  | Some (Str s) => Ok s
  | _ => Throw (error "The first argument must be of type string")
  end.

(** JSON text of an object whose fields are strings without quotes
    or escapes, and its parser. *)
Definition quote : N := 34.

Definition quoted (s : str) : str := quote :: s ++ [quote].

Fixpoint members (fields : list (str * str)) : str :=
  match fields with
  | [] => []
  | [(k, v)] => quoted k ++ lit ":" ++ quoted v
  | (k, v) :: rest => quoted k ++ lit ":" ++ quoted v ++ lit "," ++ members rest
  end.

Definition object (fields : list (str * str)) : str :=
  lit "{" ++ members fields ++ lit "}".

(** The text up to the next quote, and the text after it. *)
Fixpoint untilQuote (s : str) : option (str * str) :=
  match s with
  | [] => None
  | u :: s' =>
      if (u =? quote)%N then Some ([], s')
      else (fun p => (u :: fst p, snd p)) <$> untilQuote s'
  end.

Fixpoint parseMembers (fuel : nat) (s : str) : option (list (str * val)) :=
  match fuel with
  | O => None
  | S fuel' =>
      match s with
      | 34%N :: s1 =>
          '(k, s2) ← untilQuote s1;
          match s2 with
          | 58%N :: 34%N :: s3 =>
              '(v, s4) ← untilQuote s3;
              match s4 with
              | [125%N] => Some [(k, Str v)]
              | 44%N :: s5 => cons (k, Str v) <$> parseMembers fuel' s5
              | _ => None
              end
          | _ => None
          end
      | _ => None
      end
  end.

Definition parse (s : str) : outcome val :=
  match s with
  | [123%N; 125%N] => Ok (Obj [])
  | 123%N :: s' =>
      match parseMembers (length s') s' with
      | Some fields => Ok (Obj fields)
      | None => Throw (error "Unexpected token")
      end
  | _ => Throw (error "Unexpected token")
  end.

Fixpoint stringFields (fields : list (str * val)) : option (list (str * str)) :=
  match fields with
  | [] => Some []
  | (k, Str v) :: rest => cons (k, v) <$> stringFields rest
  | _ => None
  end.

Definition stringify (v : option val) : option str :=
  match v with
  | Some (Obj fields) => object <$> stringFields fields
  | _ => None
  end.

(** A matcher for a tool result that is the line [agentId: <id>] and
    nothing else. *)
Definition agentIdOf (output : str) : option str :=
  if bool_decide (take 9 output = lit "agentId: ") then Some (drop 9 output)
  else None.

Definition platform : Platform :=
  {| nacl_box := box;
     nacl_box_open := box_open;
     base64 := fun b => b;
     Crypto.bufferFrom := bufferFrom;
     jsonParse := parse;
     jsonStringify := stringify;
     matchBackground := fun _ => None;
     matchAgentId := fun _ => None |}.

(** The same with the matcher for agent ids. *)
Definition withAgentIds : Platform :=
  {| nacl_box := box;
     nacl_box_open := box_open;
     base64 := fun b => b;
     Crypto.bufferFrom := bufferFrom;
     jsonParse := parse;
     jsonStringify := stringify;
     matchBackground := fun _ => None;
     matchAgentId := agentIdOf |}.

End Toy.



(** ** Relations that every step of a call respects *)

Module RunFacts.
Import Js Run.

Section Steady.
Context {S : Type} (R : S -> S -> Prop) `{!PreOrder R}.

(** The state a call ends in, by value or by throw, is related to the
    state it started in. *)
Definition steady {A} (m : M S A) : Prop :=
  forall s, R s (snd (m s)).

Lemma steady_ret {A} (a : A) : steady (ret a).
Proof. intros s. reflexivity. Qed.

Lemma steady_throw {A} e : steady (@throw S A e).
Proof. intros s. reflexivity. Qed.

Lemma steady_read : steady read.
Proof. intros s. reflexivity. Qed.

Lemma steady_modify f : (forall s, R s (f s)) -> steady (modify f).
Proof. intros H s. apply H. Qed.

Lemma steady_bind {A B} (m : M S A) (k : A -> M S B) :
  steady m -> (forall a, steady (k a)) -> steady (bind m k).
Proof.
  intros Hm Hk s. unfold bind. specialize (Hm s).
  destruct (m s) as [[a|e] s']; simpl in *; [|exact Hm].
  etransitivity; [exact Hm | apply Hk].
Qed.

Lemma steady_tryCatch {A} (body : M S A) handler :
  steady body -> (forall e, steady (handler e)) -> steady (tryCatch body handler).
Proof.
  intros Hb Hh s. unfold tryCatch. specialize (Hb s).
  destruct (body s) as [[a|e] s']; simpl in *; [exact Hb|].
  etransitivity; [exact Hb | apply Hh].
Qed.

Lemma steady_finally {A} (body : M S A) fin :
  steady body -> steady fin -> steady (finally body fin).
Proof.
  intros Hb Hf s. unfold finally. specialize (Hb s).
  destruct (body s) as [r s']. specialize (Hf s').
  destruct (fin s') as [[u|e] s'']; simpl in *; etransitivity; eauto.
Qed.

Lemma steady_forEach {A} (l : list A) f :
  (forall x, steady (f x)) -> steady (forEach l f).
Proof.
  intros Hf. induction l as [|x l IH]; simpl.
  - apply steady_ret.
  - apply steady_bind; [apply Hf | intros _; exact IH].
Qed.

Lemma steady_when c (m : M S unit) : steady m -> steady (when c m).
Proof. intros H. destruct c; [exact H | apply steady_ret]. Qed.

Lemma steady_const {A} (o : outcome A) : steady (fun s => (o, s)).
Proof. intros s. reflexivity. Qed.

End Steady.

(** A property of the state that a call keeps, as a relation. *)
Definition keeping {S} (P : S -> Prop) : S -> S -> Prop :=
  fun s s' => P s -> P s'.

#[global] Instance keeping_preorder {S} (P : S -> Prop) : PreOrder (keeping P).
Proof. split; unfold keeping; [intros s; auto | intros a b c; auto]. Qed.

End RunFacts.



(** ** The startup cleanup of history files *)

Module StoreFacts.
Import Js Store.

(** Every [tool_call] entry that has a [toolUseId] (a non-empty one: an
    empty id is falsy and counts as none) has a [tool_result] entry
    with the same id. *)
Definition callsAnswered (l : list HistoryEntry) : Prop :=
  forall e tid, e ∈ l -> role e = lit "tool_call" -> toolUseId e = Some tid ->
    truthy tid = true ->
    exists r, r ∈ l /\ role r = lit "tool_result" /\ toolUseId r = Some tid.

(** The results the loop pushes, in order. *)
Definition synthesized (now : str) (entries : list HistoryEntry) : list HistoryEntry :=
  (fun tid => emptyResult tid now) <$> omap (pendingCall (resultIdsOf entries)) entries.

Lemma cleanupLoop_spec R now entries i modified :
  cleanupLoop R now entries i modified =
    (entries ++ ((fun tid => emptyResult tid now) <$> omap (pendingCall R) (drop i entries)),
     modified || bool_decide (omap (pendingCall R) (drop i entries) <> [])).
Proof.
  funelim (cleanupLoop R now entries i modified).
  - pose proof (proj1 (lookup_ge_None _ _) Hi) as Hge.
    rewrite drop_ge by lia. simpl.
    rewrite app_nil_r, orb_false_r. reflexivity.
  - match goal with IH : _ = (_ ++ _, _) |- _ => rewrite IH end.
    pose proof (lookup_lt_Some _ _ _ Hi) as Hlt.
    rewrite (drop_S _ _ _ Hi). simpl. rewrite Hp. simpl.
    rewrite drop_app_le by lia. rewrite omap_app. simpl.
    rewrite app_nil_r, <- app_assoc. simpl.
    f_equal. rewrite orb_true_r. reflexivity.
  - match goal with IH : _ = (_ ++ _, _) |- _ => rewrite IH end.
    rewrite (drop_S _ _ _ Hi). simpl. rewrite Hp. reflexivity.
Qed.

Lemma cleanupEntries_spec now entries :
  cleanupEntries now entries =
    if bool_decide (synthesized now entries = [])
    then None else Some (entries ++ synthesized now entries).
Proof.
  unfold cleanupEntries, synthesized.
  rewrite cleanupLoop_spec. rewrite drop_0. simpl.
  destruct (omap (pendingCall (resultIdsOf entries)) entries); reflexivity.
Qed.

Lemma pendingCall_Some R e tid :
  pendingCall R e = Some tid <->
  role e = lit "tool_call" /\ toolUseId e = Some tid /\ truthy tid = true /\ tid ∉ R.
Proof.
  unfold pendingCall. split.
  - case_bool_decide as Hr; [|discriminate].
    destruct (toolUseId e) as [t|]; [|discriminate].
    destruct (truthy t) eqn:Ht; simpl; [|discriminate].
    case_bool_decide as Hin; simpl; [discriminate|].
    intros [= ->]. auto.
  - intros (Hr & Hid & Ht & Hin).
    rewrite bool_decide_eq_true_2 by exact Hr.
    rewrite Hid, Ht. simpl.
    rewrite bool_decide_eq_false_2 by exact Hin. reflexivity.
Qed.

Lemma elem_of_resultIdsOf entries tid :
  tid ∈ resultIdsOf entries <->
  exists r, r ∈ entries /\ role r = lit "tool_result" /\ toolUseId r = Some tid
            /\ truthy tid = true.
Proof.
  unfold resultIdsOf. rewrite elem_of_list_to_set, list_elem_of_omap.
  split.
  - intros (r & Hin & Hid). apply list_elem_of_filter in Hin as [Hres Hin].
    unfold isResultWithId in Hres. apply andb_true_iff in Hres as [Hrole Htr].
    apply bool_decide_eq_true in Hrole. rewrite Hid in Htr. eauto 6.
  - intros (r & Hin & Hrole & Hid & Htr). exists r. split; [|done].
    apply list_elem_of_filter. split; [|done].
    unfold isResultWithId. rewrite Hid. simpl. rewrite Htr, andb_true_r.
    by apply bool_decide_eq_true.
Qed.

Lemma synthesized_results now entries e :
  e ∈ synthesized now entries ->
  exists tid, e = emptyResult tid now /\ truthy tid = true
    /\ exists call, call ∈ entries /\ role call = lit "tool_call"
                    /\ toolUseId call = Some tid.
Proof.
  unfold synthesized. intros (tid & -> & Hin)%list_elem_of_fmap.
  apply list_elem_of_omap in Hin as (call & Hcall & Hp).
  apply pendingCall_Some in Hp as (? & ? & ? & ?). eauto 8.
Qed.

Lemma callsAnswered_after now entries :
  callsAnswered (entries ++ synthesized now entries).
Proof.
  intros e tid Hin Hrole Hid Htr.
  apply elem_of_app in Hin as [Hin | Hin].
  - destruct (decide (tid ∈ resultIdsOf entries)) as [Hres | Hres].
    + apply elem_of_resultIdsOf in Hres as (r & ? & ? & ? & ?).
      exists r. rewrite elem_of_app. auto.
    + exists (emptyResult tid now). split; [|done].
      apply elem_of_app. right. unfold synthesized.
      apply list_elem_of_fmap. exists tid. split; [done|].
      apply list_elem_of_omap. exists e. split; [done|].
      by apply pendingCall_Some.
  - apply synthesized_results in Hin as (t & -> & _). discriminate Hrole.
Qed.

Lemma synthesized_nil now entries :
  callsAnswered entries -> synthesized now entries = [].
Proof.
  intros Hans. unfold synthesized.
  destruct (omap _ entries) as [|tid l] eqn:Ho; [done|].
  assert (tid ∈ omap (pendingCall (resultIdsOf entries)) entries) as Hin
    by (rewrite Ho; left).
  apply list_elem_of_omap in Hin as (call & Hcall & Hp).
  apply pendingCall_Some in Hp as (Hrole & Hid & Htr & Hnot).
  destruct (Hans call tid Hcall Hrole Hid Htr) as (r & ? & ? & ?).
  exfalso. apply Hnot. apply elem_of_resultIdsOf. eauto 6.
Qed.

(** C10. After [cleanupPendingToolCalls] the entries of a history file
    are the old ones, unchanged and in their order, followed by the
    empty results pushed for it; every tool call with a [toolUseId] then
    has a result with the same id; and a file in which this already
    held is not written. *)
Theorem cleanup_closes_pending_calls (now : str) (dir : HistoryDir)
    (name : str) (entries : list HistoryEntry) :
  dir !! name = Some (Entries entries) ->
  endsWith name (lit ".json") = true ->
  exists added,
    cleanupPendingToolCalls now dir !! name = Some (Entries (entries ++ added))
    /\ Forall (fun e => exists tid, e = emptyResult tid now) added
    /\ callsAnswered (entries ++ added)
    /\ (callsAnswered entries ->
        added = [] /\ cleanupFile now (Entries entries) = None).
Proof.
  intros Hfile Hjson. exists (synthesized now entries).
  split; [|split; [|split]].
  - unfold cleanupPendingToolCalls. rewrite map_lookup_imap, Hfile. simpl.
    rewrite Hjson. simpl. rewrite cleanupEntries_spec.
    case_bool_decide as Hnil; simpl; [|done].
    by rewrite Hnil, app_nil_r.
  - apply Forall_forall. intros e He.
    apply synthesized_results in He as (tid & -> & _). eauto.
  - apply callsAnswered_after.
  - intros Hans. pose proof (synthesized_nil now entries Hans) as Hnil.
    split; [done|]. simpl. rewrite cleanupEntries_spec, Hnil. reflexivity.
Qed.

(** A history file with one call that never got its result: the
    cleanup pushes the empty result for it. *)
Lemma cleanup_closes_pending_calls_witness :
  let entries := [toolCallEntry (lit "Bash") None (lit "toolu_1") (lit "t0")] in
  let dir : HistoryDir := {[ lit "s1.json" := Entries entries ]} in
  dir !! lit "s1.json" = Some (Entries entries)
  /\ endsWith (lit "s1.json") (lit ".json") = true
  /\ exists added,
       cleanupPendingToolCalls (lit "t1") dir !! lit "s1.json"
         = Some (Entries (entries ++ added))
       /\ Forall (fun e => exists tid, e = emptyResult tid (lit "t1")) added
       /\ callsAnswered (entries ++ added)
       /\ (callsAnswered entries ->
           added = [] /\ cleanupFile (lit "t1") (Entries entries) = None).
Proof.
  intros entries dir.
  assert (dir !! lit "s1.json" = Some (Entries entries)) as Hfile
    by apply lookup_singleton_eq.
  assert (endsWith (lit "s1.json") (lit ".json") = true) as Hjson
    by reflexivity.
  split; [exact Hfile|]. split; [exact Hjson|].
  exact (cleanup_closes_pending_calls (lit "t1") dir (lit "s1.json") entries Hfile Hjson).
Defined.

(** *** Histories only grow *)

(** An entry is as it was, or has been marked answered. *)
Definition marked (e e' : HistoryEntry) : Prop :=
  e' = e \/ e' = setAnswered e.

(** The entries of [l] are all still there, in their order, at most
    marked answered, and possibly followed by more. *)
Definition grown (l l' : list HistoryEntry) : Prop :=
  exists base more, l' = base ++ more /\ Forall2 marked l base.

(** No history file loses an entry. *)
Definition keeps (h h' : HistoryDir) : Prop :=
  forall f l, h !! f = Some (Entries l) ->
    exists l', h' !! f = Some (Entries l') /\ grown l l'.

Lemma setAnswered_idemp e : setAnswered (setAnswered e) = setAnswered e.
Proof. reflexivity. Qed.

#[global] Instance marked_preorder : PreOrder marked.
Proof.
  split.
  - intros e. by left.
  - intros a b c [-> | ->] [-> | ->]; unfold marked; auto.
Qed.

#[global] Instance grown_preorder : PreOrder grown.
Proof.
  split.
  - intros l. exists l, []. split; [by rewrite app_nil_r|].
    reflexivity.
  - intros l1 l2 l3 (b & m & -> & H12) (b' & m' & -> & H23).
    apply Forall2_app_inv_l in H23 as (b1 & b2 & Hb1 & Hb2 & ->).
    exists b1, (b2 ++ m'). split; [by rewrite app_assoc|].
    etransitivity; eassumption.
Qed.

#[global] Instance keeps_preorder : PreOrder keeps.
Proof.
  split.
  - intros h f l Hf. exists l. split; [done | reflexivity].
  - intros h1 h2 h3 H12 H23 f l Hf.
    destruct (H12 f l Hf) as (l2 & Hf2 & Hg2).
    destruct (H23 f l2 Hf2) as (l3 & Hf3 & Hg3).
    exists l3. split; [done | etransitivity; eassumption].
Qed.

Lemma grown_app l more : grown l (l ++ more).
Proof. exists l, more. split; [done | reflexivity]. Qed.

Lemma keeps_appendHistory sid e d :
  keeps (history d) (history (snd (appendHistory sid e d))).
Proof.
  unfold appendHistory.
  destruct (history d !! historyFile sid) as [[entries|]|] eqn:Hfile; simpl;
    try reflexivity.
  - intros f l Hf. destruct (decide (f = historyFile sid)) as [->|Hne].
    + rewrite Hfile in Hf. injection Hf as <-.
      rewrite lookup_insert_eq. eexists. split; [done | apply grown_app].
    + rewrite lookup_insert_ne by done. exists l. split; [done | reflexivity].
  - intros f l Hf. destruct (decide (f = historyFile sid)) as [->|Hne].
    + rewrite Hfile in Hf. discriminate.
    + rewrite lookup_insert_ne by done. exists l. split; [done | reflexivity].
Qed.

Lemma updateFirst_marked p l l' :
  updateFirst p setAnswered l = Some l' -> Forall2 marked l l'.
Proof.
  revert l'. induction l as [|e l IH]; intros l'; simpl; [discriminate|].
  destruct (p e).
  - intros [= <-]. constructor; [by right|].
    reflexivity.
  - destruct (updateFirst p setAnswered l) as [l2|]; simpl; [|discriminate].
    intros [= <-]. constructor; [by left | by apply IH].
Qed.

Lemma keeps_markQuestionAnswered sid qid d :
  keeps (history d) (history (markQuestionAnswered sid qid d)).
Proof.
  unfold markQuestionAnswered.
  destruct (history d !! historyFile sid) as [[entries|]|] eqn:Hfile;
    try reflexivity.
  destruct (updateFirst _ _ entries) as [entries'|] eqn:Hupd; [|reflexivity].
  simpl. intros f l Hf. destruct (decide (f = historyFile sid)) as [->|Hne].
  - rewrite Hfile in Hf. injection Hf as <-. rewrite lookup_insert_eq.
    eexists. split; [done|]. exists entries', []. rewrite app_nil_r.
    split; [done|]. eapply updateFirst_marked, Hupd.
  - rewrite lookup_insert_ne by done. exists l. split; [done | reflexivity].
Qed.

(** The operations on the session list and on the todo lists leave the
    history directory alone. *)
Lemma history_saveSession session d : history (saveSession session d) = history d.
Proof. unfold saveSession. destruct (updateFirst _ _ _); reflexivity. Qed.

Lemma history_remapSession now oldId newId d :
  history (remapSession now oldId newId d) = history d.
Proof. unfold remapSession. destruct (updateFirst _ _ _); reflexivity. Qed.

Lemma history_updateSessionActivity now sid preview usage d :
  history (updateSessionActivity now sid preview usage d) = history d.
Proof. unfold updateSessionActivity. destruct (updateFirst _ _ _); reflexivity. Qed.

Lemma history_saveTodos sid l d : history (saveTodos sid l d) = history d.
Proof. reflexivity. Qed.

Create HintDb store discriminated.
#[export] Hint Resolve history_saveSession history_remapSession
  history_updateSessionActivity history_saveTodos : store.

End StoreFacts.

(** ** The session engine *)

Module SessionFacts.
Import Js Run RunFacts StoreFacts Session.
Import Crypto (Platform).

Ltac head_of t :=
  lazymatch t with
  | ?f _ => head_of f
  | _ => t
  end.

(** One step of the walk through a call of the engine: the call is
    taken apart down to its assignments, its effects, its accesses to
    the store and its loops. *)
Ltac steady_step :=
  lazymatch goal with
  | |- steady _ (bind _ _) => apply steady_bind; [exact _| |intros ?]
  | |- steady _ (ret _) => apply steady_ret; exact _
  | |- steady _ (throw _) => apply steady_throw; exact _
  | |- steady _ read => apply steady_read; exact _
  | |- steady _ (tryCatch _ _) => apply steady_tryCatch; [exact _| |intros ?]
  | |- steady _ (finally _ _) => apply steady_finally; [exact _| |]
  | |- steady _ (forEach _ _) => apply steady_forEach; [exact _|intros ?]
  | |- steady _ (when _ _) => apply steady_when; [exact _|]
  | |- steady _ (lift _) => apply steady_const; exact _
  | |- steady _ (modify _) => fail
  | |- steady _ (onDisk _) => fail
  | |- steady _ (update _) => fail
  | |- steady _ (act _) => fail
  | |- steady _ (writeDisk _) => fail
  | |- steady _ (chunkLoop _ _ _ _) => fail
  | |- steady _ (loop _ _ _ _ _) => fail
  | |- steady _ (meanwhile _) => fail
  | |- steady _ (match ?x with _ => _ end) => destruct x
  | |- steady _ (let _ := _ in _) => cbv zeta
  | |- steady _ ?m => let h := head_of m in unfold h
  end.

Ltac steady_walk := repeat steady_step.

Section WithPlatform.
Context {platform : Platform}.

(** The frames that reach the wire when [msgs] are handed to [send] in
    this order and the transport takes them: all of them on an open
    transport, none otherwise. *)
Definition frames (t : Transport) (msgs : list ServerMessage) : list Effect :=
  if isOpen t then WsSend (socket t) <$> msgs else [].

(** The error a call of [send] ends with on this transport: none when
    the transport is not open, as its [send] is not called then, or
    when its [send] returns. *)
Definition refusal (t : Transport) : option Error :=
  if isOpen t then sendThrows t else None.

(** [this.sessionId || ""] in a given world. *)
Definition sidOf (w : World) : str := or_else (sessionId (session w)) [].

(** A world that differs by the frames sent. *)
Definition sending (msgs : list ServerMessage) (w : World) : World :=
  with_effects (effects w ++ frames (ws (session w)) msgs) w.

Lemma frames_app t a b : frames t (a ++ b) = frames t a ++ frames t b.
Proof. unfold frames. destruct (isOpen t); [apply fmap_app | reflexivity]. Qed.

Lemma sending_nil w : sending [] w = w.
Proof.
  unfold sending, frames. destruct w as [s d c f e]. unfold with_effects. simpl.
  destruct (isOpen (ws s)); simpl; by rewrite app_nil_r.
Qed.

Lemma sending_sending a b w : sending b (sending a w) = sending (a ++ b) w.
Proof.
  unfold sending. rewrite frames_app, app_assoc. reflexivity.
Qed.

Lemma refusal_sending msgs w :
  refusal (ws (session (sending msgs w))) = refusal (ws (session w)).
Proof. reflexivity. Qed.

Lemma send_cases msg w :
  send msg w = match refusal (ws (session w)) with
               | Some err => (Throw err, w)
               | None => (Ok tt, sending [msg] w)
               end.
Proof.
  unfold send, refusal, sending, frames, this, bind, read, ret, act, modify, throw.
  simpl. destruct (isOpen (ws (session w))); simpl.
  - destruct (sendThrows (ws (session w))); reflexivity.
  - rewrite app_nil_r. destruct w; reflexivity.
Qed.

Lemma send_spec msg w :
  refusal (ws (session w)) = None -> send msg w = (Ok tt, sending [msg] w).
Proof. intros H. by rewrite send_cases, H. Qed.

Lemma send_refused msg w err :
  refusal (ws (session w)) = Some err -> send msg w = (Throw err, w).
Proof. intros H. by rewrite send_cases, H. Qed.

(** Handing [msgs] to [send] in this order. *)
Definition handing (msgs : list ServerMessage) : M World unit :=
  forEach msgs send.

Lemma handing_spec msgs w :
  refusal (ws (session w)) = None -> handing msgs w = (Ok tt, sending msgs w).
Proof.
  unfold handing. revert w. induction msgs as [|m msgs IH]; intros w Hw; simpl.
  - by rewrite sending_nil.
  - unfold bind. rewrite send_spec by exact Hw.
    rewrite IH by exact Hw. by rewrite sending_sending.
Qed.

Lemma handing_refused m msgs w err :
  refusal (ws (session w)) = Some err -> handing (m :: msgs) w = (Throw err, w).
Proof.
  intros Hw. unfold handing. simpl. unfold bind.
  by rewrite (send_refused _ _ err Hw).
Qed.

(** Whether the transport takes them or not, what is handed to [send]
    changes nothing but the frames written. *)
Lemma handing_sends msgs w : exists sent, snd (handing msgs w) = sending sent w.
Proof.
  destruct (refusal (ws (session w))) as [err|] eqn:Hw.
  - exists []. rewrite sending_nil. destruct msgs as [|m msgs]; [reflexivity|].
    by rewrite (handing_refused _ _ _ _ Hw).
  - exists msgs. by rewrite handing_spec.
Qed.

Lemma send_sends msg w : exists sent, snd (send msg w) = sending sent w.
Proof.
  rewrite send_cases. destruct (refusal _).
  - exists []. by rewrite sending_nil.
  - by exists [msg].
Qed.

Lemma sid_spec w : sid w = (Ok (sidOf w), w).
Proof. reflexivity. Qed.

(** The chunk messages for the pieces [chunks], numbered from [k]. *)
Definition chunkMsgs (tid sessionId : str) (k : nat) (chunks : list str)
    : list ServerMessage :=
  imap (fun j c => MsgToolResultChunk tid (k + j) c
                     (bool_decide (S j = length chunks)) sessionId) chunks.

Lemma chunkMsgs_cons tid sessionId k c chunks :
  chunkMsgs tid sessionId k (c :: chunks) =
    MsgToolResultChunk tid k c (bool_decide (chunks = [])) sessionId
    :: chunkMsgs tid sessionId (S k) chunks.
Proof.
  unfold chunkMsgs. simpl. f_equal.
  - rewrite Nat.add_0_r. f_equal.
    apply bool_decide_ext. destruct chunks; simpl; split; intros; (done || lia).
  - apply imap_ext. intros j x _. simpl.
    replace (k + S j) with (S k + j) by lia. f_equal.
    apply bool_decide_ext. lia.
Qed.

Lemma chunkLoop_spec output tid i k :
  forall w, exists chunks,
    chunkLoop output tid i k w = handing (chunkMsgs tid (sidOf w) k chunks) w
    /\ concat chunks = drop i output
    /\ (chunks = [] <-> length output <= i)
    /\ Forall (fun c => 0 < length c <= CHUNK_SIZE) chunks.
Proof.
  funelim (chunkLoop output tid i k); intros w.
  - match goal with IH : _ -> _ -> _ -> forall w, exists _, _ |- _ =>
      destruct (IH [] tt w (sending
        [MsgToolResultChunk toolUseId chunkIdx (slice output i (i + CHUNK_SIZE))
           (bool_decide (length output <= i + CHUNK_SIZE)) (sidOf w)] w))
        as (chunks & Hrun & Hcat & Hnil & Hlen)
    end.
    exists (slice output i (i + CHUNK_SIZE) :: chunks).
    split; [|split; [|split]].
    + unfold bind at 1. rewrite sid_spec.
      rewrite chunkMsgs_cons. unfold handing. simpl. fold handing.
      replace (bool_decide (chunks = [])) with
        (bool_decide (length output <= i + CHUNK_SIZE))
        by (apply bool_decide_ext; symmetry; exact Hnil).
      unfold bind. rewrite send_cases.
      destruct (refusal (ws (session w))); [reflexivity|]. exact Hrun.
    + simpl. rewrite Hcat. unfold slice.
      replace (i + CHUNK_SIZE - i) with CHUNK_SIZE by lia.
      rewrite <- drop_drop. apply take_drop.
    + split; [discriminate | lia].
    + constructor; [|exact Hlen].
      unfold slice. rewrite length_take, length_drop. unfold CHUNK_SIZE. lia.
  - exists []. split; [|split; [|split]].
    + reflexivity.
    + rewrite drop_ge by lia. reflexivity.
    + split; [lia | done].
    + constructor.
Qed.

Lemma chunkLoop_sends output tid i k w :
  exists sent, snd (chunkLoop output tid i k w) = sending sent w.
Proof.
  destruct (chunkLoop_spec output tid i k w) as (chunks & -> & _).
  apply handing_sends.
Qed.


(** *** Relations the whole engine respects *)

Section Engine.
Context (R : World -> World -> Prop) `{!PreOrder R}.

Lemma steady_chunkLoop output tid i k :
  (forall w es, R w (with_effects es w)) -> steady R (chunkLoop output tid i k).
Proof.
  intros H w. destruct (chunkLoop_sends output tid i k w) as [sent ->]. apply H.
Qed.

Lemma steady_meanwhile c : steady R (control c) -> steady R (meanwhile c).
Proof. intros H w. apply H. Qed.

Lemma steady_loop prompt resume stream ending :
  (forall m l, steady R (onMessage prompt resume m l)) ->
  (forall c, steady R (control c)) ->
  forall l, steady R (loop prompt resume stream ending l).
Proof.
  intros Hm Hc. induction stream as [|[m|c] rest IH]; intros l; simpl.
  - destruct ending; [apply steady_throw | apply steady_ret]; exact _.
  - apply steady_bind; [exact _ | apply Hm | intros l'; apply IH].
  - apply steady_bind; [exact _ | apply steady_meanwhile, Hc | intros _; apply IH].
Qed.

(** What is left to show of the engine once its assignments, effects
    and store accesses are known to respect [R]. *)
Lemma steady_runQuery prompt resume started stream ending :
  (forall w es, R w (with_effects es w)) ->
  (forall w n, R w (with_fresh n w)) ->
  (forall f, (forall s, _stoppedTasks (f s) = _stoppedTasks s
                        /\ pendingQuestions (f s) = pendingQuestions s
                        /\ questionCounter (f s) = questionCounter s) ->
             steady R (update f)) ->
  (forall sid e, steady R (onDisk (Store.appendHistory sid e))) ->
  (forall f, (forall d, Store.history (f d) = Store.history d) ->
             steady R (writeDisk f)) ->
  (forall c, steady R (control c)) ->
  steady R (runQuery prompt resume started stream ending).
Proof.
  intros Heff Hfresh Hupd Happ Hdisk Hctl.
  unfold runQuery, tryBlock. steady_walk;
    lazymatch goal with
    | |- steady R (loop _ _ _ _ _) =>
        apply steady_loop; [|exact Hctl]; intros m l; steady_walk
    | _ => idtac
    end;
    lazymatch goal with
    | |- steady R (chunkLoop _ _ _ _) => apply steady_chunkLoop, Heff
    | |- steady R (onDisk (Store.appendHistory _ _)) => apply Happ
    | |- steady R (act _) => intros w; apply Heff
    | |- steady R (modify (with_fresh _)) => intros w; apply Hfresh
    | |- steady R (update _) => apply Hupd; intros []; simpl; auto
    | |- steady R (writeDisk _) => apply Hdisk; intros d; auto with store
    | _ => idtac
    end.
Qed.

Lemma steady_exec op :
  (forall p r st tk en, steady R (runQuery p r st tk en)) ->
  (forall c, steady R (control c)) ->
  steady R (exec op).
Proof. intros Hq Hc. destruct op; simpl; auto. Qed.

Lemma steady_after ops :
  (forall op, steady R (exec op)) -> forall w, R w (after w ops).
Proof.
  intros H. unfold after. induction ops as [|op ops IH]; intros w; simpl.
  - reflexivity.
  - etransitivity; [apply (H op w) | apply IH].
Qed.

End Engine.

(** *** Stop requests *)

(** Ids stay in [_stoppedTasks] once they are in. *)
Definition stoppedGrows (w w' : World) : Prop :=
  _stoppedTasks (session w) ⊆ _stoppedTasks (session w').

#[local] Instance stoppedGrows_preorder : PreOrder stoppedGrows.
Proof.
  split; unfold stoppedGrows; [intros w; done | intros a b c ??; set_solver].
Qed.

Ltac stopped_base :=
  lazymatch goal with
  | |- steady stoppedGrows (modify _) =>
      apply steady_modify; intros ?; unfold stoppedGrows; simpl;
      first [done | set_solver]
  | |- steady stoppedGrows (update _) =>
      intros ?; unfold stoppedGrows; simpl; first [done | set_solver]
  | |- steady stoppedGrows (act _) => intros ?; unfold stoppedGrows; done
  | |- steady stoppedGrows (writeDisk _) => intros ?; unfold stoppedGrows; done
  | |- steady stoppedGrows (onDisk _) =>
      intros ?; unfold stoppedGrows, onDisk, zoom; simpl;
      match goal with |- context [let '(_, _) := ?x in _] => destruct x end;
      simpl; done
  end.

Lemma control_stoppedGrows c : steady stoppedGrows (control c).
Proof. steady_walk; stopped_base. Qed.

Lemma exec_stoppedGrows op : steady stoppedGrows (exec op).
Proof.
  apply steady_exec; try exact _; [|apply control_stoppedGrows].
  intros. apply steady_runQuery; try exact _.
  - intros w0 es. unfold stoppedGrows. done.
  - intros w0 k. unfold stoppedGrows. done.
  - intros f Hf w0. unfold stoppedGrows. simpl.
    destruct (Hf (session w0)) as [-> _]. done.
  - intros id e w0. unfold stoppedGrows, onDisk, zoom. simpl.
    destruct (Store.appendHistory id e (disk w0)). done.
  - intros f _ w0. unfold stoppedGrows. done.
  - apply control_stoppedGrows.
Qed.

Lemma stopTask_again taskId w :
  taskId ∈ _stoppedTasks (session w) -> stopTask taskId w = (Ok tt, w).
Proof.
  intros Hin. unfold stopTask, bind, this, read, ret. simpl.
  rewrite bool_decide_eq_true_2 by exact Hin. reflexivity.
Qed.

Lemma stopTask_first taskId q w :
  activeQuery (session w) = Some q ->
  taskId ∉ _stoppedTasks (session w) ->
  stopTask taskId w =
    (Ok tt,
     with_effects
       (effects w ++ [SdkStopTask q (sdkTaskIdOf taskId (_taskIdToToolUseId (session w)))])
       (with_session
          (set_stoppedTasks ({[taskId]} ∪ _stoppedTasks (session w)) (session w)) w)).
Proof.
  intros Hq Hnot. unfold stopTask, bind, this, read, ret. simpl.
  rewrite bool_decide_eq_false_2 by exact Hnot.
  unfold update, modify. simpl. rewrite Hq. reflexivity.
Qed.

(** The id a tool-use id translates back to: the agent id of the
    first entry of the table, in the order of insertion, that maps to
    it, and the tool-use id itself when no entry does. *)
Inductive translatesTo (taskId : str) (table : list (str * str)) : str -> Prop :=
| translated (before : list (str * str)) (agentId : str) (rest : list (str * str)) :
    table = before ++ (agentId, taskId) :: rest ->
    Forall (fun kv => snd kv <> taskId) before ->
    translatesTo taskId table agentId
| untranslated :
    Forall (fun kv => snd kv <> taskId) table ->
    translatesTo taskId table taskId.

Lemma sdkTaskIdOf_translates taskId table :
  translatesTo taskId table (sdkTaskIdOf taskId table).
Proof.
  unfold sdkTaskIdOf.
  destruct (List.find _ table) as [[agentId toolUseId]|] eqn:Hfind.
  - induction table as [|[k v] table IH]; [discriminate|].
    simpl in Hfind. case_bool_decide as Hv; simpl in Hv.
    + injection Hfind as -> ->. subst toolUseId.
      by apply (translated _ _ [] agentId table).
    + destruct (IH Hfind) as [before agentId' rest -> Hbefore|Hnone].
      * apply (translated _ _ ((k, v) :: before) agentId' rest); [done|].
        by constructor.
      * apply find_some in Hfind as [Hin Hhit]. apply bool_decide_eq_true in Hhit.
        rewrite Forall_forall in Hnone. apply list_elem_of_In in Hin.
        by destruct (Hnone _ Hin).
  - apply untranslated, Forall_forall. intros kv Hin%list_elem_of_In Hhit.
    pose proof (find_none _ _ Hfind kv Hin) as Hmiss.
    by apply bool_decide_eq_false in Hmiss.
Qed.

(** C7. The first [stopTask] for a task id, made while a query is
    active, issues one cancellation request to the SDK, for the
    agent id the tool-use id translates back to in
    [_taskIdToToolUseId] (the id itself when the table has no entry for
    it); every later call with the same id, whatever the engine did in
    between, is dropped; so two or more calls leave exactly one
    request. *)
Theorem stopTask_requests_once (taskId : str) (q : nat) (w : World)
    (ops : list Op) (n : nat) :
  activeQuery (session w) = Some q ->
  taskId ∉ _stoppedTasks (session w) ->
  exists sdkTaskId,
    translatesTo taskId (_taskIdToToolUseId (session w)) sdkTaskId
    /\ let request := SdkStopTask q sdkTaskId in
       let w1 := snd (stopTask taskId w) in
       effects w1 = effects w ++ [request]
       /\ stopTask taskId (after w1 ops) = (Ok tt, after w1 ops)
       /\ effects (after w (replicate (2 + n) (Between (CallStopTask taskId))))
          = effects w ++ [request].
Proof.
  intros Hq Hnot.
  exists (sdkTaskIdOf taskId (_taskIdToToolUseId (session w))).
  split; [apply sdkTaskIdOf_translates|]. intros request w1.
  assert (taskId ∈ _stoppedTasks (session w1)) as Hin.
  { unfold w1. rewrite (stopTask_first _ _ _ Hq Hnot). simpl. set_solver. }
  split; [|split].
  - unfold w1. rewrite (stopTask_first _ _ _ Hq Hnot). reflexivity.
  - apply stopTask_again.
    pose proof (steady_after stoppedGrows ops exec_stoppedGrows w1) as Hgrow.
    unfold stoppedGrows in Hgrow. set_solver.
  - simpl. fold w1.
    assert (forall k, after w1 (replicate k (Between (CallStopTask taskId))) = w1) as Hrest.
    { induction k as [|k IH]; [reflexivity|]. simpl.
      rewrite (stopTask_again _ _ Hin). simpl. exact IH. }
    change (effects (after w1 (replicate (S n) (Between (CallStopTask taskId))))
            = effects w ++ [request]).
    rewrite Hrest. unfold w1. rewrite (stopTask_first _ _ _ Hq Hnot). reflexivity.
Qed.

(** *** The query loop *)

(** No history file loses an entry. *)
Definition historyKept (w w' : World) : Prop :=
  keeps (Store.history (disk w)) (Store.history (disk w')).

#[local] Instance historyKept_preorder : PreOrder historyKept.
Proof.
  split; unfold historyKept.
  - intros w. reflexivity.
  - intros a b c ??. etransitivity; eassumption.
Qed.

Lemma appendHistory_historyKept id e : steady historyKept (onDisk (Store.appendHistory id e)).
Proof.
  intros w. unfold historyKept, onDisk, zoom.
  pose proof (keeps_appendHistory id e (disk w)) as H.
  destruct (Store.appendHistory id e (disk w)). exact H.
Qed.

Ltac kept_base :=
  lazymatch goal with
  | |- steady historyKept (onDisk (Store.appendHistory _ _)) =>
      apply appendHistory_historyKept
  | |- steady historyKept (writeDisk (Store.markQuestionAnswered _ _)) =>
      intros ?; unfold historyKept; simpl; apply keeps_markQuestionAnswered
  | |- steady historyKept _ =>
      intros ?; unfold historyKept; simpl; reflexivity
  end.

Lemma control_historyKept c : steady historyKept (control c).
Proof. steady_walk; kept_base. Qed.

Lemma runQuery_historyKept prompt resume started stream ending :
  steady historyKept (runQuery prompt resume started stream ending).
Proof.
  apply steady_runQuery; try exact _.
  - intros w es. unfold historyKept. reflexivity.
  - intros w k. unfold historyKept. reflexivity.
  - intros f _ w. unfold historyKept. reflexivity.
  - apply appendHistory_historyKept.
  - intros f Hf w. unfold historyKept. simpl. rewrite Hf. reflexivity.
  - apply control_historyKept.
Qed.

(** A call that ends by throwing, whatever the state. *)
Definition throws {A} (m : M World A) : Prop :=
  forall w, exists e w', m w = (Throw e, w').

Lemma throws_bind {A B} (m : M World A) (k : A -> M World B) :
  (forall a, throws (k a)) -> throws (bind m k).
Proof.
  intros Hk w. unfold bind. destruct (m w) as [[a|e] w']; [apply Hk | eauto].
Qed.

Lemma loop_throws prompt resume stream err l :
  throws (loop prompt resume stream (Some err) l).
Proof.
  revert l. induction stream as [|[m|c] rest IH]; intros l; simpl.
  - intros w. eauto.
  - apply throws_bind. intros l'. apply IH.
  - apply throws_bind. intros _. apply IH.
Qed.

Lemma tryBlock_throws prompt resume started stream err :
  throws (tryBlock prompt resume started stream (Some err)).
Proof.
  unfold tryBlock. repeat (apply throws_bind; intros ?). apply loop_throws.
Qed.

(** The message of the error event: [err.message || "Unknown error
    during query"]. *)
Definition errorEvent (err : Error) : ServerMessage :=
  MsgError (or_else (message err) (lit "Unknown error during query")).

(** C9, as the code has it.  Whatever the prompt, the stream and the
    calls made meanwhile, [runQuery] leaves the engine idle.  When an
    error surfaced in the [try] block (as it does when the stream ends
    with one), it is caught and handed to [send] as one error event,
    and nothing else follows; without an error nothing is sent after
    the loop.  [runQuery] returns, unless that [send] throws: then the
    event is not written and [runQuery] throws what [send] threw.  The
    store is left as the loop left it, and no history file has lost an
    entry since the call. *)
Theorem runQuery_returns_to_idle (prompt : str) (resume : option str)
    (started : outcome unit) (stream : list Tick) (ending : option Error)
    (w : World) :
  let entered := snd (enterQuery w) in
  let tried := tryBlock prompt resume started stream ending entered in
  let transport := ws (session (snd tried)) in
  exists w',
    runQuery prompt resume started stream ending w
    = (match fst tried, refusal transport with
       | Throw _, Some refused => Throw refused
       | _, _ => Ok tt
       end, w')
    /\ _isRunning (session w') = false
    /\ activeQuery (session w') = None
    /\ effects w' =
         effects (snd tried) ++
         match fst tried, refusal transport with
         | Throw err, None => frames transport [errorEvent err]
         | _, _ => []
         end
    /\ match ending with
       | Some _ => exists err, fst tried = Throw err
       | None => True
       end
    /\ disk w' = disk (snd tried)
    /\ historyKept w w'.
Proof.
  intros entered tried transport.
  pose proof (runQuery_historyKept prompt resume started stream ending w) as Hkept.
  assert (enterQuery w = (Ok tt, entered)) as Henter by reflexivity.
  unfold runQuery in *. unfold bind at 1 in Hkept. unfold bind at 1.
  rewrite Henter in *. unfold finally, tryCatch in *.
  subst transport. fold tried in Hkept |- *.
  destruct tried as [[[]|err] w1] eqn:Htried; simpl in *.
  - eexists. split; [reflexivity|]. simpl.
    split; [done|]. split; [done|]. split; [by rewrite app_nil_r|].
    split; [|split; [done | exact Hkept]].
    destruct ending as [err|]; [|done].
    destruct (tryBlock_throws prompt resume started stream err entered)
      as (e & w2 & Hthrow).
    subst tried. rewrite Hthrow in Htried. discriminate.
  - unfold catchBlock in *. rewrite send_cases in *.
    destruct (refusal (ws (session w1))) as [refused|]; simpl in *.
    + eexists. split; [reflexivity|]. simpl.
      split; [done|]. split; [done|]. split; [by rewrite app_nil_r|].
      split; [destruct ending; eauto | split; [done | exact Hkept]].
    + eexists. split; [reflexivity|]. simpl.
      split; [done|]. split; [done|]. split; [reflexivity|].
      split; [destruct ending; eauto | split; [done | exact Hkept]].
Qed.

(** *** Injected messages *)



(** *** Pending questions *)

Lemma mapSet_keys {V} k (v : V) m :
  (mapSet k v m).*1 = if bool_decide (k ∈ m.*1) then m.*1 else m.*1 ++ [k].
Proof.
  induction m as [|[k' v'] m IH]; [done|].
  cbn [mapSet]. rewrite fmap_cons. cbn [fst].
  destruct (decide (k' = k)) as [->|Hne].
  - rewrite bool_decide_eq_true_2 by done.
    rewrite bool_decide_eq_true_2 by left. reflexivity.
  - rewrite (bool_decide_eq_false_2 (k' = k)) by done.
    rewrite fmap_cons, IH. cbn [fst].
    destruct (decide (k ∈ m.*1)) as [Hin|Hin].
    + rewrite (bool_decide_eq_true_2 (k ∈ m.*1)) by done.
      rewrite bool_decide_eq_true_2 by (by right). reflexivity.
    + rewrite (bool_decide_eq_false_2 (k ∈ m.*1)) by done.
      rewrite bool_decide_eq_false_2; [reflexivity|].
      intros [?|?]%elem_of_cons; congruence.
Qed.

Lemma mapDelete_keys_sublist {V} k (m : list (str * V)) :
  sublist (mapDelete k m).*1 m.*1.
Proof.
  induction m as [|[k' v'] m IH]; [done|].
  cbn [mapDelete]. rewrite fmap_cons. cbn [fst].
  destruct (decide (k' = k)) as [->|Hne].
  - rewrite bool_decide_eq_true_2 by done. by apply sublist_cons.
  - rewrite bool_decide_eq_false_2 by done. rewrite fmap_cons. cbn [fst].
    by apply sublist_skip.
Qed.

Lemma mapGet_None {V} k (m : list (str * V)) :
  mapGet k m = None <-> k ∉ m.*1.
Proof.
  induction m as [|[k' v'] m IH].
  - split; [intros _; apply not_elem_of_nil | done].
  - cbn [mapGet]. rewrite fmap_cons. cbn [fst].
    rewrite not_elem_of_cons. destruct (decide (k' = k)) as [->|Hne].
    + rewrite bool_decide_eq_true_2 by done.
      split; [discriminate | intros [? _]; congruence].
    + rewrite bool_decide_eq_false_2 by done. rewrite IH.
      split; [intros ?; split; congruence | intros [_ ?]; done].
Qed.

Lemma mapGet_mapDelete {V} k (m : list (str * V)) :
  NoDup m.*1 -> mapGet k (mapDelete k m) = None.
Proof.
  intros Hnd. apply mapGet_None.
  induction m as [|[k' v'] m IH]; [apply not_elem_of_nil|].
  rewrite fmap_cons in Hnd. cbn [fst] in Hnd.
  apply NoDup_cons in Hnd as [Hnot Hnd].
  cbn [mapDelete]. destruct (decide (k' = k)) as [->|Hne].
  - rewrite bool_decide_eq_true_2 by done. exact Hnot.
  - rewrite bool_decide_eq_false_2 by done. rewrite fmap_cons. cbn [fst].
    apply not_elem_of_cons. split; [congruence | by apply IH].
Qed.

(** The ids of the pending questions are pairwise distinct. *)
Definition pendingDistinct (w : World) : Prop :=
  NoDup (pendingQuestions (session w)).*1.

Ltac distinct_base :=
  lazymatch goal with
  | |- steady (keeping pendingDistinct)
         (update (fun s => set_pendingQuestions (mapSet _ _ _) s)) =>
      let Hnd := fresh "Hnd" in
      let Hin := fresh "Hin" in
      intros ?; unfold keeping, pendingDistinct; simpl; rewrite mapSet_keys;
      case_bool_decide as Hin; [done|];
      intros Hnd; apply NoDup_app; split; [exact Hnd|]; split;
        [intros ? ? ->%list_elem_of_singleton; contradiction
        | apply NoDup_singleton]
  | |- steady (keeping pendingDistinct)
         (update (fun s => set_pendingQuestions (mapDelete _ _) s)) =>
      let Hnd := fresh "Hnd" in
      intros ?; unfold keeping, pendingDistinct; simpl; intros Hnd;
      exact (sublist_NoDup _ _ Hnd (mapDelete_keys_sublist _ _))
  | |- steady (keeping pendingDistinct) (onDisk _) =>
      intros ?; unfold keeping, pendingDistinct, onDisk, zoom; simpl;
      match goal with |- context [let '(_, _) := ?x in _] => destruct x end;
      simpl; done
  | |- steady (keeping pendingDistinct) _ =>
      intros ?; unfold keeping, pendingDistinct; simpl; done
  end.

Lemma control_pendingDistinct c : steady (keeping pendingDistinct) (control c).
Proof. steady_walk; distinct_base. Qed.

Lemma exec_pendingDistinct op : steady (keeping pendingDistinct) (exec op).
Proof.
  apply steady_exec; try exact _; [|apply control_pendingDistinct].
  intros. apply steady_runQuery; try exact _.
  - intros w0 es. unfold keeping, pendingDistinct. done.
  - intros w0 k. unfold keeping, pendingDistinct. done.
  - intros f Hf w0. unfold keeping, pendingDistinct. simpl.
    destruct (Hf (session w0)) as (_ & -> & _). done.
  - intros id e w0. unfold keeping, pendingDistinct, onDisk, zoom. simpl.
    destruct (Store.appendHistory id e (disk w0)). done.
  - intros f _ w0. unfold keeping, pendingDistinct. done.
  - apply control_pendingDistinct.
Qed.

(** In every state an engine reaches there is at most one pending
    question per question id. *)
Lemma pending_one_per_id dir ops qid p1 p2 :
  let w := after (boot dir) ops in
  forall i j,
    pendingQuestions (session w) !! i = Some (qid, p1) ->
    pendingQuestions (session w) !! j = Some (qid, p2) ->
    i = j /\ p1 = p2.
Proof.
  intros w i j Hi Hj.
  assert (pendingDistinct w) as Hnd.
  { apply (steady_after (keeping pendingDistinct) ops exec_pendingDistinct (boot dir)).
    unfold pendingDistinct. simpl. constructor. }
  assert (i = j) as ->.
  { eapply NoDup_lookup; [exact Hnd| |]; rewrite list_lookup_fmap.
    - by rewrite Hi.
    - by rewrite Hj. }
  rewrite Hi in Hj. by injection Hj as ->.
Qed.

(** [resolveQuestion] with an id that is not pending changes nothing
    and does not throw. *)
Lemma resolveQuestion_unknown qid answers w :
  mapGet qid (pendingQuestions (session w)) = None ->
  resolveQuestion qid answers w = (Ok tt, w).
Proof.
  intros H. unfold resolveQuestion, bind, this, read, ret. simpl.
  rewrite H. reflexivity.
Qed.

(** [resolveQuestion] with a pending id resolves its promise once,
    takes it out of the table, and has [markQuestionAnswered] run on
    the history of the session when the session has an id. *)
Lemma resolveQuestion_known qid answers w p :
  mapGet qid (pendingQuestions (session w)) = Some p ->
  resolveQuestion qid answers w =
    (Ok tt,
     with_disk
       (if truthy_opt (sessionId (session w))
        then Store.markQuestionAnswered (default [] (sessionId (session w))) qid (disk w)
        else disk w)
       (with_session
          (set_pendingQuestions (mapDelete qid (pendingQuestions (session w))) (session w))
          (with_effects (effects w ++ [Resolve (resolve p) answers]) w))).
Proof.
  intros H. unfold resolveQuestion, bind, this, read, ret. simpl.
  rewrite H. unfold act, update, modify. simpl.
  destruct (sessionId (session w)) as [id|]; simpl.
  - destruct (truthy id); simpl; [reflexivity|].
    destruct w as [? [] ? ? ?]; reflexivity.
  - destruct w as [? [] ? ? ?]; reflexivity.
Qed.

End WithPlatform.

(** *** Runs of the engine *)

Section Runs.
#[local] Existing Instance Toy.platform.




(** C9, counterexample.  On a transport whose [send] throws, as the
    virtual socket of the relay does on a peer key of the wrong size,
    a query whose stream ends with an error throws to its caller: the
    error is caught, the [send] of the error event throws in the
    [catch] block, and [runQuery] ends with what [send] threw, the
    engine idle and no frame written. *)
Lemma runQuery_throws_what_send_throws :
  let refused := error "bad public key size" in
  let relay := {| socket := 0; isOpen := true; sendThrows := Some refused |} in
  let w := reopen relay (lit "/srv") (boot (lit "/srv")) in
  let run := runQuery (lit "hello") None (Ok tt) [] (Some (error "stream closed")) w in
  fst run = Throw refused
  /\ _isRunning (session (snd run)) = false
  /\ activeQuery (session (snd run)) = None
  /\ List.filter (fun e => match e with WsSend _ _ => true | _ => false end)
                 (effects (snd run)) = [].
Proof. vm_compute. repeat split. Qed.

(** A query in which the agent has started a task in the background
    and the result of the tool call has named the task's agent; the
    loop awaits the next message. *)
Definition taskStarted : World :=
  snd (bind enterQuery
         (fun _ => @tryBlock Toy.withAgentIds (lit "hello") None (Ok tt)
            [Incoming (SystemInit (lit "s1"));
             Incoming (Assistant (Some
               [ToolUse (lit "toolu_1") (lit "Task")
                  (Some (Obj [(lit "run_in_background", Bool true)]))]));
             Incoming (User (Some
               [ToolResult (Some (lit "toolu_1"))
                  (ContentString (lit "agentId: a7f3"))]))]
            None)
         (boot (lit "/srv"))).

(** Two stop requests for that task, under the id of the tool call,
    while the query runs. *)
Lemma stopTask_requests_once_witness :
  let w := taskStarted in
  let taskId := lit "toolu_1" in
  activeQuery (session w) = Some 2
  /\ (taskId ∉ _stoppedTasks (session w))
  /\ exists sdkTaskId,
       translatesTo taskId (_taskIdToToolUseId (session w)) sdkTaskId
       /\ let request := SdkStopTask 2 sdkTaskId in
          let w1 := snd (stopTask taskId w) in
          effects w1 = effects w ++ [request]
          /\ stopTask taskId (after w1 []) = (Ok tt, after w1 [])
          /\ effects (after w (replicate (2 + 0) (Between (CallStopTask taskId))))
             = effects w ++ [request].
Proof.
  intros w taskId.
  assert (activeQuery (session w) = Some 2) as Hq by reflexivity.
  assert (taskId ∉ _stoppedTasks (session w)) as Hnot by apply not_elem_of_empty.
  split; [exact Hq|]. split; [exact Hnot|].
  exact (stopTask_requests_once taskId 2 w [] 0 Hq Hnot).
Defined.

(** The request made there names the agent, not the tool call. *)
Example stopTask_names_the_agent :
  _taskIdToToolUseId (session taskStarted) = [(lit "a7f3", lit "toolu_1")]
  /\ effects (snd (stopTask (lit "toolu_1") taskStarted))
     = effects taskStarted ++ [SdkStopTask 2 (lit "a7f3")].
Proof. vm_compute. split; reflexivity. Qed.

(** A first visit: a query on a new session asks a question, which
    the client answers. *)
Definition askInput : option val :=
  Some (Obj [(lit "questions",
              Arr [Obj [(lit "question", Str (lit "Proceed?"));
                        (lit "options", Arr [Obj [(lit "label", Str (lit "Yes"))]])]])]).

Definition firstVisit : list Op :=
  [Query (lit "hello") None (Ok tt)
     [Incoming (SystemInit (lit "s1"));
      Meanwhile (CallCanUseTool (lit "AskUserQuestion") askInput []);
      Meanwhile (CallResolveQuestion (lit "q1") [(lit "Proceed?", lit "Yes")])]
     None].

(** The client comes back once that query is over: the server makes a
    new engine for the session, whose next query resumes it and asks a
    question again. *)
Definition secondVisit : list Op :=
  [Query (lit "more") (Some (lit "s1")) (Ok tt)
     [Incoming (SystemInit (lit "s1"));
      Meanwhile (CallCanUseTool (lit "AskUserQuestion") askInput [])]
     None].

Definition cameBack : World :=
  after (reopen {| socket := 7; isOpen := true; sendThrows := None |} (lit "/srv")
           (after (boot (lit "/srv")) firstVisit))
        secondVisit.

(** What the history file of a session says about its questions: id
    and [answered] of each question entry, in order. *)
Definition questionsOf (file : option Store.HistFile) : list (option str * option bool) :=
  match file with
  | Some (Store.Entries l) =>
      (fun e => (Store.questionId e, Store.answered e)) <$>
      filter (fun e => Store.role e = lit "question") l
  | _ => []
  end.

(** C6, the failing run.  The new engine counts its questions from
    [q1] again, so the history of the session now has two question
    entries with this id, the first one answered during the first
    visit.  Answering the pending question resolves it and takes it out
    of the table, but [markQuestionAnswered] marks the first entry with
    the id, which is marked already: the entry of the question just
    answered stays unanswered. *)
Theorem resolveQuestion_marks_first_entry_with_id :
  let file w := Store.history (disk w) !! Store.historyFile (lit "s1") in
  let call := resolveQuestion (lit "q1") [(lit "Proceed?", lit "Yes")] cameBack in
  (pendingQuestions (session cameBack)).*1 = [lit "q1"]
  /\ questionsOf (file cameBack) = [(Some (lit "q1"), Some true); (Some (lit "q1"), None)]
  /\ fst call = Ok tt
  /\ pendingQuestions (session (snd call)) = []
  /\ questionsOf (file (snd call)) =
       [(Some (lit "q1"), Some true); (Some (lit "q1"), None)].
Proof. vm_compute. repeat split. Qed.

End Runs.
End SessionFacts.

(** ** The relay tunnel *)

Module RelayFacts.
Import Js Run Crypto Relay.

Section WithPlatform.
Context {platform : Platform}.
Variable onMessage : val -> outcome unit.

Local Abbreviation step := (Relay.step onMessage).
Local Abbreviation run := (Relay.run onMessage).
Local Abbreviation handleRelayMessage := (Relay.handleRelayMessage onMessage).

(** *** Pairing *)

(** A paired client holds the peer's public key. *)
Definition pairedHasKey (r : RelayClient) : Prop :=
  status r = paired -> is_Some (phonePublicKey r).

(** Case analysis on everything a handler branches on. *)
Ltac branches :=
  repeat match goal with
  | |- context [match ?x with _ => _ end] =>
      lazymatch x with
      | context [match _ with _ => _ end] => fail
      | _ => destruct x eqn:?
      end
  end.

Lemma handleRelayMessage_pairedHasKey parsed r :
  pairedHasKey r -> pairedHasKey (snd (handleRelayMessage parsed r)).
Proof.
  unfold Relay.handleRelayMessage.
  destruct parsed; try done;
    unfold pairedHasKey, tryCatch, bind, setStatus, act, modify, read, ret,
      Relay.lift, when in *; simpl.
  all: branches; unfold ret in *; simplify_eq/=; try done; eauto.
  all: match goal with H : phonePublicKey _ = _ |- _ => rewrite H; done end.
Qed.

Ltac handlers :=
  unfold Relay.step, Relay.handle, Relay.onMessageEvent, connect, onOpen, onClose,
    send, close, scheduleReconnect, tryCatch, bind, setStatus, act, modify,
    read, ret, Relay.lift, when, throw in *.

Lemma step_pairedHasKey r ev : pairedHasKey r -> pairedHasKey (step r ev).
Proof.
  destruct ev as [ctor| |raw| | |nonce msg|].
  3: { intros Hinv. unfold Relay.step, Relay.handle, Relay.onMessageEvent, tryCatch, bind,
         Relay.lift.
       destruct (jsonParse raw) as [parsed|e]; simpl; [|exact Hinv].
       pose proof (handleRelayMessage_pairedHasKey parsed r Hinv) as H.
       destruct (handleRelayMessage parsed r) as [[?|?] r']; exact H. }
  all: unfold pairedHasKey; handlers; simpl.
  all: branches; unfold ret in *; simplify_eq/=; try done; eauto.
  all: match goal with H : phonePublicKey _ = _ |- _ => rewrite H; done end.
Qed.

Lemma run_pairedHasKey r evs : pairedHasKey r -> pairedHasKey (run r evs).
Proof.
  revert r. induction evs as [|ev evs IH]; intros r Hinv; simpl; [exact Hinv|].
  apply IH, step_pairedHasKey, Hinv.
Qed.

(** C4. In every state the client reaches from its construction, by
    whatever calls and socket events, [paired] comes with the peer's
    public key; and a [peer_disconnected] frame sets the status to
    [waiting_for_peer] and clears the key. *)
Theorem paired_has_peer_key (kp : KeyPair) (evs : list Event)
    (parsed : val) (r : RelayClient) :
  (status (run (new kp) evs) = paired ->
   is_Some (phonePublicKey (run (new kp) evs)))
  /\ (is_str (get (lit "type") parsed) (lit "peer_disconnected") = true ->
      exists r',
        handleRelayMessage parsed r = (Ok tt, r')
        /\ status r' = waiting_for_peer
        /\ phonePublicKey r' = None
        /\ virtualOpen r' = false).
Proof.
  split.
  - apply run_pairedHasKey. unfold pairedHasKey. discriminate.
  - intros Htype. unfold Relay.handleRelayMessage.
    destruct parsed; try discriminate Htype.
    destruct (is_str _ (lit "peer_connected")) eqn:Hother.
    { exfalso. unfold is_str in *. destruct (get _ _) as [[]|]; try discriminate.
      apply bool_decide_eq_true in Htype, Hother. subst. discriminate. }
    rewrite Htype. eexists. split; [reflexivity|]. simpl. done.
Qed.

(** *** Frames that cannot be decrypted *)

(** A frame that is handled as an encrypted one: it is not one of the
    plaintext control or key-exchange frames and its [n] and [c] are
    truthy. *)
Definition isEncryptedFrame (parsed : val) : bool :=
  negb (is_str (get (lit "type") parsed) (lit "peer_connected"))
  && negb (is_str (get (lit "type") parsed) (lit "peer_disconnected"))
  && negb (is_str (get (lit "type") parsed) (lit "key_exchange"))
  && truthy_val (get (lit "n") parsed)
  && truthy_val (get (lit "c") parsed).

(** The frame arrives before any key exchange, or its decryption
    throws. *)
Definition undecryptable (parsed : val) (r : RelayClient) : Prop :=
  match phonePublicKey r with
  | None => True
  | Some key =>
      exists e,
        decrypt {| n := get (lit "n") parsed; c := get (lit "c") parsed |}
                key (secretKey (keyPair r)) = Throw e
  end.

(** C5. An encrypted frame that arrives before the key exchange, or
    whose decryption fails, is dropped: the handler returns, nothing is
    delivered, and the client is as before but for one log line;
    status, peer key and socket are the same.  No error leaves the
    handler of the socket's message event either. *)
Theorem undecryptable_frame_dropped (raw : str) (parsed : val) (r : RelayClient) :
  jsonParse raw = Ok parsed ->
  isEncryptedFrame parsed = true ->
  undecryptable parsed r ->
  exists line,
    handleRelayMessage parsed r = (Ok tt, emit (Log line) r)
    /\ Relay.onMessageEvent onMessage raw r = (Ok tt, emit (Log line) r)
    /\ status (step r (Message raw)) = status r
    /\ phonePublicKey (step r (Message raw)) = phonePublicKey r
    /\ ws (step r (Message raw)) = ws r
    /\ virtualOpen (step r (Message raw)) = virtualOpen r.
Proof.
  intros Hparse Hframe Hbad. unfold isEncryptedFrame in Hframe.
  repeat (apply andb_true_iff in Hframe as [Hframe ?]).
  apply negb_true_iff in Hframe.
  repeat match goal with H : negb _ = true |- _ => apply negb_true_iff in H end.
  assert (exists line, handleRelayMessage parsed r = (Ok tt, emit (Log line) r))
    as [line Hdrop].
  { unfold Relay.handleRelayMessage, undecryptable in *.
    destruct parsed; try discriminate.
    all: repeat match goal with H : is_str _ _ = false |- _ => rewrite H end.
    all: repeat match goal with H : truthy_val _ = true |- _ => rewrite H end.
    all: unfold bind, read, ret; cbn -[get decrypt lit].
    all: destruct (phonePublicKey r) as [key|]; [|eexists; reflexivity].
    all: destruct Hbad as [e He]; unfold tryCatch, bind, Relay.lift.
    all: rewrite He; eexists; reflexivity. }
  exists line. split; [exact Hdrop|].
  assert (Relay.onMessageEvent onMessage raw r = (Ok tt, emit (Log line) r)) as Hev.
  { unfold Relay.onMessageEvent, tryCatch, bind, Relay.lift. rewrite Hparse, Hdrop.
    reflexivity. }
  split; [exact Hev|].
  unfold Relay.step, Relay.handle. rewrite Hev. done.
Qed.

(** No error leaves the handler of the message event, whatever the
    frame. *)
Lemma onMessageEvent_returns raw r :
  fst (Relay.onMessageEvent onMessage raw r) = Ok tt.
Proof.
  unfold Relay.onMessageEvent, tryCatch, bind, Relay.lift.
  destruct (jsonParse raw) as [parsed|e]; [|reflexivity].
  destruct (handleRelayMessage parsed r) as [[[]|e] r']; reflexivity.
Qed.

(** *** Reconnection *)

(** The delays of the reconnect timers set so far, in order. *)
Definition timeouts (r : RelayClient) : list Z :=
  omap (fun e => match e with SetTimeout d => Some d | _ => None end) (effects r).


(** The events that end a run of failures: the socket opens, or the
    client is closed for good. *)
Definition ends (ev : Event) : bool :=
  match ev with
  | Open | CloseCall => true
  | _ => false
  end.


Lemma timeouts_emit e r :
  timeouts (emit e r) =
    timeouts r ++ match e with SetTimeout d => [d] | _ => [] end.
Proof.
  unfold timeouts. simpl. rewrite omap_app. destruct e; reflexivity.
Qed.

Lemma handleRelayMessage_quiet parsed r :
  let r' := snd (handleRelayMessage parsed r) in
  closed r' = closed r /\ reconnectDelay r' = reconnectDelay r
  /\ timeouts r' = timeouts r.
Proof.
  unfold Relay.handleRelayMessage.
  destruct parsed; try done;
    unfold tryCatch, bind, setStatus, act, modify, read, ret, Relay.lift, when;
    simpl.
  all: branches; unfold ret in *; simplify_eq/=;
    unfold timeouts; simpl; rewrite ?omap_app; simpl; rewrite ?app_nil_r;
    try done.
Qed.





End WithPlatform.

(** *** Runs of the client *)

Section Runs.
#[local] Existing Instance Toy.platform.

Definition delivered : val -> outcome unit := fun _ => Ok tt.

Definition keys : KeyPair :=
  {| publicKey := lit "server-public"; secretKey := lit "server-secret" |}.

Definition keyExchange : str :=
  Toy.object [(lit "type", lit "key_exchange"); (lit "pubkey", lit "phone-public")].

Definition peerDisconnected : val :=
  Obj [(lit "type", Str (lit "peer_disconnected"))].

Definition encryptedFrame : str :=
  Toy.object [(lit "n", lit "nonce"); (lit "c", lit "ciphertext")].


Example reconnect_delays_run :
  timeouts (Relay.run delivered (new keys)
              [Connect (Ok tt); Open; Close; Connect (Ok tt); Close;
               Connect (Ok tt); Close; Connect (Ok tt); Close; Connect (Ok tt);
               Close; Connect (Ok tt); Close; Connect (Ok tt); Close;
               Connect (Ok tt); Open; Close])
  = [1000; 2000; 4000; 8000; 16000; 30000; 30000; 1000]%Z.
Proof. vm_compute. reflexivity. Qed.

(** The phone's key arrives and the client is paired; then the phone
    leaves. *)
Lemma paired_has_peer_key_witness :
  let evs := [Connect (Ok tt); Open; Message keyExchange] in
  let final := Relay.run delivered (new keys) evs in
  status final = paired
  /\ is_Some (phonePublicKey final)
  /\ is_str (get (lit "type") peerDisconnected) (lit "peer_disconnected") = true
  /\ exists r',
       Relay.handleRelayMessage delivered peerDisconnected final = (Ok tt, r')
       /\ status r' = waiting_for_peer
       /\ phonePublicKey r' = None
       /\ virtualOpen r' = false.
Proof.
  intros evs final.
  destruct (paired_has_peer_key delivered keys evs peerDisconnected final)
    as [Hkey Hgone].
  assert (status final = paired) as Hpaired by (vm_compute; reflexivity).
  assert (is_str (get (lit "type") peerDisconnected) (lit "peer_disconnected") = true)
    as Htype by (vm_compute; reflexivity).
  split; [exact Hpaired|]. split; [exact (Hkey Hpaired)|].
  split; [exact Htype | exact (Hgone Htype)].
Defined.

(** An encrypted frame reaches a client that has no peer key yet. *)
Lemma undecryptable_frame_dropped_witness :
  let r := Relay.run delivered (new keys) [Connect (Ok tt); Open] in
  let parsed := Obj [(lit "n", Str (lit "nonce")); (lit "c", Str (lit "ciphertext"))] in
  jsonParse encryptedFrame = Ok parsed
  /\ isEncryptedFrame parsed = true
  /\ undecryptable parsed r
  /\ exists line,
       Relay.handleRelayMessage delivered parsed r = (Ok tt, emit (Log line) r)
       /\ Relay.onMessageEvent delivered encryptedFrame r = (Ok tt, emit (Log line) r)
       /\ status (Relay.step delivered r (Message encryptedFrame)) = status r
       /\ phonePublicKey (Relay.step delivered r (Message encryptedFrame)) = phonePublicKey r
       /\ ws (Relay.step delivered r (Message encryptedFrame)) = ws r
       /\ virtualOpen (Relay.step delivered r (Message encryptedFrame)) = virtualOpen r.
Proof.
  intros r parsed.
  assert (jsonParse encryptedFrame = Ok parsed) as Hparse by (vm_compute; reflexivity).
  assert (isEncryptedFrame parsed = true) as Hframe by (vm_compute; reflexivity).
  assert (undecryptable parsed r) as Hbad by exact I.
  split; [exact Hparse|]. split; [exact Hframe|]. split; [exact Hbad|].
  exact (undecryptable_frame_dropped delivered encryptedFrame parsed r Hparse Hframe Hbad).
Defined.

End Runs.
End RelayFacts.

(** ** Crypto primitives *)

Module CryptoFacts.
Import Js Crypto.

(** *** The text codec *)

Section Codec.
Ltac Zify.zify_post_hook ::= Z.div_mod_to_equations.

(** A Unicode scalar value: a code point that is not a surrogate. *)
Definition isScalar (c : N) : Prop :=
  (c < 0xD800 \/ 0xE000 <= c < 0x110000)%N.

(** A string in which every surrogate is part of a pair
    ([isWellFormed] of the platform), its units being 16 bits wide. *)
Fixpoint isWellFormed (s : str) : bool :=
  match s with
  | [] => true
  | u :: rest =>
      if isHigh u then
        match rest with
        | v :: rest' => isLow v && isWellFormed rest'
        | [] => false
        end
      else negb (isLow u) && (u <? 0x10000)%N && isWellFormed rest
  end.

(** The string does not begin with U+FEFF. *)
Definition noBOM (s : str) : bool :=
  match s with
  | u :: _ => negb (u =? 0xFEFF)%N
  | [] => true
  end.

Ltac compare :=
  repeat match goal with
  | |- context [(?a <=? ?b)%N] =>
      first [ rewrite (proj2 (N.leb_le a b)) by lia
            | rewrite (proj2 (N.leb_gt a b)) by lia ]
  | |- context [(?a <? ?b)%N] =>
      first [ rewrite (proj2 (N.ltb_lt a b)) by lia
            | rewrite (proj2 (N.ltb_ge a b)) by lia ]
  | |- context [(?a =? ?b)%N] =>
      first [ rewrite (proj2 (N.eqb_eq a b)) by lia
            | rewrite (proj2 (N.eqb_neq a b)) by lia ]
  end.

Lemma decode_lead b l :
  decodeFrom idle (b :: l) = (lead b).1 ++ decodeFrom (lead b).2 l.
Proof. simpl. destruct (lead b). reflexivity. Qed.

Lemma decode_more st b l :
  bytesNeeded st <> 0%N ->
  (bytesSeen st + 1)%N <> bytesNeeded st ->
  (lower st <= b <= upper st)%N ->
  decodeFrom st (b :: l) =
    decodeFrom {| codePoint := codePoint st * 64 + b mod 64;
                  bytesSeen := bytesSeen st + 1;
                  bytesNeeded := bytesNeeded st;
                  lower := 0x80; upper := 0xBF |} l.
Proof.
  intros Hneed Hmore Hrange. cbn [decodeFrom]. unfold between.
  rewrite (proj2 (N.eqb_neq _ _) Hneed).
  rewrite (proj2 (N.leb_le _ _) (proj1 Hrange)).
  rewrite (proj2 (N.leb_le _ _) (proj2 Hrange)).
  rewrite (proj2 (N.eqb_neq _ _) Hmore). reflexivity.
Qed.

Lemma decode_last st b l :
  bytesNeeded st <> 0%N ->
  (bytesSeen st + 1)%N = bytesNeeded st ->
  (lower st <= b <= upper st)%N ->
  decodeFrom st (b :: l) = (codePoint st * 64 + b mod 64)%N :: decodeFrom idle l.
Proof.
  intros Hneed Hlast Hrange. cbn [decodeFrom]. unfold between.
  rewrite (proj2 (N.eqb_neq _ _) Hneed).
  rewrite (proj2 (N.leb_le _ _) (proj1 Hrange)).
  rewrite (proj2 (N.leb_le _ _) (proj2 Hrange)).
  rewrite (proj2 (N.eqb_eq _ _) Hlast). reflexivity.
Qed.

Lemma lead_ascii b : (b < 0x80)%N -> lead b = ([b], idle).
Proof. intros. unfold lead. compare. reflexivity. Qed.

Lemma lead_two b :
  (0xC2 <= b <= 0xDF)%N ->
  lead b = ([], {| codePoint := b mod 32; bytesSeen := 0; bytesNeeded := 1;
                   lower := 0x80; upper := 0xBF |}).
Proof. intros. unfold lead, between. compare. reflexivity. Qed.

Lemma lead_three b :
  (0xE0 <= b <= 0xEF)%N ->
  lead b = ([], {| codePoint := b mod 16; bytesSeen := 0; bytesNeeded := 2;
                   lower := if (b =? 0xE0)%N then 0xA0 else 0x80;
                   upper := if (b =? 0xED)%N then 0x9F else 0xBF |}).
Proof.
  intros. unfold lead, between.
  rewrite (proj2 (N.leb_gt b 0x7F)) by lia.
  rewrite (proj2 (N.leb_le 0xC2 b)) by lia.
  rewrite (proj2 (N.leb_gt b 0xDF)) by lia.
  rewrite (proj2 (N.leb_le 0xE0 b)) by lia.
  rewrite (proj2 (N.leb_le b 0xEF)) by lia. reflexivity.
Qed.

Lemma lead_four b :
  (0xF0 <= b <= 0xF4)%N ->
  lead b = ([], {| codePoint := b mod 8; bytesSeen := 0; bytesNeeded := 3;
                   lower := if (b =? 0xF0)%N then 0x90 else 0x80;
                   upper := if (b =? 0xF4)%N then 0x8F else 0xBF |}).
Proof.
  intros. unfold lead, between.
  rewrite (proj2 (N.leb_gt b 0x7F)) by lia.
  rewrite (proj2 (N.leb_le 0xC2 b)) by lia.
  rewrite (proj2 (N.leb_gt b 0xDF)) by lia.
  rewrite (proj2 (N.leb_le 0xE0 b)) by lia.
  rewrite (proj2 (N.leb_gt b 0xEF)) by lia.
  rewrite (proj2 (N.leb_le 0xF0 b)) by lia.
  rewrite (proj2 (N.leb_le b 0xF4)) by lia. reflexivity.
Qed.

(** The decoder reads back the bytes of a scalar value. *)
Lemma decode_encodeScalar c rest :
  isScalar c ->
  decodeFrom idle (encodeScalar c ++ rest) = c :: decodeFrom idle rest.
Proof.
  intros Hc. unfold isScalar in Hc. unfold encodeScalar.
  destruct (N.ltb_spec c 0x80) as [H1|H1].
  { cbn [app]. rewrite decode_lead, lead_ascii by lia. reflexivity. }
  destruct (N.ltb_spec c 0x800) as [H2|H2].
  { cbn [app]. rewrite decode_lead, lead_two by lia. cbn [fst snd app].
    rewrite decode_last; cbn [bytesNeeded bytesSeen lower upper codePoint];
      [f_equal|..]; lia. }
  destruct (N.ltb_spec c 0x10000) as [H3|H3].
  { cbn [app]. rewrite decode_lead, lead_three by lia. cbn [fst snd app].
    rewrite decode_more; cbn [bytesNeeded bytesSeen lower upper codePoint];
      [| lia | lia
       | destruct (N.eqb_spec (0xE0 + c / 4096) 0xE0);
         destruct (N.eqb_spec (0xE0 + c / 4096) 0xED); lia ].
    rewrite decode_last; cbn [bytesNeeded bytesSeen lower upper codePoint];
      [f_equal|..]; lia. }
  cbn [app]. rewrite decode_lead, lead_four by lia. cbn [fst snd app].
  rewrite decode_more; cbn [bytesNeeded bytesSeen lower upper codePoint];
    [| lia | lia
     | destruct (N.eqb_spec (0xF0 + c / 262144) 0xF0);
       destruct (N.eqb_spec (0xF0 + c / 262144) 0xF4); lia ].
  rewrite decode_more; cbn [bytesNeeded bytesSeen lower upper codePoint];
    [| lia..].
  rewrite decode_last; cbn [bytesNeeded bytesSeen lower upper codePoint];
    [f_equal|..]; lia.
Qed.

Lemma decode_encode_scalars cs :
  Forall isScalar cs ->
  decodeFrom idle (concat (encodeScalar <$> cs)) = cs.
Proof.
  induction 1 as [|c cs Hc _ IH]; [reflexivity|].
  rewrite fmap_cons. cbn [concat].
  rewrite decode_encodeScalar by exact Hc. by rewrite IH.
Qed.

(** In a well-formed string every scalar value is a scalar value, and
    its units are the string. *)
Lemma toScalars_wellFormed s :
  isWellFormed s = true ->
  Forall isScalar (toScalars s) /\ concat (unitsOf <$> toScalars s) = s.
Proof.
  remember (length s) as k eqn:Hk. revert s Hk.
  induction k as [k IH] using lt_wf_ind. intros s Hk Hwf.
  destruct s as [|u rest]; [split; [constructor | reflexivity]|].
  cbn [isWellFormed toScalars] in *. unfold isHigh, isLow in *.
  destruct ((0xD800 <=? u)%N && (u <=? 0xDBFF)%N) eqn:Hhigh.
  - apply andb_true_iff in Hhigh as [Hh1 Hh2].
    apply N.leb_le in Hh1, Hh2.
    destruct rest as [|v rest']; [discriminate|].
    apply andb_true_iff in Hwf as [Hlow Hwf].
    rewrite Hlow. apply andb_true_iff in Hlow as [Hl1 Hl2].
    apply N.leb_le in Hl1, Hl2.
    destruct (IH (length rest') ltac:(simpl in Hk; lia) rest' eq_refl Hwf) as [Hsc Hunits].
    split.
    + constructor; [unfold isScalar; lia | exact Hsc].
    + rewrite fmap_cons. cbn [concat]. rewrite Hunits. unfold unitsOf.
      rewrite (proj2 (N.ltb_ge _ _)) by lia.
      cbn [app]. f_equal; [lia|]. f_equal. lia.
  - apply andb_true_iff in Hwf as [Hwf Hrest].
    apply andb_true_iff in Hwf as [Hnotlow Hwide].
    apply negb_true_iff in Hnotlow. rewrite Hnotlow.
    apply N.ltb_lt in Hwide.
    destruct (IH (length rest) ltac:(simpl in Hk; lia) rest eq_refl Hrest) as [Hsc Hunits].
    apply andb_false_iff in Hhigh, Hnotlow.
    rewrite !N.leb_gt in Hhigh, Hnotlow.
    split.
    + constructor; [unfold isScalar; lia | exact Hsc].
    + rewrite fmap_cons. cbn [concat]. rewrite Hunits. unfold unitsOf.
      rewrite (proj2 (N.ltb_lt _ _)) by lia. reflexivity.
Qed.

Lemma toScalars_noBOM s :
  isWellFormed s = true -> noBOM s = true ->
  stripBOM (toScalars s) = toScalars s.
Proof.
  destruct s as [|u rest]; [reflexivity|].
  cbn [isWellFormed toScalars noBOM]. unfold isHigh, isLow.
  intros Hwf Hbom. apply negb_true_iff, N.eqb_neq in Hbom.
  destruct ((0xD800 <=? u)%N && (u <=? 0xDBFF)%N) eqn:Hhigh.
  - apply andb_true_iff in Hhigh as [Hh1 Hh2]. apply N.leb_le in Hh1, Hh2.
    destruct rest as [|v rest']; [discriminate|].
    apply andb_true_iff in Hwf as [Hlow _]. rewrite Hlow.
    cbn [stripBOM]. rewrite (proj2 (N.eqb_neq _ _)); [reflexivity | lia].
  - apply andb_true_iff in Hwf as [Hwf _].
    apply andb_true_iff in Hwf as [Hnotlow _].
    apply negb_true_iff in Hnotlow. rewrite Hnotlow.
    cbn [stripBOM]. rewrite (proj2 (N.eqb_neq _ _) Hbom). reflexivity.
Qed.

(** Encoding and decoding a well-formed string that does not begin
    with U+FEFF gives the string back. *)
Lemma textDecode_textEncode s :
  isWellFormed s = true -> noBOM s = true -> textDecode (textEncode s) = s.
Proof.
  intros Hwf Hbom. unfold textDecode, textEncode.
  destruct (toScalars_wellFormed s Hwf) as [Hsc Hunits].
  rewrite decode_encode_scalars by exact Hsc.
  rewrite toScalars_noBOM by assumption. exact Hunits.
Qed.

(** A surrogate without its pair comes back as U+FFFD, and a leading
    U+FEFF does not come back. *)
Example textDecode_lone_surrogate :
  textDecode (textEncode [0xD800%N]) = [0xFFFD%N].
Proof. vm_compute. reflexivity. Qed.

Example textDecode_leading_BOM :
  textDecode (textEncode (0xFEFF%N :: lit "{}")) = lit "{}".
Proof. vm_compute. reflexivity. Qed.

End Codec.
(** *** Encryption and decryption *)

Section Box.
Context {platform : Platform}.

(** What the sources rely on in tweetnacl and in [Buffer]: [shared] is
    the secret a public key and a secret key agree on (for keys that
    agree on none, being of the wrong size, a value that is no such
    secret); a box opens under every pair that agrees with the pair it
    was made under, and [nacl.box.open] gives a message under no other
    pair: there it gives [null], or throws, as it does on a key of the
    wrong size; base64 text decodes to the bytes it encodes. *)
Variable shared : bytes -> bytes -> bytes.

Hypothesis base64_inverse :
  forall b, bufferFrom (Some (Str (base64 b))) = Ok b.

Hypothesis box_opens :
  forall m nonce pk sk box pk' sk',
    nacl_box m nonce pk sk = Ok box ->
    shared pk' sk' = shared pk sk ->
    nacl_box_open box nonce pk' sk' = Ok (Some m).

Hypothesis box_authentic :
  forall m nonce pk sk box pk' sk' m',
    nacl_box m nonce pk sk = Ok box ->
    nacl_box_open box nonce pk' sk' = Ok (Some m') ->
    shared pk' sk' = shared pk sk.

Lemma encrypt_envelope nonce message pk sk envelope :
  encrypt nonce message pk sk = Ok envelope ->
  exists box,
    nacl_box (textEncode message) nonce pk sk = Ok box
    /\ envelope = {| n := Some (Str (base64 nonce)); c := Some (Str (base64 box)) |}.
Proof.
  unfold encrypt. destruct (nacl_box _ _ _ _) as [box|e]; [|discriminate].
  intros [= <-]. eauto.
Qed.

(** What [decrypt] returns for an envelope of [encrypt], under a pair
    of keys that agrees with the one used: the text the codec makes of
    the message. *)
Lemma decrypt_encrypt_codec nonce message pk sk envelope pk' sk' :
  encrypt nonce message pk sk = Ok envelope ->
  shared pk' sk' = shared pk sk ->
  decrypt envelope pk' sk' = Ok (textDecode (textEncode message)).
Proof.
  intros (box & Hbox & ->)%encrypt_envelope Hkeys.
  unfold decrypt. cbn [n c]. rewrite !base64_inverse.
  rewrite (box_opens _ _ _ _ _ _ _ Hbox Hkeys). reflexivity.
Qed.

(** C2, as the code has it.  For a plaintext that is well-formed and
    does not begin with U+FEFF, [decrypt] gives back what [encrypt] was
    given, under the same keys and under every pair that agrees with
    them (the empty string included); under a pair that does not agree
    [decrypt] returns no string: it throws, its own error where
    [nacl.box.open] gives [null], and otherwise what [nacl.box.open]
    throws. *)
Theorem decrypt_encrypt (nonce : bytes) (plaintext : str) (pk sk : bytes)
    (envelope : EncryptedEnvelope) :
  isWellFormed plaintext = true ->
  noBOM plaintext = true ->
  encrypt nonce plaintext pk sk = Ok envelope ->
  decrypt envelope pk sk = Ok plaintext
  /\ (forall pk' sk', shared pk' sk' = shared pk sk ->
      decrypt envelope pk' sk' = Ok plaintext)
  /\ (forall pk' sk', shared pk' sk' <> shared pk sk ->
      exists err,
        decrypt envelope pk' sk' = Throw err
        /\ (err = decryptionFailed
            \/ exists box, nacl_box_open box nonce pk' sk' = Throw err)).
Proof.
  intros Hwf Hbom Henc.
  assert (forall pk' sk', shared pk' sk' = shared pk sk ->
            decrypt envelope pk' sk' = Ok plaintext) as Hsame.
  { intros pk' sk' Hkeys.
    rewrite (decrypt_encrypt_codec _ _ _ _ _ _ _ Henc Hkeys).
    by rewrite textDecode_textEncode. }
  split; [by apply Hsame|]. split; [exact Hsame|].
  intros pk' sk' Hkeys.
  apply encrypt_envelope in Henc as (box & Hbox & ->).
  unfold decrypt. cbn [n c]. rewrite !base64_inverse.
  destruct (nacl_box_open box nonce pk' sk') as [[m'|]|err] eqn:Hopen.
  - destruct Hkeys. exact (box_authentic _ _ _ _ _ _ _ _ Hbox Hopen).
  - exists decryptionFailed. split; [reflexivity | by left].
  - exists err. split; [reflexivity | right; by exists box].
Qed.

End Box.

(** *** Runs on the miniature box *)

Lemma toy_base64_inverse b :
  @bufferFrom Toy.platform (Some (Str (@base64 Toy.platform b))) = Ok b.
Proof. reflexivity. Qed.

Lemma toy_box_made m nonce pk sk box :
  @nacl_box Toy.platform m nonce pk sk = Ok box ->
  Toy.badSize pk sk = None /\ box = Toy.sealed pk sk ++ m.
Proof.
  cbn [nacl_box Toy.platform]. unfold Toy.box.
  destruct (Toy.badSize pk sk); [discriminate|]. by intros [= <-].
Qed.

Lemma toy_shared_inj pk sk pk' sk' :
  Toy.shared pk' sk' = Toy.shared pk sk -> pk' = pk /\ sk' = sk.
Proof.
  unfold Toy.shared, Toy.sealed. intros [= Hpk Hsk Hkeys].
  apply Nat2N.inj in Hpk. by apply app_inj_1 in Hkeys.
Qed.

Lemma toy_box_opens m nonce pk sk box pk' sk' :
  @nacl_box Toy.platform m nonce pk sk = Ok box ->
  Toy.shared pk' sk' = Toy.shared pk sk ->
  @nacl_box_open Toy.platform box nonce pk' sk' = Ok (Some m).
Proof.
  intros [Hsize ->]%toy_box_made [-> ->]%toy_shared_inj.
  cbn [nacl_box_open Toy.platform]. unfold Toy.box_open. rewrite Hsize.
  rewrite take_app_length, bool_decide_eq_true_2 by done.
  by rewrite drop_app_length.
Qed.

Lemma toy_box_authentic m nonce pk sk box pk' sk' m' :
  @nacl_box Toy.platform m nonce pk sk = Ok box ->
  @nacl_box_open Toy.platform box nonce pk' sk' = Ok (Some m') ->
  Toy.shared pk' sk' = Toy.shared pk sk.
Proof.
  intros [_ ->]%toy_box_made. cbn [nacl_box_open Toy.platform].
  unfold Toy.box_open. destruct (Toy.badSize pk' sk'); [discriminate|].
  case_bool_decide as Hopens; [|discriminate]. intros _.
  unfold Toy.shared, Toy.sealed in *.
  cbn [length app take] in Hopens. injection Hopens as Hpk Hsk Hbody.
  rewrite <- Hpk, <- Hsk. do 2 f_equal.
  apply Nat2N.inj in Hpk, Hsk.
  rewrite <- Hbody, length_app, <- Hpk, <- Hsk, <- length_app.
  by rewrite take_app_length.
Qed.

(** A JSON text under the same keys, and under other keys. *)
Lemma decrypt_encrypt_witness :
  let plaintext := Toy.object [(lit "type", lit "abort")] in
  let pk := lit "phone-public" in
  let sk := lit "server-secret" in
  let envelope :=
    {| n := Some (Str (lit "nonce"));
       c := Some (Str (Toy.sealed pk sk ++ textEncode plaintext)) |} in
  isWellFormed plaintext = true
  /\ noBOM plaintext = true
  /\ @encrypt Toy.platform (lit "nonce") plaintext pk sk = Ok envelope
  /\ @decrypt Toy.platform envelope pk sk = Ok plaintext
  /\ (forall pk' sk', Toy.shared pk' sk' = Toy.shared pk sk ->
      @decrypt Toy.platform envelope pk' sk' = Ok plaintext)
  /\ (forall pk' sk', Toy.shared pk' sk' <> Toy.shared pk sk ->
      exists err,
        @decrypt Toy.platform envelope pk' sk' = Throw err
        /\ (err = decryptionFailed
            \/ exists box,
                 @nacl_box_open Toy.platform box (lit "nonce") pk' sk' = Throw err)).
Proof.
  intros plaintext pk sk envelope.
  assert (isWellFormed plaintext = true) as Hwf by (vm_compute; reflexivity).
  assert (noBOM plaintext = true) as Hbom by reflexivity.
  assert (@encrypt Toy.platform (lit "nonce") plaintext pk sk = Ok envelope)
    as Henc by reflexivity.
  split; [exact Hwf|]. split; [exact Hbom|]. split; [exact Henc|].
  exact (@decrypt_encrypt Toy.platform Toy.shared toy_base64_inverse
           toy_box_opens toy_box_authentic (lit "nonce") plaintext pk sk envelope
           Hwf Hbom Henc).
Defined.

(** Under another secret key the miniature box gives [null] and
    [decrypt] throws its own error; under an empty key it throws, and
    [decrypt] throws the same. *)
Example decrypt_under_other_keys :
  let pk := lit "phone-public" in
  let envelope :=
    {| n := Some (Str (lit "nonce"));
       c := Some (Str (Toy.sealed pk (lit "server-secret") ++ lit "{}")) |} in
  @decrypt Toy.platform envelope pk (lit "other-secret") = Throw decryptionFailed
  /\ @decrypt Toy.platform envelope [] (lit "server-secret")
     = Throw (error "bad public key size").
Proof. vm_compute. split; reflexivity. Qed.

(** C2, counterexample.  The round trip does not hold for every
    string: under the same keys, a surrogate without its pair is U+FFFD
    after [encrypt] and [decrypt], and a text that begins with U+FEFF
    comes back without it. *)
Lemma decrypt_encrypt_changes_some_strings :
  let pk := lit "phone-public" in
  let sk := lit "server-secret" in
  (let plaintext := [0xD800%N] in
   exists envelope,
     @encrypt Toy.platform (lit "nonce") plaintext pk sk = Ok envelope
     /\ @decrypt Toy.platform envelope pk sk = Ok [0xFFFD%N]
     /\ @decrypt Toy.platform envelope pk sk <> Ok plaintext)
  /\ (let plaintext := 0xFEFF%N :: lit "{}" in
      exists envelope,
        @encrypt Toy.platform (lit "nonce") plaintext pk sk = Ok envelope
        /\ @decrypt Toy.platform envelope pk sk = Ok (lit "{}")
        /\ @decrypt Toy.platform envelope pk sk <> Ok plaintext).
Proof.
  intros pk sk. split; intros plaintext; eexists; (split; [reflexivity|]);
    (split; [vm_compute; reflexivity | vm_compute; discriminate]).
Qed.

(** The same on every platform that keeps the contract above, whatever
    the keys, and for a text that begins with U+FEFF. *)
Lemma decrypt_encrypt_not_every_string `{platform : Platform}
    (shared : bytes -> bytes -> bytes) nonce pk sk envelope rest :
  (forall b, bufferFrom (Some (Str (base64 b))) = Ok b) ->
  (forall m nonce pk sk box pk' sk',
      nacl_box m nonce pk sk = Ok box -> shared pk' sk' = shared pk sk ->
      nacl_box_open box nonce pk' sk' = Ok (Some m)) ->
  (encrypt nonce [0xD800%N] pk sk = Ok envelope ->
   decrypt envelope pk sk = Ok [0xFFFD%N])
  /\ (isWellFormed rest = true ->
      encrypt nonce (0xFEFF%N :: rest) pk sk = Ok envelope ->
      decrypt envelope pk sk = Ok rest).
Proof.
  intros Hb64 Hopen. split.
  - intros Henc.
    by rewrite (decrypt_encrypt_codec shared Hb64 Hopen _ _ _ _ _ _ _ Henc eq_refl).
  - intros Hwf Henc.
    rewrite (decrypt_encrypt_codec shared Hb64 Hopen _ _ _ _ _ _ _ Henc eq_refl).
    unfold textDecode, textEncode.
    assert (toScalars (0xFEFF%N :: rest) = 0xFEFF%N :: toScalars rest) as ->
      by reflexivity.
    destruct (toScalars_wellFormed rest Hwf) as [Hsc Hunits].
    rewrite decode_encode_scalars.
    + cbn [stripBOM]. rewrite N.eqb_refl. by rewrite Hunits.
    + constructor; [unfold isScalar; lia | exact Hsc].
Qed.

End CryptoFacts.

(** ** Pages of history, the session list and the archive *)

Module PageFacts.
Import Js Run Store.

Lemma sliceArray_window {A} (l : list A) (b n : Z) :
  (0 <= b)%Z -> (0 <= n)%Z ->
  sliceArray l b (Z.min (b + n) (Z.of_nat (length l)))
  = take (Z.to_nat n) (drop (Z.to_nat b) l).
Proof.
  intros Hb Hn. unfold sliceArray, relativeIndex.
  destruct (Z.ltb_spec b 0) as [?|_]; [lia|].
  destruct (Z.ltb_spec (Z.min (b + n) (Z.of_nat (length l))) 0) as [?|_]; [lia|].
  destruct (Z_le_gt_dec (Z.of_nat (length l)) b) as [Hout|Hin].
  - rewrite !drop_ge by lia. by rewrite !take_nil.
  - replace (Z.to_nat (Z.min b (Z.of_nat (length l)))) with (Z.to_nat b) by lia.
    replace (Z.to_nat (Z.min (Z.min (b + n) (Z.of_nat (length l))) (Z.of_nat (length l))
                       - Z.min b (Z.of_nat (length l))))
      with (Z.to_nat n `min` length (drop (Z.to_nat b) l))
      by (rewrite length_drop; lia).
    rewrite <- take_take. f_equal. by rewrite take_ge.
Qed.

(** The start of the page [getHistoryPage] returns on a history of
    [len] entries. *)
Definition pageStart (len : nat) (limit : Z) (offset : option Z) : Z :=
  match offset with
  | Some o => Z.max 0 o
  | None => Z.max 0 (Z.of_nat len - limit)
  end.

Lemma getHistoryPage_spec sessionId limit offset d all :
  (0 <= limit)%Z ->
  getHistory sessionId d = (Ok all, d) ->
  exists page,
    getHistoryPage sessionId limit offset d = (Ok page, d)
    /\ entries page
       = take (Z.to_nat limit) (drop (Z.to_nat (pageStart (length all) limit offset)) all)
    /\ total page = Z.of_nat (length all)
    /\ Store.offset page = if all is [] then 0%Z else pageStart (length all) limit offset.
Proof.
  intros Hlimit Hall. unfold getHistoryPage, bind. rewrite Hall.
  destruct all as [|e all]; simpl length.
  - eexists. split; [reflexivity|]. simpl. by rewrite drop_nil, take_nil.
  - destruct (Z.eqb_spec (Z.of_nat (S (length all))) 0) as [?|_]; [lia|].
    eexists. split; [reflexivity|]. cbn [entries total Store.offset].
    split; [|done].
    change (S (length all)) with (length (e :: all)).
    fold (pageStart (length (e :: all)) limit offset).
    apply sliceArray_window; [destruct offset; simpl; lia | exact Hlimit].
Qed.

(** A page holds at most [limit] entries, and they are the run of the
    history that begins at the offset asked for, a negative offset
    counting as 0; an offset at or past the end gives an empty page. *)
Theorem getHistoryPage_window (sessionId : str) (limit o : Z) (d : Disk)
    (all : list HistoryEntry) :
  (0 <= limit)%Z ->
  getHistory sessionId d = (Ok all, d) ->
  exists page,
    getHistoryPage sessionId limit (Some o) d = (Ok page, d)
    /\ entries page = take (Z.to_nat limit) (drop (Z.to_nat o) all)
    /\ (Z.of_nat (length (entries page)) <= limit)%Z
    /\ total page = Z.of_nat (length all)
    /\ ((Z.of_nat (length all) <= o)%Z -> entries page = []).
Proof.
  intros Hlimit Hall.
  destruct (getHistoryPage_spec sessionId limit (Some o) d all Hlimit Hall)
    as (page & Hpage & Hentries & Htotal & _).
  exists page. split; [exact Hpage|].
  assert (entries page = take (Z.to_nat limit) (drop (Z.to_nat o) all)) as Hrun.
  { rewrite Hentries. unfold pageStart. do 2 f_equal. lia. }
  split; [exact Hrun|]. split; [|split; [exact Htotal|]].
  - rewrite Hrun, length_take. lia.
  - intros Hpast. rewrite Hrun, drop_ge by lia. by rewrite take_nil.
Qed.

(** Without an offset the page is the newest [limit] entries, all of
    them when the history has no more, and the offset reported is the
    position of its first entry. *)
Theorem getHistoryPage_latest (sessionId : str) (limit : Z) (d : Disk)
    (all : list HistoryEntry) :
  (0 <= limit)%Z ->
  getHistory sessionId d = (Ok all, d) ->
  exists page,
    getHistoryPage sessionId limit None d = (Ok page, d)
    /\ entries page = drop (length all - Z.to_nat limit) all
    /\ Store.offset page = Z.of_nat (length all - Z.to_nat limit)
    /\ drop (Z.to_nat (Store.offset page)) all = entries page.
Proof.
  intros Hlimit Hall.
  destruct (getHistoryPage_spec sessionId limit None d all Hlimit Hall)
    as (page & Hpage & Hentries & _ & Hoffset).
  exists page. split; [exact Hpage|].
  assert (Z.to_nat (pageStart (length all) limit None) = length all - Z.to_nat limit)
    as Hstart by (unfold pageStart; lia).
  assert (entries page = drop (length all - Z.to_nat limit) all) as Hrun.
  { rewrite Hentries, Hstart. apply take_ge. rewrite length_drop. lia. }
  assert (Store.offset page = Z.of_nat (length all - Z.to_nat limit)) as Hoff.
  { rewrite Hoffset. destruct all; [simpl; lia | unfold pageStart; simpl length; lia]. }
  split; [exact Hrun|]. split; [exact Hoff|].
  rewrite Hoff, Hrun. f_equal. lia.
Qed.

(** The entries of the page at [offset], nothing when the call
    throws. *)
Definition pageAt (sessionId : str) (limit : Z) (d : Disk) (offset : Z)
    : list HistoryEntry :=
  match fst (getHistoryPage sessionId limit (Some offset) d) with
  | Ok page => entries page
  | Throw _ => []
  end.

Lemma pages_cover {A} (l : list A) (n k : nat) :
  0 < n -> length l <= k * n ->
  mjoin ((fun i => take n (drop (i * n) l)) <$> seq 0 k) = l.
Proof.
  intros Hn. revert l. induction k as [|k IH]; intros l Hlen.
  - destruct l; [done | simpl in Hlen; lia].
  - rewrite seq_S, fmap_app, join_app. simpl. rewrite app_nil_r.
    destruct (decide (length l <= k * n)) as [Hshort|Hlong].
    + rewrite (IH l Hshort), drop_ge by lia. by rewrite take_nil, app_nil_r.
    + transitivity (take (k * n) l ++ drop (k * n) l); [|apply take_drop]. f_equal.
      * rewrite <- (IH (take (k * n) l)) by (rewrite length_take; lia).
        f_equal. apply list_fmap_ext. intros j i Hi.
        apply lookup_seq in Hi as [-> Hlt]. simpl.
        rewrite skipn_firstn_comm, take_take.
        f_equal. assert (j * n + n <= k * n) by nia. lia.
      * apply take_ge. rewrite length_drop. simpl in Hlen. lia.
Qed.

(** Asking for the pages at offsets 0, [limit], 2 [limit], ... up to
    the total gives every entry of the history once, in order. *)
Theorem getHistoryPage_pages_cover (sessionId : str) (limit : Z) (d : Disk)
    (all : list HistoryEntry) (k : nat) :
  (0 < limit)%Z ->
  getHistory sessionId d = (Ok all, d) ->
  (Z.of_nat (length all) <= Z.of_nat k * limit)%Z ->
  mjoin ((fun i => pageAt sessionId limit d (Z.of_nat i * limit)) <$> seq 0 k) = all.
Proof.
  intros Hlimit Hall Hk.
  transitivity (mjoin ((fun i => take (Z.to_nat limit) (drop (i * Z.to_nat limit) all))
                       <$> seq 0 k)); [|apply pages_cover; nia].
  f_equal. apply list_fmap_ext. intros j i _. unfold pageAt.
  destruct (getHistoryPage_spec sessionId limit (Some (Z.of_nat i * limit)%Z) d all)
    as (page & -> & Hentries & _); [lia | exact Hall|].
  simpl. rewrite Hentries. unfold pageStart. do 2 f_equal. nia.
Qed.

(** A session with three entries in its history. *)
Definition threeTurns : list HistoryEntry :=
  [plain (lit "user") (lit "list the files") (lit "t1");
   plain (lit "assistant") (lit "There are two.") (lit "t2");
   plain (lit "user") (lit "thanks") (lit "t3")].

Definition oneSession : Disk :=
  {| history := {[ historyFile (lit "s1") := Entries threeTurns ]};
     sessions := []; todos := ∅ |}.

Lemma getHistoryPage_window_witness :
  (0 <= 2)%Z
  /\ getHistory (lit "s1") oneSession = (Ok threeTurns, oneSession)
  /\ exists page,
       getHistoryPage (lit "s1") 2 (Some 1%Z) oneSession = (Ok page, oneSession)
       /\ entries page = take 2 (drop 1 threeTurns)
       /\ (Z.of_nat (length (entries page)) <= 2)%Z
       /\ total page = 3%Z
       /\ ((3 <= 1)%Z -> entries page = []).
Proof.
  assert (0 <= 2)%Z as Hlimit by lia.
  assert (getHistory (lit "s1") oneSession = (Ok threeTurns, oneSession)) as Hall
    by reflexivity.
  split; [exact Hlimit|]. split; [exact Hall|].
  exact (getHistoryPage_window (lit "s1") 2 1 oneSession threeTurns Hlimit Hall).
Defined.

Lemma getHistoryPage_latest_witness :
  (0 <= 2)%Z
  /\ getHistory (lit "s1") oneSession = (Ok threeTurns, oneSession)
  /\ exists page,
       getHistoryPage (lit "s1") 2 None oneSession = (Ok page, oneSession)
       /\ entries page = drop 1 threeTurns
       /\ offset page = 1%Z
       /\ drop (Z.to_nat (offset page)) threeTurns = entries page.
Proof.
  assert (0 <= 2)%Z as Hlimit by lia.
  assert (getHistory (lit "s1") oneSession = (Ok threeTurns, oneSession)) as Hall
    by reflexivity.
  split; [exact Hlimit|]. split; [exact Hall|].
  exact (getHistoryPage_latest (lit "s1") 2 oneSession threeTurns Hlimit Hall).
Defined.

Lemma getHistoryPage_pages_cover_witness :
  (0 < 2)%Z
  /\ getHistory (lit "s1") oneSession = (Ok threeTurns, oneSession)
  /\ (Z.of_nat (length threeTurns) <= Z.of_nat 2 * 2)%Z
  /\ mjoin ((fun i => pageAt (lit "s1") 2 oneSession (Z.of_nat i * 2)) <$> seq 0 2)
     = threeTurns.
Proof.
  assert (0 < 2)%Z as Hlimit by lia.
  assert (getHistory (lit "s1") oneSession = (Ok threeTurns, oneSession)) as Hall
    by reflexivity.
  assert (Z.of_nat (length threeTurns) <= Z.of_nat 2 * 2)%Z as Hk by (simpl; lia).
  split; [exact Hlimit|]. split; [exact Hall|]. split; [exact Hk|].
  exact (getHistoryPage_pages_cover (lit "s1") 2 oneSession threeTurns 2 Hlimit Hall Hk).
Defined.

(** With a negative limit the end of the slice counts from the end of
    the history: the page asked for with limit -1 holds two entries. *)
Example getHistoryPage_negative_limit :
  (fun r => match fst r with Ok page => length (entries page) | Throw _ => 0 end)
    (getHistoryPage (lit "s1") (-1) (Some 0%Z) oneSession) = 2.
Proof. reflexivity. Qed.

End PageFacts.

(** ** The session list and the archive *)

Module SessionListFacts.
Import Js Run Store.

Definition hasId (k : str) (s : SessionInfo) : bool := bool_decide (id s = k).

(** The outcome of [arr.find(p)] followed by an update of the element
    found, on the array itself. *)
Definition updated {A} (p : A -> bool) (f : A -> A) (l : list A) : list A :=
  default l (updateFirst p f l).

Lemma find_updated_same {A} (p : A -> bool) f l :
  (forall x, p x = true -> p (f x) = true) ->
  List.find p (updated p f l) = f <$> List.find p l.
Proof.
  intros Hp. unfold updated. induction l as [|x l IH]; [done|]. simpl.
  destruct (p x) eqn:Hx; simpl.
  - by rewrite (Hp x Hx).
  - destruct (updateFirst p f l) as [l'|]; simpl in *; by rewrite Hx.
Qed.

Lemma find_updated_other {A} (p q : A -> bool) f l :
  (forall x, p x = true -> q x = false /\ q (f x) = false) ->
  List.find q (updated p f l) = List.find q l.
Proof.
  intros Hq. unfold updated. induction l as [|x l IH]; [done|]. simpl.
  destruct (p x) eqn:Hx; simpl.
  - destruct (Hq x Hx) as [-> ->]. done.
  - destruct (updateFirst p f l) as [l'|]; simpl in *; [|done].
    destruct (q x); [done | exact IH].
Qed.

Lemma ids_updated (p : SessionInfo -> bool) f l :
  (forall x, p x = true -> id (f x) = id x) ->
  id <$> updated p f l = id <$> l.
Proof.
  intros Hid. unfold updated. induction l as [|x l IH]; [done|]. simpl.
  destruct (p x) eqn:Hx; simpl.
  - by rewrite (Hid x Hx).
  - destruct (updateFirst p f l) as [l'|]; simpl in *; [|done].
    f_equal. exact IH.
Qed.

Lemma find_app_miss {A} (p : A -> bool) l x :
  List.find p (l ++ [x]) =
    match List.find p l with
    | Some y => Some y
    | None => if p x then Some x else None
    end.
Proof.
  induction l as [|y l IH]; simpl; [done|].
  destruct (p y); [done | exact IH].
Qed.

Lemma updateFirst_None {A} (p : A -> bool) f l :
  updateFirst p f l = None <-> List.find p l = None.
Proof.
  induction l as [|x l IH]; simpl; [done|].
  destruct (p x); [done|].
  destruct (updateFirst p f l); simpl; [|tauto].
  split; [done|]. intros H. apply IH in H. done.
Qed.

Lemma ids_updated_in (p : SessionInfo -> bool) f l k :
  k ∈ id <$> updated p f l -> k ∈ id <$> l \/ exists x, p x = true /\ k = id (f x).
Proof.
  unfold updated. induction l as [|x l IH]; simpl; [auto|].
  destruct (p x) eqn:Hx; simpl.
  - intros [->|Hin]%elem_of_cons; [eauto|].
    left. by apply elem_of_cons; right.
  - destruct (updateFirst p f l) as [l'|]; simpl in *; [|auto].
    intros [->|Hin]%elem_of_cons; [left; by apply elem_of_cons; left|].
    destruct (IH Hin) as [?|?]; [left; by apply elem_of_cons; right | auto].
Qed.

Lemma ids_renamed (p : SessionInfo -> bool) f l newId :
  (forall x, id (f x) = newId) ->
  newId ∉ id <$> l -> NoDup (id <$> l) -> NoDup (id <$> updated p f l).
Proof.
  intros Hf. unfold updated. induction l as [|x l IH]; simpl; [done|].
  intros Hnew Hnd. apply not_elem_of_cons in Hnew as [Hx Hnew].
  apply NoDup_cons in Hnd as [Hfresh Hnd].
  destruct (p x) eqn:Hpx; simpl.
  - rewrite Hf. by apply NoDup_cons.
  - pose proof (ids_updated_in p f l (id x)) as Hin. unfold updated in Hin.
    specialize (IH Hnew Hnd).
    destruct (updateFirst p f l) as [l'|]; simpl in *; [|by apply NoDup_cons].
    apply NoDup_cons. split; [|exact IH].
    intros H. destruct (Hin H) as [?|(y & _ & Hy)]; [done|].
    rewrite Hf in Hy. congruence.
Qed.

(** What [saveSession] leaves in the list: the session saved, in the
    place of the first one with its id or at the end. *)
Lemma sessions_saveSession session d :
  sessions (saveSession session d) =
    match List.find (hasId (id session)) (sessions d) with
    | Some _ => updated (hasId (id session)) (fun _ => session) (sessions d)
    | None => sessions d ++ [session]
    end.
Proof.
  unfold saveSession, updated. fold (hasId (id session)).
  destruct (updateFirst (hasId (id session)) (fun _ => session) (sessions d))
    as [l|] eqn:Hup; simpl.
  - destruct (List.find (hasId (id session)) (sessions d)) eqn:Hfind; [done|].
    pose proof (proj2 (updateFirst_None _ (fun _ => session) _) Hfind). congruence.
  - apply updateFirst_None in Hup. by rewrite Hup.
Qed.

(** A session that has been saved is the one [getSession] finds under
    its id, whether it replaced an older one or was added; the sessions
    under other ids are found as before. *)
Theorem getSession_saveSession (session : SessionInfo) (k : str) (d : Disk) :
  getSession k (saveSession session d) =
    if bool_decide (k = id session) then Some session else getSession k d.
Proof.
  unfold getSession. fold (hasId k). rewrite sessions_saveSession.
  destruct (List.find (hasId (id session)) (sessions d)) as [old|] eqn:Hold.
  - case_bool_decide as Hk.
    + subst k. rewrite find_updated_same, Hold; [done|].
      intros x _. unfold hasId. by rewrite bool_decide_eq_true_2.
    + apply find_updated_other. intros x Hx. unfold hasId in *.
      apply bool_decide_eq_true_1 in Hx.
      split; apply bool_decide_eq_false_2; congruence.
  - rewrite find_app_miss. unfold hasId at 2.
    case_bool_decide as Hk.
    + subst k. rewrite Hold. by rewrite bool_decide_eq_true_2.
    + rewrite bool_decide_eq_false_2 by congruence.
      by destruct (List.find (hasId k) (sessions d)).
Qed.

Lemma find_filter_ne k sid (l : list SessionInfo) :
  List.find (hasId k) (filter (fun s : SessionInfo => id s <> sid) l) =
    if bool_decide (k = sid) then None else List.find (hasId k) l.
Proof.
  induction l as [|x l IH]; simpl.
  - by case_bool_decide.
  - destruct (decide (id x = sid)) as [Hx|Hx].
    + rewrite filter_cons_False by (intros H; by apply H).
      rewrite IH. unfold hasId at 2. case_bool_decide as Hk; [done|].
      rewrite bool_decide_eq_false_2 by congruence. done.
    + rewrite filter_cons_True by exact Hx. simpl. rewrite IH.
      unfold hasId at 1 3. case_bool_decide as Hk; [|done].
      rewrite bool_decide_eq_false_2 by congruence. done.
Qed.

(** After [deleteSession] no session is found under the id, however
    many the list held, and the other sessions are found as before. *)
Theorem getSession_deleteSession (sid k : str) (d : Disk) :
  getSession k (deleteSession sid d) =
    if bool_decide (k = sid) then None else getSession k d.
Proof. unfold getSession, deleteSession. simpl. apply find_filter_ne. Qed.

(** The ids of the list are pairwise distinct. *)
Definition distinctIds (d : Disk) : Prop := NoDup (id <$> sessions d).

(** The calls that write the session list keep its ids distinct;
    [remapSession] does when the new id is not in the list. *)
Theorem session_ids_stay_distinct (d : Disk) (session : SessionInfo)
    (now sid preview oldId newId : str) (usage : option UsageInfo) :
  distinctIds d ->
  distinctIds (saveSession session d)
  /\ distinctIds (deleteSession sid d)
  /\ distinctIds (updateSessionActivity now sid preview usage d)
  /\ (newId ∉ id <$> sessions d -> distinctIds (remapSession now oldId newId d)).
Proof.
  unfold distinctIds. intros Hnd. split; [|split; [|split]].
  - rewrite sessions_saveSession.
    destruct (List.find (hasId (id session)) (sessions d)) as [old|] eqn:Hold.
    + rewrite ids_updated; [done|]. intros x Hx.
      by apply bool_decide_eq_true_1 in Hx.
    + rewrite fmap_app. simpl. apply NoDup_app. split; [done|].
      split; [|apply NoDup_singleton].
      intros k Hk Hin. apply list_elem_of_singleton in Hin. subst k.
      apply list_elem_of_fmap in Hk as (x & Hid & Hx).
      apply list_elem_of_In in Hx.
      apply (find_none _ _ Hold) in Hx. unfold hasId in Hx.
      apply bool_decide_eq_false_1 in Hx. congruence.
  - unfold deleteSession. simpl.
    eapply sublist_NoDup; [exact Hnd|].
    apply fmap_sublist, sublist_filter.
  - unfold updateSessionActivity.
    match goal with |- context [updateFirst ?p ?f ?l] =>
      pose proof (ids_updated p f l) as Hids; unfold updated in Hids;
      destruct (updateFirst p f l) end; simpl in *; [|done].
    rewrite Hids; done.
  - intros Hnew. unfold remapSession.
    match goal with |- context [updateFirst ?p ?f ?l] =>
      pose proof (ids_renamed p f l newId (fun _ => eq_refl) Hnew Hnd) as Hids;
      unfold updated in Hids; destruct (updateFirst p f l) end; simpl in *; done.
Qed.







Definition aSession (sid : string) : SessionInfo :=
  {| id := lit sid; title := lit "list the files"; cwd := lit "/home/me";
     createdAt := lit "t0"; lastActive := lit "t0"; messagePreview := [];
     lastUsage := None |}.

Definition twoSessions : Disk :=
  {| history := ∅; sessions := [aSession "s1"; aSession "s2"]; todos := ∅ |}.

Lemma session_ids_stay_distinct_witness :
  distinctIds twoSessions
  /\ distinctIds (saveSession (aSession "s2") twoSessions)
  /\ distinctIds (deleteSession (lit "s1") twoSessions)
  /\ distinctIds (updateSessionActivity (lit "t1") (lit "s1") (lit "done") None twoSessions)
  /\ (lit "s3" ∉ id <$> sessions twoSessions ->
      distinctIds (remapSession (lit "t1") (lit "s1") (lit "s3") twoSessions)).
Proof.
  assert (distinctIds twoSessions) as Hnd.
  { unfold distinctIds. simpl. apply NoDup_cons. split.
    - intros H. apply list_elem_of_singleton in H. discriminate.
    - apply NoDup_singleton. }
  split; [exact Hnd|].
  exact (session_ids_stay_distinct twoSessions (aSession "s2") (lit "t1") (lit "s1")
           (lit "done") (lit "s1") (lit "s3") None Hnd).
Defined.

(** [remapSession] to an id that is already in the list leaves two
    sessions under it. *)
Example remapSession_to_used_id :
  id <$> sessions (remapSession (lit "t1") (lit "s1") (lit "s2") twoSessions)
  = [lit "s2"; lit "s2"].
Proof. reflexivity. Qed.

End SessionListFacts.

(** ** The relay tunnel: what it writes and what it hands on *)

Module TunnelFacts.
Import Js Run Crypto Relay RelayFacts CryptoFacts.

Section WithPlatform.
Context {platform : Platform}.
Variable onMessage : val -> outcome unit.

Local Abbreviation step := (Relay.step onMessage).
Local Abbreviation run := (Relay.run onMessage).
Local Abbreviation handleRelayMessage := (Relay.handleRelayMessage onMessage).

Ltac branches :=
  repeat match goal with
  | |- context [match ?x with _ => _ end] =>
      lazymatch x with
      | context [match _ with _ => _ end] => fail
      | _ => destruct x eqn:?
      end
  end.

Ltac handlers :=
  unfold Relay.step, Relay.handle, Relay.onMessageEvent, connect, onOpen, onClose,
    send, close, scheduleReconnect, tryCatch, bind, setStatus, act, modify,
    read, ret, Relay.lift, when, throw in *.

(** A property of the client that every event keeps holds after any
    run of events. *)
Lemma run_keeps (P : RelayClient -> Prop) :
  (forall r ev, P r -> P (step r ev)) ->
  forall evs r, P r -> P (run r evs).
Proof.
  intros Hstep evs. induction evs as [|ev evs IH]; intros r Hr; simpl; [exact Hr|].
  apply IH, Hstep, Hr.
Qed.

(** *** After [close()] *)

(** The effects by which the client reaches out: a new socket, a
    timer, a frame written to the socket. *)
Definition reachesOut (e : Effect) : bool :=
  match e with
  | NewSocket | SetTimeout _ | WsSend _ | WsSendEnvelope _ | WsSendAck => true
  | _ => false
  end.

Definition outward (r : RelayClient) : list Effect :=
  List.filter reachesOut (effects r).

(** The client has been closed and holds no socket; [out] is what it
    has done outward. *)
Definition shut (out : list Effect) (r : RelayClient) : Prop :=
  closed r = true /\ ws r = None /\ outward r = out.

Ltac quiet :=
  unfold shut, outward in *; simpl;
  rewrite ?List.filter_app; simpl; rewrite ?app_nil_r.

Lemma handleRelayMessage_shut out parsed r :
  shut out r -> shut out (snd (handleRelayMessage parsed r)).
Proof.
  intros (Hc & Hws & <-). unfold Relay.handleRelayMessage.
  destruct parsed; try done;
    unfold tryCatch, bind, setStatus, act, modify, read, ret, Relay.lift, when;
    simpl; rewrite ?Hws; simpl.
  all: branches; unfold ret in *; simplify_eq/=; quiet; try done.
  all: match goal with
       | H : bool_decide (is_Some (ws _)) = true, Hws : ws _ = None |- _ =>
           apply bool_decide_eq_true in H; rewrite Hws in H; by destruct H
       end.
Qed.

Lemma step_shut out r ev : shut out r -> shut out (step r ev).
Proof.
  intros Hshut. destruct ev as [ctor| |raw| | |nonce msg|].
  3: { unfold Relay.step, Relay.handle, Relay.onMessageEvent, tryCatch, bind, Relay.lift.
       destruct (jsonParse raw) as [parsed|e]; simpl.
       - pose proof (handleRelayMessage_shut out parsed r Hshut) as H.
         destruct (handleRelayMessage parsed r) as [[?|?] r']; simpl in *;
           [exact H|]. unfold act, modify. simpl. revert H. quiet. done.
       - unfold act, modify. simpl. revert Hshut. quiet. done. }
  all: destruct Hshut as (Hc & Hws & Hout); handlers; simpl;
    rewrite ?Hc, ?Hws; simpl; branches; handlers; simplify_eq/=; quiet; done.
Qed.

(** Once [close()] has been called the client never reaches out again:
    whatever events follow (a timer that fires, events of the old
    socket, calls of [send]), it stays closed, holds no socket, opens
    none, sets no timer and writes no frame. *)
Theorem close_is_final (r : RelayClient) (evs : list Event) :
  let r' := run (step r CloseCall) evs in
  closed r' = true /\ ws r' = None /\ outward r' = outward r.
Proof.
  apply (run_keeps (shut (outward r))); [apply step_shut|].
  unfold shut. handlers. simpl. branches; handlers; simplify_eq/=; quiet; done.
Qed.

(** *** The virtual socket *)

(** The virtual socket is open whenever the client is paired, and the
    peer's key is there whenever the virtual socket is open. *)
Definition ready (r : RelayClient) : Prop :=
  (status r = paired -> virtualOpen r = true)
  /\ (virtualOpen r = true -> is_Some (phonePublicKey r)).

Lemma handleRelayMessage_ready parsed r :
  ready r -> ready (snd (handleRelayMessage parsed r)).
Proof.
  unfold Relay.handleRelayMessage.
  destruct parsed; try done;
    unfold ready, tryCatch, bind, setStatus, act, modify, read, ret,
      Relay.lift, when in *; simpl.
  all: branches; unfold ret in *; simplify_eq/=; try done; eauto.
  all: intros [H1 H2]; split; try done; intros ?; eauto.
  all: match goal with H : phonePublicKey _ = _ |- _ => rewrite H; eauto end.
Qed.

Lemma step_ready r ev : ready r -> ready (step r ev).
Proof.
  destruct ev as [ctor| |raw| | |nonce msg|].
  3: { intros Hinv. unfold Relay.step, Relay.handle, Relay.onMessageEvent, tryCatch, bind,
         Relay.lift.
       destruct (jsonParse raw) as [parsed|e]; simpl; [|exact Hinv].
       pose proof (handleRelayMessage_ready parsed r Hinv) as H.
       destruct (handleRelayMessage parsed r) as [[?|?] r']; exact H. }
  all: unfold ready; handlers; simpl.
  all: branches; unfold ret in *; simplify_eq/=; try done; eauto.
  all: intros [H1 H2]; split; try done; intros ?; eauto.
  all: match goal with H : phonePublicKey _ = _ |- _ => rewrite H; eauto end.
Qed.

(** With the peer's key, [send] writes an envelope, or nothing when
    the socket is not open, or throws what [encrypt] threw; the client
    is otherwise as it was. *)
Lemma send_with_key nonce msg r key :
  phonePublicKey r = Some key ->
  send nonce msg r = (Ok tt, r)
  \/ (exists envelope, send nonce msg r = (Ok tt, emit (WsSendEnvelope envelope) r))
  \/ (exists e, send nonce msg r = (Throw e, r)).
Proof.
  intros Hkey. unfold send, bind, read, ret, act, modify. simpl. rewrite Hkey.
  destruct (ws r) as [[]|]; simpl; auto.
  destruct (encrypt _ _ _ _) as [envelope|e]; eauto.
Qed.

(** In every state the client reaches from its construction the
    virtual socket is open when the status is [paired], and when the
    virtual socket is open the peer's key is there: what is then
    written through the virtual socket leaves as one envelope, or not
    at all, and never in the clear. *)
Theorem virtual_socket_sends_sealed (kp : KeyPair) (evs : list Event)
    (nonce nonce' : bytes) (data : str) :
  let r := run (new kp) evs in
  (status r = paired -> virtualOpen r = true)
  /\ (virtualOpen r = true ->
      is_Some (phonePublicKey r)
      /\ (snd (virtualSocketSend nonce nonce' data r) = r
          \/ exists envelope,
               snd (virtualSocketSend nonce nonce' data r)
               = emit (WsSendEnvelope envelope) r)).
Proof.
  intros r.
  assert (ready r) as [Hpaired Hopen].
  { apply (run_keeps ready); [apply step_ready|]. split; discriminate. }
  split; [exact Hpaired|]. intros Hvirtual.
  destruct (Hopen Hvirtual) as [key Hkey]. split; [eauto|].
  unfold virtualSocketSend, tryCatch, bind, Relay.lift.
  destruct (jsonParse data) as [msg|e].
  - destruct (send_with_key nonce (Some msg) r key Hkey)
      as [->|[[envelope ->]|[e ->]]]; simpl; eauto.
    destruct (send_with_key nonce' (Some (Obj [(lit "raw", Str data)])) r key Hkey)
      as [->|[[envelope ->]|[e' ->]]]; simpl; eauto.
  - destruct (send_with_key nonce' (Some (Obj [(lit "raw", Str data)])) r key Hkey)
      as [->|[[envelope ->]|[e' ->]]]; simpl; eauto.
Qed.

Lemma send_throws nonce msg r key err :
  ws r = Some true ->
  phonePublicKey r = Some key ->
  (forall m n, nacl_box m n key (secretKey (keyPair r)) = Throw err) ->
  send nonce msg r = (Throw err, r).
Proof.
  intros Hws Hkey Hbox. unfold send, bind, read. simpl. rewrite Hws, Hkey.
  unfold encrypt. by rewrite Hbox.
Qed.

(** The virtual socket throws what [nacl.box] throws.  The key of a
    [key_exchange] frame is stored as it decodes, whatever its size,
    and the virtual socket is opened; when [nacl.box] throws on that
    key, as it does on a key of the wrong size, every [send] on the
    virtual socket throws the same error and writes nothing: the
    [catch] of the virtual socket sends again, under the same key. *)
Theorem virtual_socket_send_rethrows (r : RelayClient) (parsed : val) (key : bytes)
    (err : Error) (nonce nonce' : bytes) (data : str) :
  ws r = Some true ->
  get (lit "type") parsed = Some (Str (lit "key_exchange")) ->
  fromBase64 (get (lit "pubkey") parsed) = Ok key ->
  (forall m n, nacl_box m n key (secretKey (keyPair r)) = Throw err) ->
  let r' := snd (handleRelayMessage parsed r) in
  phonePublicKey r' = Some key
  /\ virtualOpen r' = true
  /\ status r' = paired
  /\ virtualSocketSend nonce nonce' data r' = (Throw err, r').
Proof.
  intros Hws Htype Hpub Hbox r'.
  assert (r' = emit (Log "Key exchange complete")
                 (emit WsSendAck
                    (with_virtualOpen true
                       (emit (StatusChange paired)
                          (with_status paired
                             (with_phonePublicKey (Some key)
                                (emit (Log "Received phone public key") r))))))) as Hr'.
  { unfold r', Relay.handleRelayMessage. destruct parsed; try discriminate Htype.
    rewrite Htype. cbn -[get lit].
    unfold bind, act, modify, Relay.lift, setStatus, read, when. cbn -[get lit].
    rewrite Hpub. cbn -[get lit]. unfold bind, modify. cbn -[get lit].
    rewrite (bool_decide_eq_false_2 (lit "key_exchange" = lit "peer_connected"))
      by (vm_compute; discriminate).
    rewrite (bool_decide_eq_false_2 (lit "key_exchange" = lit "peer_disconnected"))
      by (vm_compute; discriminate).
    rewrite bool_decide_eq_true_2 by reflexivity. cbn -[get lit].
    rewrite Hws. reflexivity. }
  split; [by rewrite Hr'|]. split; [by rewrite Hr'|]. split; [by rewrite Hr'|].
  assert (forall n msg, send n msg r' = (Throw err, r')) as Hsend.
  { intros n msg. apply (send_throws n msg r' key err); rewrite Hr'; simpl; auto. }
  unfold virtualSocketSend, tryCatch, bind, Relay.lift.
  destruct (jsonParse data) as [msg|e]; by rewrite ?Hsend.
Qed.

(** *** The reconnect delay *)

Definition inBounds (d : Z) : Prop := (1000 <= d <= 30000)%Z.

(** The delay is within its bounds, and so was every timer set. *)
Definition bounded (r : RelayClient) : Prop :=
  inBounds (reconnectDelay r) /\ Forall inBounds (timeouts r).

Ltac timers :=
  unfold bounded, inBounds, timeouts in *; simpl;
  rewrite ?omap_app; simpl; rewrite ?app_nil_r.

Lemma step_bounded r ev : bounded r -> bounded (step r ev).
Proof.
  intros Hb. destruct ev as [ctor| |raw| | |nonce msg|].
  3: { unfold Relay.step, Relay.handle, Relay.onMessageEvent, tryCatch, bind, Relay.lift.
       destruct (jsonParse raw) as [parsed|e]; simpl.
       - pose proof (handleRelayMessage_quiet onMessage parsed r) as (_ & Hd & Ht).
         destruct (handleRelayMessage parsed r) as [[?|?] r']; simpl in *;
           unfold act, modify; simpl; unfold bounded in *;
           rewrite ?timeouts_emit, ?app_nil_r; simpl; rewrite ?app_nil_r, ?Hd, ?Ht;
           exact Hb.
       - unfold act, modify. simpl. unfold bounded in *.
         rewrite timeouts_emit, app_nil_r. exact Hb. }
  all: destruct Hb as [Hd Ht]; handlers; simpl; branches; handlers;
    simplify_eq/=; timers; rewrite ?Forall_app, ?Forall_singleton;
    repeat split; try done; try lia.
Qed.

(** In every state the client reaches from its construction the
    reconnect delay is between one second and thirty, and no timer was
    ever set for less or for more. *)
Theorem reconnect_delay_bounded (kp : KeyPair) (evs : list Event) :
  let r := run (new kp) evs in
  (1000 <= reconnectDelay r <= 30000)%Z
  /\ Forall (fun d => 1000 <= d <= 30000)%Z (timeouts r).
Proof.
  apply (run_keeps bounded); [apply step_bounded|].
  split; [unfold inBounds; simpl; lia | constructor].
Qed.

(** *** What reaches [onMessage] *)

(** The messages handed to [opts.onMessage] so far, in order. *)
Definition deliveries (r : RelayClient) : list val :=
  omap (fun e => match e with Deliver m => Some m | _ => None end) (effects r).

Lemma deliveries_emit e r :
  deliveries (emit e r) =
    deliveries r ++ match e with Deliver m => [m] | _ => [] end.
Proof.
  unfold deliveries. simpl. rewrite omap_app. destruct e; reflexivity.
Qed.

Ltac handed :=
  unfold deliveries in *; simpl; rewrite ?omap_app; simpl; rewrite ?app_nil_r.

(** The frame is an encrypted one that opens under the key the client
    holds, to the text of [msg]. *)
Definition opensTo (parsed : val) (r : RelayClient) (msg : val) : Prop :=
  isEncryptedFrame parsed = true
  /\ exists key plaintext,
       phonePublicKey r = Some key
       /\ decrypt {| n := get (lit "n") parsed; c := get (lit "c") parsed |}
                  key (secretKey (keyPair r)) = Ok plaintext
       /\ jsonParse plaintext = Ok msg.

Lemma handleRelayMessage_delivers parsed r :
  let r' := snd (handleRelayMessage parsed r) in
  deliveries r' = deliveries r
  \/ exists msg, opensTo parsed r msg /\ deliveries r' = deliveries r ++ [msg].
Proof.
  unfold Relay.handleRelayMessage, opensTo, isEncryptedFrame.
  destruct parsed; [by left|..].
  all: destruct (is_str _ (lit "peer_connected")) eqn:H1;
    [left; unfold bind, setStatus, act, modify; handed; done|].
  all: destruct (is_str _ (lit "peer_disconnected")) eqn:H2;
    [left; unfold bind, setStatus, act, modify; handed; done|].
  all: destruct (is_str _ (lit "key_exchange")) eqn:H3;
    [left; unfold bind, setStatus, act, modify, Relay.lift, when, read, ret;
     cbn -[get lit fromBase64];
     destruct (fromBase64 _); cbn -[get lit];
     try destruct (bool_decide _); handed; done|].
  all: destruct (truthy_val _ && truthy_val _) eqn:H4;
    [|left; unfold act, modify; handed; done].
  all: unfold bind, read, ret; cbn -[get decrypt lit].
  all: destruct (phonePublicKey r) as [key|] eqn:Hkey;
    [|left; unfold act, modify; handed; done].
  all: unfold tryCatch, bind, Relay.lift.
  all: destruct (decrypt _ key _) as [plaintext|e] eqn:Hdec;
    [|left; unfold act, modify; handed; done].
  all: destruct (jsonParse plaintext) as [msg|e] eqn:Hmsg;
    [|left; unfold act, modify; handed; done].
  all: right; exists msg; split; [split; [done | eauto]|].
  all: unfold act, modify; cbn -[get lit]; destruct (onMessage msg); handed; done.
Qed.

(** Whatever happens to the client, a message is handed to
    [opts.onMessage] only for a frame of the socket that is an
    encrypted one (not a control frame), that opens under the peer key
    the client holds at that moment, and whose text parses; the message
    is the value parsed, and it is handed over once. *)
Theorem delivers_only_decrypted (r : RelayClient) (ev : Event) :
  deliveries (step r ev) = deliveries r
  \/ exists raw parsed msg,
       ev = Message raw
       /\ jsonParse raw = Ok parsed
       /\ opensTo parsed r msg
       /\ deliveries (step r ev) = deliveries r ++ [msg].
Proof.
  destruct ev as [ctor| |raw| | |nonce msg|].
  3: { unfold Relay.step, Relay.handle, Relay.onMessageEvent, tryCatch, bind, Relay.lift.
       destruct (jsonParse raw) as [parsed|e] eqn:Hraw; simpl.
       - destruct (handleRelayMessage_delivers parsed r) as [Hsame|(msg & Hopens & Hmore)].
         + left. destruct (handleRelayMessage parsed r) as [[?|?] r']; simpl in *;
             unfold act, modify; simpl; rewrite ?deliveries_emit, ?app_nil_r; done.
         + right. exists raw, parsed, msg.
           split; [reflexivity|]. split; [exact Hraw|]. split; [exact Hopens|].
           destruct (handleRelayMessage parsed r) as [[?|?] r']; simpl in *;
             unfold act, modify; simpl; rewrite ?deliveries_emit, ?app_nil_r; done.
       - left. unfold act, modify. simpl. by rewrite deliveries_emit, app_nil_r. }
  all: left; handlers; simpl; branches; handlers; simplify_eq/=; handed; done.
Qed.

End WithPlatform.

(** *** What the peer reads *)

Section Sealed.
Context {platform : Platform}.

(** The contract of tweetnacl and of [Buffer], as for [decrypt] after
    [encrypt]. *)
Variable shared : bytes -> bytes -> bytes.

Hypothesis base64_inverse :
  forall b, bufferFrom (Some (Str (base64 b))) = Ok b.

Hypothesis box_opens :
  forall m nonce pk sk box pk' sk',
    nacl_box m nonce pk sk = Ok box ->
    shared pk' sk' = shared pk sk ->
    nacl_box_open box nonce pk' sk' = Ok (Some m).

(** On an open socket and with the peer's key, [send] writes one
    envelope and nothing else, and [decrypt] under keys that agree with
    the client's gives the JSON text of the message back; when
    [nacl.box] throws, [send] throws the same and writes nothing. *)
Theorem send_opens_at_peer (nonce : bytes) (msg : option val) (r : RelayClient)
    (key : bytes) (json : str) (pk' sk' : bytes) :
  ws r = Some true ->
  phonePublicKey r = Some key ->
  jsonStringify msg = Some json ->
  isWellFormed json = true ->
  noBOM json = true ->
  shared pk' sk' = shared key (secretKey (keyPair r)) ->
  match send nonce msg r with
  | (Ok _, r') =>
      exists envelope,
        r' = emit (WsSendEnvelope envelope) r
        /\ decrypt envelope pk' sk' = Ok json
  | (Throw e, r') =>
      r' = r
      /\ nacl_box (textEncode json) nonce key (secretKey (keyPair r)) = Throw e
  end.
Proof.
  intros Hws Hkey Hjson Hwf Hbom Hkeys.
  unfold send, bind, read, ret, act, modify. simpl.
  rewrite Hws, Hkey, Hjson. simpl.
  destruct (encrypt nonce json key (secretKey (keyPair r))) as [envelope|e] eqn:Henc.
  - exists envelope. split; [reflexivity|].
    rewrite (decrypt_encrypt_codec shared base64_inverse box_opens _ _ _ _ _ _ _ Henc Hkeys).
    by rewrite textDecode_textEncode.
  - split; [reflexivity|]. unfold encrypt in Henc.
    destruct (nacl_box _ _ _ _); [discriminate | congruence].
Qed.

End Sealed.

(** A paired client on the miniature box writes an envelope that opens
    under the same keys. *)
Lemma send_opens_at_peer_witness :
  let pk := lit "phone-public" in
  let sk := lit "server-secret" in
  let r := with_ws (Some true)
             (with_phonePublicKey (Some pk)
                (new {| publicKey := lit "server-public"; secretKey := sk |})) in
  let msg := Some (Obj [(lit "type", Str (lit "text"))]) in
  let json := Toy.object [(lit "type", lit "text")] in
  ws r = Some true
  /\ phonePublicKey r = Some pk
  /\ @jsonStringify Toy.platform msg = Some json
  /\ isWellFormed json = true
  /\ noBOM json = true
  /\ Toy.shared pk sk = Toy.shared pk (secretKey (keyPair r))
  /\ match @send Toy.platform (lit "nonce") msg r with
     | (Ok _, r') =>
         exists envelope,
           r' = emit (WsSendEnvelope envelope) r
           /\ @decrypt Toy.platform envelope pk sk = Ok json
     | (Throw e, r') =>
         r' = r
         /\ @nacl_box Toy.platform (textEncode json) (lit "nonce") pk
              (secretKey (keyPair r)) = Throw e
     end.
Proof.
  intros pk sk r msg json.
  assert (ws r = Some true) as Hws by reflexivity.
  assert (phonePublicKey r = Some pk) as Hkey by reflexivity.
  assert (@jsonStringify Toy.platform msg = Some json) as Hjson by reflexivity.
  assert (isWellFormed json = true) as Hwf by (vm_compute; reflexivity).
  assert (noBOM json = true) as Hbom by reflexivity.
  assert (Toy.shared pk sk = Toy.shared pk (secretKey (keyPair r))) as Hkeys
    by reflexivity.
  repeat (split; [assumption|]).
  exact (@send_opens_at_peer Toy.platform Toy.shared toy_base64_inverse toy_box_opens
           (lit "nonce") msg r pk json pk sk Hws Hkey Hjson Hwf Hbom Hkeys).
Defined.

(** A phone sends an empty key: the client is paired, and what the
    engine then sends on the virtual socket throws. *)
Lemma virtual_socket_send_rethrows_witness :
  let r := with_ws (Some true)
             (new {| publicKey := lit "server-public";
                     secretKey := lit "server-secret" |}) in
  let parsed := Obj [(lit "type", Str (lit "key_exchange")); (lit "pubkey", Str [])] in
  let err := Js.error "bad public key size" in
  let data := lit "{}" in
  ws r = Some true
  /\ get (lit "type") parsed = Some (Str (lit "key_exchange"))
  /\ @fromBase64 Toy.platform (get (lit "pubkey") parsed) = Ok []
  /\ (forall m n, @nacl_box Toy.platform m n [] (secretKey (keyPair r)) = Throw err)
  /\ let r' := snd (@Relay.handleRelayMessage Toy.platform (fun _ => Ok tt) parsed r) in
     phonePublicKey r' = Some []
     /\ virtualOpen r' = true
     /\ status r' = paired
     /\ @virtualSocketSend Toy.platform (lit "nonce") (lit "nonce2") data r'
        = (Throw err, r').
Proof.
  intros r parsed err data.
  assert (ws r = Some true) as Hws by reflexivity.
  assert (get (lit "type") parsed = Some (Str (lit "key_exchange"))) as Htype
    by reflexivity.
  assert (@fromBase64 Toy.platform (get (lit "pubkey") parsed) = Ok []) as Hpub
    by reflexivity.
  assert (forall m n, @nacl_box Toy.platform m n [] (secretKey (keyPair r)) = Throw err)
    as Hbox by (intros m n; reflexivity).
  split; [exact Hws|]. split; [exact Htype|]. split; [exact Hpub|]. split; [exact Hbox|].
  exact (@virtual_socket_send_rethrows Toy.platform (fun _ => Ok tt) r parsed [] err
           (lit "nonce") (lit "nonce2") data Hws Htype Hpub Hbox).
Defined.

End TunnelFacts.

(** ** The key file *)

Module KeyFileFacts.
Import Js Run Crypto.

Section WithPlatform.
Context {platform : Platform}.

Lemma get_publicKey kp :
  get (lit "publicKey") (keyObject kp) = Some (Str (base64 (publicKey kp))).
Proof. reflexivity. Qed.

Lemma get_secretKey kp :
  get (lit "secretKey") (keyObject kp) = Some (Str (base64 (secretKey kp))).
Proof. reflexivity. Qed.

(** The pair made at the first start is the pair every later start
    loads: where no key file exists [loadOrCreateKeyPair] writes one
    and returns the pair drawn; called again, whatever pair would be
    drawn then, it returns the first pair and leaves the files as they
    are.  No other file is touched.  This holds where base64 text
    decodes to the bytes it encodes and the text written parses back to
    the object written. *)
Theorem loadOrCreateKeyPair_persists (generated later : KeyPair) (configPath : str)
    (files : gmap str str) (text : str) :
  files !! configPath = None ->
  (forall b, bufferFrom (Some (Str (base64 b))) = Ok b) ->
  jsonStringify (Some (keyObject generated)) = Some text ->
  jsonParse text = Ok (keyObject generated) ->
  let files' := <[configPath := text]> files in
  loadOrCreateKeyPair generated configPath files = (Ok generated, files')
  /\ loadOrCreateKeyPair later configPath files' = (Ok generated, files')
  /\ forall other, other <> configPath -> files' !! other = files !! other.
Proof.
  intros Hnew Hb64 Htext Hparse files'. split; [|split].
  - unfold loadOrCreateKeyPair. by rewrite Hnew, Htext.
  - unfold loadOrCreateKeyPair, files'. rewrite lookup_insert_eq, Hparse.
    change (match keyObject generated with Null => ?a | _ => ?b end) with b.
    unfold fromBase64. rewrite get_publicKey, get_secretKey, !Hb64.
    by destruct generated.
  - intros other Hother. unfold files'. by rewrite lookup_insert_ne.
Qed.

(** A key file that exists is never written: whatever it holds, the
    files are afterwards as before. *)
Lemma loadOrCreateKeyPair_keeps_file generated configPath files text :
  files !! configPath = Some text ->
  snd (loadOrCreateKeyPair generated configPath files) = files.
Proof.
  intros Hfile. unfold loadOrCreateKeyPair. rewrite Hfile.
  destruct (jsonParse text) as [[]|]; try done;
    repeat match goal with |- context [fromBase64 ?x] => destruct (fromBase64 x) end;
    done.
Qed.

End WithPlatform.

Lemma loadOrCreateKeyPair_persists_witness :
  let generated := {| publicKey := lit "server-public"; secretKey := lit "server-secret" |} in
  let later := {| publicKey := lit "another"; secretKey := lit "pair" |} in
  let path := lit "/home/me/.claude-assistant/relay-keys.json" in
  let text := Toy.object [(lit "publicKey", lit "server-public");
                          (lit "secretKey", lit "server-secret")] in
  let files' : gmap str str := {[ path := text ]} in
  (∅ : gmap str str) !! path = None
  /\ (forall b, @bufferFrom Toy.platform (Some (Str (@base64 Toy.platform b))) = Ok b)
  /\ @jsonStringify Toy.platform (Some (@keyObject Toy.platform generated)) = Some text
  /\ @jsonParse Toy.platform text = Ok (@keyObject Toy.platform generated)
  /\ @loadOrCreateKeyPair Toy.platform generated path ∅ = (Ok generated, files')
  /\ @loadOrCreateKeyPair Toy.platform later path files' = (Ok generated, files')
  /\ forall other, other <> path -> files' !! other = (∅ : gmap str str) !! other.
Proof.
  intros generated later path text files'.
  assert ((∅ : gmap str str) !! path = None) as Hnew by apply lookup_empty.
  assert (forall b, @bufferFrom Toy.platform (Some (Str (@base64 Toy.platform b))) = Ok b)
    as Hb64 by reflexivity.
  assert (@jsonStringify Toy.platform (Some (@keyObject Toy.platform generated)) = Some text)
    as Htext by reflexivity.
  assert (@jsonParse Toy.platform text = Ok (@keyObject Toy.platform generated))
    as Hparse by (vm_compute; reflexivity).
  split; [exact Hnew|]. split; [exact Hb64|]. split; [exact Htext|].
  split; [exact Hparse|].
  exact (@loadOrCreateKeyPair_persists Toy.platform generated later path ∅ text
           Hnew Hb64 Htext Hparse).
Defined.

End KeyFileFacts.

(** ** The session engine: questions, the transport and the watcher *)

Module EngineFacts.
Import Js Run RunFacts StoreFacts Session SessionFacts.
Import Crypto (Platform).

Lemma lit_inj (a b : string) : lit a = lit b -> a = b.
Proof.
  unfold lit. intros H.
  apply (f_equal (fmap Ascii.ascii_of_N)) in H.
  rewrite <- !list_fmap_compose in H.
  rewrite !(list_fmap_ext (Ascii.ascii_of_N ∘ Ascii.N_of_ascii) id) in H
    by (intros ? x _; apply Ascii.ascii_N_embedding).
  rewrite !list_fmap_id in H.
  rewrite <- (String.string_of_list_ascii_of_string a),
          <- (String.string_of_list_ascii_of_string b).
  by rewrite H.
Qed.

Lemma ofN_inj (n m : N) : ofN n = ofN m -> n = m.
Proof. unfold ofN. intros H%lit_inj. by apply pretty_N_inj in H. Qed.

Lemma mapSet_new {V} k (v : V) m :
  mapGet k m = None -> mapSet k v m = m ++ [(k, v)].
Proof.
  induction m as [|[k' v'] m IH]; [done|]. simpl.
  case_bool_decide; [done|]. intros Hm. by rewrite IH.
Qed.

Lemma Forall_mapSet {V} (P : str * V -> Prop) k v m :
  Forall P m -> P (k, v) -> Forall P (mapSet k v m).
Proof.
  intros Hm Hk. induction Hm as [|[k' v'] m Hx Hm IH]; simpl.
  - by constructor.
  - case_bool_decide; constructor; done.
Qed.

Lemma Forall_mapDelete {V} (P : str * V -> Prop) k m :
  Forall P m -> Forall P (mapDelete k m).
Proof.
  intros Hm. induction Hm as [|[k' v'] m Hx Hm IH]; simpl; [constructor|].
  case_bool_decide; [done | by constructor].
Qed.

Section WithPlatform.
Context {platform : Platform}.

(** *** Pending questions *)

(** An entry of the table of pending questions as [canUseTool] makes
    it: the id is [q] followed by a number the counter has passed, and
    the question kept for re-sending carries that id. *)
Definition asked (counter : N) (kp : str * PendingQuestion) : Prop :=
  exists n questions sessionId,
    (1 <= n <= counter)%N
    /\ fst kp = lit "q" ++ ofN n
    /\ questionId (snd kp) = fst kp
    /\ questionData (snd kp) = Some (MsgQuestion (fst kp) questions sessionId).

Definition tableKept (w : World) : Prop :=
  Forall (asked (questionCounter (session w))) (pendingQuestions (session w)).

Lemma asked_mono c c' kp : (c <= c')%N -> asked c kp -> asked c' kp.
Proof.
  intros Hle (n & qs & sid & Hn & Hrest). exists n, qs, sid. split; [lia | exact Hrest].
Qed.

Lemma ask_tableKept questions : steady (keeping tableKept) (ask questions).
Proof.
  intros w Hkept. unfold tableKept in *.
  assert (Forall (asked (questionCounter (session w) + 1))
            (pendingQuestions (session w))) as Hold.
  { eapply Forall_impl; [exact Hkept|]. intros kp. apply asked_mono. lia. }
  unfold ask, logEntry, sid, send, now, newObject, onDisk, zoom, update, act, this,
    bind, modify, read, ret, throw. simpl.
  destruct (isOpen (ws (session w))); simpl.
  all: try destruct (sendThrows (ws (session w))); simpl.
  all: destruct (sessionId (session w)) as [id|]; simpl.
  all: try destruct (truthy id); simpl.
  all: try (destruct (Store.appendHistory _ _ _) as [[[]|?] ?]; simpl).
  all: try exact Hold.
  all: apply Forall_mapSet; [exact Hold|].
  all: eexists _, _, _; split; [|split; [reflexivity|split; reflexivity]]; lia.
Qed.

Ltac table_base :=
  lazymatch goal with
  | |- steady (keeping tableKept) (ask _) => apply ask_tableKept
  | |- steady (keeping tableKept)
         (update (fun s => set_pendingQuestions (mapDelete _ _) s)) =>
      intros ?; unfold keeping, tableKept; simpl; apply Forall_mapDelete
  | |- steady (keeping tableKept) (onDisk _) =>
      intros ?; unfold keeping, tableKept, onDisk, zoom; simpl;
      match goal with |- context [let '(_, _) := ?x in _] => destruct x end;
      simpl; done
  | |- steady (keeping tableKept) (update _) =>
      intros ?; unfold keeping, tableKept; simpl; done
  | |- steady (keeping tableKept) (act _) =>
      intros ?; unfold keeping, tableKept; simpl; done
  | |- steady (keeping tableKept) (modify _) =>
      intros ?; unfold keeping, tableKept; simpl; done
  | |- steady (keeping tableKept) (writeDisk _) =>
      intros ?; unfold keeping, tableKept; simpl; done
  end.

Lemma control_tableKept c : steady (keeping tableKept) (control c).
Proof. repeat first [table_base | steady_step]. Qed.

Lemma exec_tableKept op : steady (keeping tableKept) (exec op).
Proof.
  apply steady_exec; try exact _; [|apply control_tableKept].
  intros. apply steady_runQuery; try exact _.
  - intros w0 es. unfold keeping, tableKept. done.
  - intros w0 k. unfold keeping, tableKept. done.
  - intros f Hf w0. unfold keeping, tableKept. simpl.
    destruct (Hf (session w0)) as (_ & -> & ->). done.
  - intros id e w0. unfold keeping, tableKept, onDisk, zoom. simpl.
    destruct (Store.appendHistory id e (disk w0)). done.
  - intros f _ w0. unfold keeping, tableKept. done.
  - apply control_tableKept.
Qed.

Lemma after_tableKept w0 ops :
  pendingQuestions (session w0) = [] -> tableKept (after w0 ops).
Proof.
  intros Hnone.
  apply (steady_after (keeping tableKept) ops exec_tableKept w0).
  unfold tableKept. rewrite Hnone. constructor.
Qed.

(** The id [canUseTool] gives the next question. *)
Definition nextId (w : World) : str :=
  lit "q" ++ ofN (questionCounter (session w) + 1).

Lemma nextId_new w : tableKept w -> mapGet (nextId w) (pendingQuestions (session w)) = None.
Proof.
  intros Hkept. apply mapGet_None. intros Hin.
  apply list_elem_of_fmap in Hin as ([k p] & Hk & Hin). cbn [fst] in Hk.
  unfold tableKept in Hkept. rewrite Forall_forall in Hkept.
  destruct (Hkept _ Hin) as (n & _ & _ & Hn & Hid & _). cbn [fst] in Hid.
  unfold nextId in Hk. rewrite Hid in Hk.
  apply app_inv_head, ofN_inj in Hk. lia.
Qed.

Lemma ask_appends questions w :
  tableKept w ->
  match ask questions w with
  | (Ok _, w') =>
      exists p,
        pendingQuestions (session w')
        = pendingQuestions (session w) ++ [(nextId w, p)]
        /\ questionId p = nextId w
  | (Throw _, w') => pendingQuestions (session w') = pendingQuestions (session w)
  end.
Proof.
  intros Hkept. pose proof (nextId_new w Hkept) as Hnew. unfold nextId in *.
  unfold ask, logEntry, sid, send, now, newObject, onDisk, zoom, update, act, this,
    bind, modify, read, ret, throw. cbn -[lit ofN].
  destruct (isOpen (ws (session w))); cbn -[lit ofN].
  all: try destruct (sendThrows (ws (session w))); cbn -[lit ofN].
  all: destruct (sessionId (session w)) as [id|]; cbn -[lit ofN].
  all: try destruct (truthy id); cbn -[lit ofN].
  all: try (destruct (Store.appendHistory _ _ _) as [[[]|?] ?]; cbn -[lit ofN]).
  all: try done.
  all: eexists; rewrite (mapSet_new _ _ _ Hnew); split; reflexivity.
Qed.

(** A question never takes the place of one that is still pending: in
    every state an engine reaches, [canUseTool] for a question or a
    plan review leaves the table as it is when it throws (as it does
    when the [send] of the question or the write to the history
    throws), and otherwise adds one entry at its end, under an id no
    pending question has; for any other tool it changes nothing. *)
Theorem question_never_displaces (w0 : World) (ops : list Op) (toolName : str)
    (input : option val) (planContent : str) :
  pendingQuestions (session w0) = [] ->
  let w := after w0 ops in
  let asks := bool_decide (toolName = lit "AskUserQuestion")
              || bool_decide (toolName = lit "ExitPlanMode") in
  match canUseTool toolName input planContent w with
  | (Ok _, w') =>
      if asks then
        exists qid p,
          pendingQuestions (session w')
          = pendingQuestions (session w) ++ [(qid, p)]
          /\ mapGet qid (pendingQuestions (session w)) = None
          /\ questionId p = qid
      else w' = w
  | (Throw _, w') => pendingQuestions (session w') = pendingQuestions (session w)
  end.
Proof.
  intros Hnone w asks.
  assert (tableKept w) as Hkept by (apply after_tableKept, Hnone).
  unfold canUseTool, asks.
  destruct (bool_decide (toolName = lit "AskUserQuestion")); simpl.
  - match goal with |- context [ask ?qs w] =>
      pose proof (ask_appends qs w Hkept) as H; destruct (ask qs w) as [[[]|e] w'] end;
      [|exact H].
    destruct H as (p & Hp & Hid). exists (nextId w), p.
    split; [exact Hp|]. split; [by apply nextId_new | exact Hid].
  - destruct (bool_decide (toolName = lit "ExitPlanMode")); simpl; [|reflexivity].
    match goal with |- context [ask ?qs w] =>
      pose proof (ask_appends qs w Hkept) as H; destruct (ask qs w) as [[[]|e] w'] end;
      [|exact H].
    destruct H as (p & Hp & Hid). exists (nextId w), p.
    split; [exact Hp|]. split; [by apply nextId_new | exact Hid].
Qed.






(** *** Relations a query respects *)

(** The effects that are neither a frame nor a timer of the output
    watcher. *)
Definition isPlain (e : Effect) : bool :=
  match e with
  | WsSend _ _ | SetInterval _ | ClearInterval _ => false
  | _ => true
  end.

(** The streams in which every call made meanwhile is one of [ok]. *)
Definition meanwhileOnly (ok : Control -> Prop) (stream : list Tick) : Prop :=
  Forall (fun t => match t with Meanwhile c => ok c | Incoming _ => True end) stream.

Section Query.
Context (R : World -> World -> Prop) `{!PreOrder R} (ok : Control -> Prop).

Hypothesis Hsend : forall msgs w, R w (sending msgs w).
Hypothesis Hact : forall e w, isPlain e = true -> R w (with_effects (effects w ++ [e]) w).
Hypothesis Hfresh : forall w n, R w (with_fresh n w).
Hypothesis Hupd : forall f,
  (forall s, ws (f s) = ws s /\ _activeBashStream (f s) = _activeBashStream s) ->
  steady R (update f).
Hypothesis Hdisk : forall A (m : M Store.Disk A), steady R (onDisk m).
Hypothesis Hwrite : forall f, steady R (writeDisk f).
Hypothesis Hstop : steady R _stopBashWatcher.
Hypothesis Hstart : forall filePath, steady R (_startBashWatcher filePath).
Hypothesis Hctl : forall c, ok c -> steady R (control c).

Hypothesis Hclock : forall w t, R w (with_clock t w).

Ltac query_base :=
  lazymatch goal with
  | |- steady R (modify (with_clock _)) => intros ?; apply Hclock
  | |- steady R (send ?m) =>
      let w := fresh "w" in
      intros w; destruct (send_sends m w) as [? ->]; apply Hsend
  | |- steady R (chunkLoop ?o ?t ?i ?k) =>
      let w := fresh "w" in
      intros w; destruct (chunkLoop_sends o t i k w) as [? ->]; apply Hsend
  | |- steady R _stopBashWatcher => exact Hstop
  | |- steady R (_startBashWatcher _) => apply Hstart
  | |- steady R (act _) => intros ?; apply Hact; reflexivity
  | |- steady R (modify (with_fresh _)) => intros ?; apply Hfresh
  | |- steady R (update _) => apply Hupd; intros []; simpl; auto
  | |- steady R (onDisk _) => apply Hdisk
  | |- steady R (writeDisk _) => apply Hwrite
  end.

Lemma steady_onMessage prompt resume m l : steady R (onMessage prompt resume m l).
Proof. repeat first [query_base | steady_step]. Qed.

(** The calls that leave the transport alone. *)
Definition keepsTransport (c : Control) : bool :=
  match c with
  | CallSetWebSocket _ | CallDetachWebSocket | SocketReadyState _
  | SocketSendThrows _ => false
  | _ => true
  end.

Lemma steady_control c : keepsTransport c = true -> steady R (control c).
Proof.
  destruct c; try discriminate; intros _; simpl;
    repeat first [query_base | steady_step].
Qed.

Lemma steady_loop_where prompt resume stream ending :
  meanwhileOnly ok stream ->
  forall l, steady R (loop prompt resume stream ending l).
Proof.
  intros Hok. induction Hok as [|[m|c] rest Ht Hrest IH]; intros l; simpl.
  - destruct ending; [apply steady_throw | apply steady_ret]; exact _.
  - apply steady_bind; [exact _ | apply steady_onMessage | intros l'; apply IH].
  - apply steady_bind; [exact _ | apply steady_meanwhile, Hctl, Ht | intros _; apply IH].
Qed.

Lemma steady_query prompt resume started stream ending :
  meanwhileOnly ok stream ->
  steady R (runQuery prompt resume started stream ending).
Proof.
  intros Hok. unfold runQuery, tryBlock, enterQuery, catchBlock, finallyBlock.
  repeat first [query_base | steady_step].
  all: apply steady_loop_where, Hok.
Qed.

Lemma steady_exec_where op :
  match op with
  | Query _ _ _ stream _ => meanwhileOnly ok stream
  | Between c => ok c
  end ->
  steady R (exec op).
Proof.
  destruct op as [prompt resume started stream ending|c]; simpl.
  - apply steady_query.
  - apply Hctl.
Qed.

End Query.

(** *** The output watcher *)

(** What an effect does to the number of running watcher timers. *)
Definition timerChange (e : Effect) : Z :=
  match e with
  | SetInterval _ => 1
  | ClearInterval _ => -1
  | _ => 0
  end.

(** The number of watcher timers that have been set and not
    cleared. *)
Definition liveTimers (es : list Effect) : Z :=
  foldr (fun e n => timerChange e + n)%Z 0%Z es.

Lemma liveTimers_app a b : liveTimers (a ++ b) = (liveTimers a + liveTimers b)%Z.
Proof. induction a as [|e a IH]; simpl; [done | rewrite IH; lia]. Qed.

Lemma liveTimers_frames t msgs : liveTimers (frames t msgs) = 0%Z.
Proof.
  unfold frames. destruct (isOpen t); [|done].
  induction msgs as [|m msgs IH]; [done|]. rewrite fmap_cons. simpl. exact IH.
Qed.

(** One timer runs while the engine holds a watcher, none
    otherwise. *)
Definition oneWatcher (w : World) : Prop :=
  liveTimers (effects w) = if _activeBashStream (session w) is Some _ then 1%Z else 0%Z.

Ltac watching :=
  unfold keeping, oneWatcher, onDisk, zoom; simpl;
  rewrite ?liveTimers_app, ?liveTimers_frames; simpl.

Lemma stopBashWatcher_oneWatcher : steady (keeping oneWatcher) _stopBashWatcher.
Proof.
  intros w. unfold _stopBashWatcher, bind, this, read, ret, act, update, modify. simpl.
  destruct (_activeBashStream (session w)) eqn:Hactive; watching; rewrite ?Hactive; lia.
Qed.

Lemma startBashWatcher_oneWatcher filePath :
  steady (keeping oneWatcher) (_startBashWatcher filePath).
Proof.
  intros w. unfold _startBashWatcher, _stopBashWatcher, bind, this, read, ret, act,
    update, modify. simpl.
  destruct (_activeBashStream (session w)) eqn:Hactive; watching; rewrite ?Hactive; lia.
Qed.

Lemma control_oneWatcher c : steady (keeping oneWatcher) (control c).
Proof.
  destruct (keepsTransport c) eqn:Hc.
  - apply steady_control; try exact _; try exact Hc.
    + intros msgs w. watching. lia.
    + intros [] w He; try discriminate He; watching; lia.
    + intros w k. watching. done.
    + intros f Hf w. watching. destruct (Hf (session w)) as [_ ->]. done.
    + intros A m w. watching. destruct (m (disk w)). done.
    + intros f w. watching. done.
    + intros w t. watching. done.
  - destruct c; try discriminate Hc; simpl;
      repeat first
        [ lazymatch goal with
          | |- steady _ (send ?m) =>
              let w := fresh "w" in
              intros w; destruct (send_sends m w) as [? ->]; watching; lia
          | |- steady _ (update _) => intros ?; watching; done
          | |- steady _ (modify _) => intros ?; watching; done
          end
        | steady_step ].
Qed.

Lemma exec_oneWatcher op : steady (keeping oneWatcher) (exec op).
Proof.
  apply (steady_exec_where (keeping oneWatcher) (fun _ => True)).
  - intros msgs w. watching. lia.
  - intros [] w He; try discriminate He; watching; lia.
  - intros w k. watching. done.
  - intros f Hf w. watching. destruct (Hf (session w)) as [_ ->]. done.
  - intros A m w. watching. destruct (m (disk w)). done.
  - intros f w. watching. done.
  - apply stopBashWatcher_oneWatcher.
  - apply startBashWatcher_oneWatcher.
  - intros c _. apply control_oneWatcher.
  - destruct op; [|done]. apply Forall_forall. intros []; done.
Qed.

(** The engine never has two watcher timers running: whatever it has
    gone through, the timers it has set and not cleared are one when it
    holds a watcher and none when it does not. *)
Theorem one_output_watcher (w0 : World) (ops : list Op) :
  oneWatcher w0 ->
  let w := after w0 ops in
  liveTimers (effects w)
  = if _activeBashStream (session w) is Some _ then 1%Z else 0%Z.
Proof.
  intros Hinit. exact (steady_after (keeping oneWatcher) ops exec_oneWatcher w0 Hinit).
Qed.

(** *** A detached engine *)

(** The frames written so far, with the socket each went to. *)
Definition wire (es : list Effect) : list (nat * ServerMessage) :=
  omap (fun e => match e with WsSend t m => Some (t, m) | _ => None end) es.

Lemma wire_app a b : wire (a ++ b) = wire a ++ wire b.
Proof. apply omap_app. Qed.

(** The transport is not open, and [sent] is what has been written. *)
Definition silent (sent : list (nat * ServerMessage)) (w : World) : Prop :=
  isOpen (ws (session w)) = false /\ wire (effects w) = sent.

(** The calls and changes other than a new transport: everything but
    [setWebSocket] and a change of the socket's [readyState]. *)
Definition staysDetached (c : Control) : Prop :=
  match c with
  | CallSetWebSocket _ | SocketReadyState _ => False
  | _ => True
  end.

(** The same for what an engine goes through. *)
Definition detachedOp (op : Op) : Prop :=
  match op with
  | Query _ _ _ stream _ => meanwhileOnly staysDetached stream
  | Between c => staysDetached c
  end.

Ltac hushed :=
  unfold keeping, silent, sending, frames, onDisk, zoom; simpl;
  rewrite ?wire_app; simpl; rewrite ?app_nil_r.

Lemma control_silent sent c :
  staysDetached c -> steady (keeping (silent sent)) (control c).
Proof.
  intros Hc. destruct (keepsTransport c) eqn:Hk.
  - apply steady_control; try exact _; try exact Hk.
    + intros msgs w. hushed. intros [Hclosed Hsent]. rewrite Hclosed. simpl.
      by rewrite app_nil_r.
    + intros [] w He; try discriminate He; hushed; done.
    + intros w k. hushed. done.
    + intros f Hf w. hushed. destruct (Hf (session w)) as [-> _]. done.
    + intros A m w. hushed. destruct (m (disk w)). done.
    + intros f w. hushed. done.
    + intros w t. hushed. done.
  - destruct c; try discriminate Hk; try done; simpl; intros w.
    + unfold detachWebSocket, newObject, bind, read, ret, update, modify.
      hushed. intros [_ Hsent]. done.
    + unfold update, modify. hushed. intros [Hclosed Hsent]. done.
Qed.

Lemma exec_silent sent op :
  detachedOp op -> steady (keeping (silent sent)) (exec op).
Proof.
  apply (steady_exec_where (keeping (silent sent)) staysDetached).
  - intros msgs w. hushed. intros [Hclosed Hsent]. rewrite Hclosed. simpl.
    by rewrite app_nil_r.
  - intros [] w He; try discriminate He; hushed; done.
  - intros w k. hushed. done.
  - intros f Hf w. hushed. destruct (Hf (session w)) as [-> _]. done.
  - intros A m w. hushed. destruct (m (disk w)). done.
  - intros f w. hushed. done.
  - intros w. unfold _stopBashWatcher, bind, this, read, ret, act, update, modify.
    simpl. destruct (_activeBashStream (session w)); hushed; done.
  - intros filePath w.
    unfold _startBashWatcher, _stopBashWatcher, bind, this, read, ret, act, update,
      modify. simpl.
    destruct (_activeBashStream (session w)); hushed; done.
  - intros c Hc. by apply control_silent.
Qed.

Lemma after_where (P : World -> Prop) (good : Op -> Prop) ops :
  (forall op, good op -> steady (keeping P) (exec op)) ->
  Forall good ops -> forall w, P w -> P (after w ops).
Proof.
  intros Hstep Hops. unfold after.
  induction Hops as [|op ops Hop Hops IH]; intros w Hw; simpl; [exact Hw|].
  apply IH. exact (Hstep op Hop w Hw).
Qed.

(** After [detachWebSocket] the engine writes no frame, to any socket,
    whatever it goes through (the messages of a running query, new
    queries, calls from other control paths) until [setWebSocket] gives
    it a transport again. *)
Theorem detached_engine_is_silent (w : World) (ops : list Op) :
  Forall detachedOp ops ->
  let detached := snd (detachWebSocket w) in
  wire (effects (after detached ops)) = wire (effects w)
  /\ isOpen (ws (session (after detached ops))) = false.
Proof.
  intros Hops detached.
  assert (silent (wire (effects w)) (after detached ops)) as [Hclosed Hsent].
  { apply (after_where _ detachedOp ops); [intros; by apply exec_silent | exact Hops|].
    split; reflexivity. }
  split; [exact Hsent | exact Hclosed].
Qed.

(** *** A history file that cannot be read *)

(** The session whose history [runQuery] writes the prompt to before
    the stream is read. *)
Definition promptSession (resume : option str) (w : World) : option str :=
  if truthy_opt (sessionId (session w)) then sessionId (session w)
  else if truthy_opt resume then resume
  else None.

(** When the history file of the session does not parse, a query on it
    comes to nothing: [runQuery] starts the query of the SDK, fails to
    log the prompt and hands the error to [send] as its one error
    event, with the engine idle and the store untouched at the end; no
    message of the stream is read, so the outcome is the same whatever
    the stream holds.  On a transport whose [send] returns the event is
    the one frame written and [runQuery] returns; when that [send]
    throws, nothing is written and [runQuery] throws the same. *)
Theorem runQuery_unreadable_history (prompt : str) (resume : option str)
    (stream : list Tick) (ending : option Error) (w : World) (id : str) :
  promptSession resume w = Some id ->
  Store.history (disk w) !! Store.historyFile id = Some Store.Unparseable ->
  let refused := refusal (ws (session w)) in
  let ends : outcome unit :=
    match refused with Some thrown => Throw thrown | None => Ok tt end in
  exists err query opts w',
    runQuery prompt resume (Ok tt) stream ending w = (ends, w')
    /\ effects w' = effects w ++ [OnActivity; SdkQuery query opts]
                    ++ match refused with
                       | None => frames (ws (session w)) [errorEvent err]
                       | Some _ => []
                       end
    /\ disk w' = disk w
    /\ _isRunning (session w') = false
    /\ activeQuery (session w') = None
    /\ forall stream' ending',
         runQuery prompt resume (Ok tt) stream' ending' w = (ends, w').
Proof.
  intros Hid Hfile. unfold promptSession in Hid.
  assert (Store.appendHistory id (Store.plain (lit "user") prompt (clock w)) (disk w)
          = (Throw (error "Unexpected token in JSON"), disk w)) as Hthrow.
  { unfold Store.appendHistory. by rewrite Hfile. }
  cbv zeta. exists (error "Unexpected token in JSON").
  unfold runQuery, enterQuery, tryBlock, catchBlock, finallyBlock, finally, tryCatch,
    send, newObject, now, onDisk, zoom, update, act, this, lift, bind, modify, read, ret,
    throw.
  cbn -[toolContext Store.appendHistory lit].
  destruct (sessionId (session w)) as [sid|] eqn:Hsid;
    cbn -[toolContext Store.appendHistory lit] in *.
  1: destruct (truthy sid) eqn:Hsidt; cbn -[toolContext Store.appendHistory lit] in *.
  2, 3: destruct resume as [r|]; [|discriminate];
    cbn -[toolContext Store.appendHistory lit] in *;
    destruct (truthy r) eqn:Hr; [|discriminate].
  all: injection Hid as ->; cbn -[toolContext Store.appendHistory lit];
    rewrite ?Hr; cbn -[toolContext Store.appendHistory lit];
    rewrite Hthrow; cbn -[toolContext Store.appendHistory lit];
    unfold frames, errorEvent, refusal;
    destruct (isOpen (ws (session w))); cbn -[toolContext lit];
    try destruct (sendThrows (ws (session w))); cbn -[toolContext lit];
    eexists _, _, _; (split; [reflexivity|]); cbn -[toolContext lit];
    (split; [by rewrite <- ?app_assoc|]); repeat split.
Qed.

End WithPlatform.

(** *** Runs of the engine *)

Section Runs.
#[local] Existing Instance Toy.platform.

(** An engine that has asked one question, not answered yet. *)
Definition oneQuestion : list Op :=
  [Between (CallCanUseTool (lit "AskUserQuestion") askInput [])].

Lemma question_never_displaces_witness :
  pendingQuestions (session (boot (lit "/srv"))) = []
  /\ let w := after (boot (lit "/srv")) oneQuestion in
     let asks := bool_decide (lit "ExitPlanMode" = lit "AskUserQuestion")
                 || bool_decide (lit "ExitPlanMode" = lit "ExitPlanMode") in
     match canUseTool (lit "ExitPlanMode") None [] w with
     | (Ok _, w') =>
         if asks then
           exists qid p,
             pendingQuestions (session w')
             = pendingQuestions (session w) ++ [(qid, p)]
             /\ mapGet qid (pendingQuestions (session w)) = None
             /\ questionId p = qid
         else w' = w
     | (Throw _, w') => pendingQuestions (session w') = pendingQuestions (session w)
     end.
Proof.
  assert (pendingQuestions (session (boot (lit "/srv"))) = []) as Hnone by reflexivity.
  split; [exact Hnone|].
  exact (question_never_displaces (boot (lit "/srv")) oneQuestion (lit "ExitPlanMode")
           None [] Hnone).
Defined.


(** A query in which the agent calls Bash. *)
Definition bashQuery : list Op :=
  [Query (lit "run the tests") None (Ok tt)
     [Incoming (SystemInit (lit "s1"));
      Incoming (Assistant (Some [ToolUse (lit "toolu_1") (lit "Bash") None]))]
     None].

Lemma one_output_watcher_witness :
  oneWatcher (boot (lit "/srv"))
  /\ let w := after (boot (lit "/srv")) bashQuery in
     liveTimers (effects w)
     = if _activeBashStream (session w) is Some _ then 1%Z else 0%Z.
Proof.
  assert (oneWatcher (boot (lit "/srv"))) as Hinit by reflexivity.
  split; [exact Hinit|].
  exact (one_output_watcher (boot (lit "/srv")) bashQuery Hinit).
Defined.

Lemma detached_engine_is_silent_witness :
  Forall detachedOp bashQuery
  /\ let detached := snd (detachWebSocket (boot (lit "/srv"))) in
     wire (effects (after detached bashQuery)) = wire (effects (boot (lit "/srv")))
     /\ isOpen (ws (session (after detached bashQuery))) = false.
Proof.
  assert (Forall detachedOp bashQuery) as Hops.
  { repeat constructor. }
  split; [exact Hops|].
  exact (detached_engine_is_silent (boot (lit "/srv")) bashQuery Hops).
Defined.

(** A session whose history file has been damaged. *)
Definition damaged : World :=
  with_disk {| Store.history := {[ Store.historyFile (lit "s1") := Store.Unparseable ]};
               Store.sessions := []; Store.todos := ∅ |}
    (boot (lit "/srv")).

Lemma runQuery_unreadable_history_witness :
  promptSession (Some (lit "s1")) damaged = Some (lit "s1")
  /\ Store.history (disk damaged) !! Store.historyFile (lit "s1") = Some Store.Unparseable
  /\ exists err query opts w',
       runQuery (lit "hello") (Some (lit "s1")) (Ok tt) [] None damaged = (Ok tt, w')
       /\ effects w' = effects damaged ++ [OnActivity; SdkQuery query opts]
                       ++ frames (ws (session damaged)) [errorEvent err]
       /\ disk w' = disk damaged
       /\ _isRunning (session w') = false
       /\ activeQuery (session w') = None
       /\ forall stream' ending',
            runQuery (lit "hello") (Some (lit "s1")) (Ok tt) stream' ending' damaged
            = (Ok tt, w').
Proof.
  assert (promptSession (Some (lit "s1")) damaged = Some (lit "s1")) as Hid
    by reflexivity.
  assert (Store.history (disk damaged) !! Store.historyFile (lit "s1")
          = Some Store.Unparseable) as Hfile by apply lookup_singleton_eq.
  split; [exact Hid|]. split; [exact Hfile|].
  exact (runQuery_unreadable_history (lit "hello") (Some (lit "s1")) [] None damaged
           (lit "s1") Hid Hfile).
Defined.

End Runs.

End EngineFacts.

(** ** The engine and its transport *)

Module TransportFacts.
Import Js Run RunFacts Session SessionFacts EngineFacts.
Import Crypto (Platform).

(** The effects other than frames. *)
Definition isFrame (e : Effect) : bool :=
  match e with
  | WsSend _ _ => true
  | _ => false
  end.

Definition besidesFrames (es : list Effect) : list Effect :=
  List.filter (fun e => negb (isFrame e)) es.

(** Two transports on which [send] ends the same way whenever both are
    open: they are the same, or the [send] of neither throws. *)
Definition alikeTransport (t1 t2 : Transport) : Prop :=
  t1 = t2 \/ (sendThrows t1 = None /\ sendThrows t2 = None).

(** Two engines that are alike but for the transport. *)
Definition alikeSession (s1 s2 : ClaudeSession) : Prop :=
  (exists t, s1 = set_ws t s2) /\ alikeTransport (ws s1) (ws s2).

(** Two worlds that are alike but for the transport of the engine and
    the frames written. *)
Definition alike (w1 w2 : World) : Prop :=
  alikeSession (session w1) (session w2)
  /\ disk w1 = disk w2
  /\ clock w1 = clock w2
  /\ fresh w1 = fresh w2
  /\ besidesFrames (effects w1) = besidesFrames (effects w2).

(** Two calls that, from worlds that are alike, end the same way, with
    results related by [RA], in worlds that are alike. *)
Definition agree {A} (RA : A -> A -> Prop) (m1 m2 : M World A) : Prop :=
  forall w1 w2, alike w1 w2 ->
    match m1 w1, m2 w2 with
    | (Ok a1, w1'), (Ok a2, w2') => RA a1 a2 /\ alike w1' w2'
    | (Throw e1, w1'), (Throw e2, w2') => e1 = e2 /\ alike w1' w2'
    | _, _ => False
    end.

Lemma alikeSession_refl s : alikeSession s s.
Proof. split; [exists (ws s); by destruct s | by left]. Qed.

Lemma alike_refl w : alike w w.
Proof. split; [apply alikeSession_refl | done]. Qed.

Lemma besidesFrames_app a b :
  besidesFrames (a ++ b) = besidesFrames a ++ besidesFrames b.
Proof. apply List.filter_app. Qed.

Lemma besidesFrames_frames t msgs : besidesFrames (frames t msgs) = [].
Proof.
  unfold frames. destruct (isOpen t); [|done].
  induction msgs as [|m msgs IH]; [done|]. rewrite fmap_cons. simpl. exact IH.
Qed.

Section Rules.
Context {A B : Type} (RA : A -> A -> Prop) (RB : B -> B -> Prop).

Lemma agree_ret a1 a2 : RA a1 a2 -> agree RA (ret a1) (ret a2).
Proof. intros Ha w1 w2 Hw. simpl. done. Qed.

Lemma agree_throw e : agree RA (throw e) (throw e).
Proof. intros w1 w2 Hw. simpl. done. Qed.

Lemma agree_lift o : (forall a, RA a a) -> agree RA (lift o) (lift o).
Proof. intros Hrefl w1 w2 Hw. unfold lift. destruct o; simpl; auto. Qed.

Lemma agree_bind (m1 m2 : M World A) (k1 k2 : A -> M World B) :
  agree RA m1 m2 ->
  (forall a1 a2, RA a1 a2 -> agree RB (k1 a1) (k2 a2)) ->
  agree RB (bind m1 k1) (bind m2 k2).
Proof.
  intros Hm Hk w1 w2 Hw. unfold bind. specialize (Hm w1 w2 Hw).
  destruct (m1 w1) as [[a1|e1] w1'], (m2 w2) as [[a2|e2] w2']; try done.
  destruct Hm as [Ha Hw']. exact (Hk a1 a2 Ha w1' w2' Hw').
Qed.

Lemma agree_tryCatch (b1 b2 : M World A) h1 h2 :
  agree RA b1 b2 -> (forall e, agree RA (h1 e) (h2 e)) ->
  agree RA (tryCatch b1 h1) (tryCatch b2 h2).
Proof.
  intros Hb Hh w1 w2 Hw. unfold tryCatch. specialize (Hb w1 w2 Hw).
  destruct (b1 w1) as [[a1|e1] w1'], (b2 w2) as [[a2|e2] w2']; try done.
  destruct Hb as [<- Hw']. exact (Hh e1 w1' w2' Hw').
Qed.

Lemma agree_finally (b1 b2 : M World A) f1 f2 :
  agree RA b1 b2 -> agree eq f1 f2 -> agree RA (finally b1 f1) (finally b2 f2).
Proof.
  intros Hb Hf w1 w2 Hw. unfold finally. specialize (Hb w1 w2 Hw).
  destruct (b1 w1) as [[a1|e1] w1'], (b2 w2) as [[a2|e2] w2']; try done;
    destruct Hb as [Hr Hw']; specialize (Hf w1' w2' Hw');
    destruct (f1 w1') as [[u1|x1] w1''], (f2 w2') as [[u2|x2] w2'']; try done;
    destruct Hf as [? ?]; done.
Qed.

End Rules.

Lemma agree_forEach {A} (l : list A) f1 f2 :
  (forall x, agree eq (f1 x) (f2 x)) -> agree eq (forEach l f1) (forEach l f2).
Proof.
  intros Hf. induction l as [|x l IH]; simpl.
  - by apply agree_ret.
  - eapply agree_bind; [apply Hf | intros _ _ _; exact IH].
Qed.

Lemma agree_when c m1 m2 : agree eq m1 m2 -> agree eq (when c m1) (when c m2).
Proof. intros H. destruct c; [exact H | by apply agree_ret]. Qed.

(** *** The accesses to the state *)

Lemma agree_this : agree alikeSession this this.
Proof. intros w1 w2 Hw. simpl. split; [apply Hw | exact Hw]. Qed.

Lemma agree_now : agree eq now now.
Proof. intros w1 w2 Hw. simpl. split; [apply Hw | exact Hw]. Qed.

Lemma agree_sid : agree eq sid sid.
Proof.
  intros w1 w2 Hw. simpl. split; [|exact Hw].
  destruct Hw as [[[t ->] _] _]. reflexivity.
Qed.

Lemma agree_newObject : agree eq newObject newObject.
Proof.
  intros w1 w2 (Hs & Hd & Hc & Hf & He). simpl. split; [exact Hf|].
  split; [exact Hs|]. simpl. rewrite Hf. done.
Qed.

Lemma ws_set_ws t s : ws (set_ws t s) = t.
Proof. by destruct s. Qed.

Lemma set_ws_ws s : set_ws (ws s) s = s.
Proof. by destruct s. Qed.

(** An assignment to a field other than the transport. *)
Lemma agree_update f :
  (forall s t, f (set_ws t s) = set_ws t (f s)) ->
  agree eq (update f) (update f).
Proof.
  intros Hf w1 w2 ([[t Hs] Hws] & Hrest). simpl. split; [done|].
  split; [|exact Hrest]. simpl. rewrite Hs in *. rewrite ws_set_ws in Hws.
  assert (ws (f (session w2)) = ws (session w2)) as Hkeeps.
  { rewrite <- (set_ws_ws (session w2)) at 1. by rewrite Hf, ws_set_ws. }
  split; [exists t; apply Hf|]. by rewrite Hf, ws_set_ws, Hkeeps.
Qed.

(** A new transport. *)
Lemma agree_set_ws t : agree eq (update (set_ws t)) (update (set_ws t)).
Proof.
  intros w1 w2 ([[t0 Hs] Hws] & Hrest). simpl. split; [done|].
  split; [|exact Hrest]. simpl. rewrite Hs.
  split; [exists t; by destruct (session w2)|]. left. by rewrite !ws_set_ws.
Qed.

(** A change of the transport that keeps two transports alike. *)
Lemma agree_reshape (g : Transport -> Transport) :
  (forall t1 t2, alikeTransport t1 t2 -> alikeTransport (g t1) (g t2)) ->
  agree eq (update (fun s => set_ws (g (ws s)) s))
           (update (fun s => set_ws (g (ws s)) s)).
Proof.
  intros Hg w1 w2 ([[t0 Hs] Hws] & Hrest). simpl. split; [done|].
  split; [|exact Hrest]. simpl.
  split; [|rewrite !ws_set_ws; by apply Hg].
  exists (g (ws (session w1))). rewrite Hs. by destruct (session w2).
Qed.

Lemma agree_act e : agree eq (act e) (act e).
Proof.
  intros w1 w2 (Hs & Hd & Hc & Hf & He). simpl. split; [done|].
  split; [exact Hs|]. simpl. rewrite !besidesFrames_app, He. done.
Qed.

Lemma alike_refusal w1 w2 msgs1 msgs2 :
  alike w1 w2 ->
  match refusal (ws (session w1)), refusal (ws (session w2)) with
  | Some e1, Some e2 => e1 = e2
  | None, None => alike (sending msgs1 w1) (sending msgs2 w2)
  | _, _ => False
  end.
Proof.
  intros Hw.
  assert (alike (sending msgs1 w1) (sending msgs2 w2)) as Hsent.
  { destruct Hw as (Hs & Hd & Hc & Hf & He). split; [exact Hs|].
    unfold sending. simpl.
    by rewrite !besidesFrames_app, !besidesFrames_frames, !app_nil_r. }
  destruct Hw as ([_ Hws] & _). unfold refusal.
  destruct Hws as [Hsame|[Hmine Htheirs]].
  - rewrite <- Hsame. destruct (isOpen (ws (session w1))); [|exact Hsent].
    destruct (sendThrows (ws (session w1))); [done | exact Hsent].
  - rewrite Hmine, Htheirs.
    by destruct (isOpen (ws (session w1))), (isOpen (ws (session w2))).
Qed.

Lemma agree_send msg : agree eq (send msg) (send msg).
Proof.
  intros w1 w2 Hw. rewrite !send_cases.
  pose proof (alike_refusal w1 w2 [msg] [msg] Hw) as H.
  destruct (refusal (ws (session w1))), (refusal (ws (session w2))); done.
Qed.

Lemma agree_handing msgs1 msgs2 :
  (msgs1 = [] <-> msgs2 = []) -> agree eq (handing msgs1) (handing msgs2).
Proof.
  intros Hnil w1 w2 Hw.
  pose proof (alike_refusal w1 w2 msgs1 msgs2 Hw) as H.
  destruct (refusal (ws (session w1))) as [e1|] eqn:H1,
           (refusal (ws (session w2))) as [e2|] eqn:H2; try done.
  - destruct msgs1 as [|m1 msgs1], msgs2 as [|m2 msgs2].
    + cbn. by split.
    + discriminate (proj1 Hnil eq_refl).
    + discriminate (proj2 Hnil eq_refl).
    + rewrite (handing_refused _ _ _ _ H1), (handing_refused _ _ _ _ H2).
      by split.
  - rewrite !handing_spec by done. by split.
Qed.

Lemma agree_onDisk {A} (m : M Store.Disk A) : agree eq (onDisk m) (onDisk m).
Proof.
  intros w1 w2 (Hs & Hd & Hc & Hf & He). unfold onDisk, zoom. rewrite Hd.
  destruct (m (disk w2)) as [[a|e] d]; simpl; (split; [done|]); split; done.
Qed.

Lemma agree_writeDisk f : agree eq (writeDisk f) (writeDisk f).
Proof.
  intros w1 w2 (Hs & Hd & Hc & Hf & He). simpl. split; [done|].
  split; [exact Hs|]. simpl. rewrite Hd. done.
Qed.

Lemma agree_clock t : agree eq (modify (with_clock t)) (modify (with_clock t)).
Proof.
  intros w1 w2 (Hs & Hd & Hc & Hf & He). simpl. split; [done|]. split; done.
Qed.

(** One step of the walk through a call made from two worlds. *)
Ltac agree_step :=
  lazymatch goal with
  | |- agree _ (bind this _) (bind this _) =>
      let t := fresh "t" in
      eapply (agree_bind alikeSession); [apply agree_this|];
      intros ? ? [[t ->] _];
      cbn [sessionId pendingQuestions abortController activeQuery questionCounter
           _isRunning _ttsEnabled _effort _thinking _forkFromSessionId
           _backgroundTaskToolUseIds _taskIdToToolUseId _activeBashStream
           _streamingText _lastPreview _stoppedTasks replacesSessionId cwd set_ws]
  | |- agree _ (bind _ _) (bind _ _) =>
      eapply (agree_bind eq); [|intros ? ? <-]
  | |- agree _ (ret _) (ret _) => apply agree_ret; reflexivity
  | |- agree _ (throw _) (throw _) => apply agree_throw
  | |- agree _ (tryCatch _ _) (tryCatch _ _) => apply agree_tryCatch; [|intros ?]
  | |- agree _ (finally _ _) (finally _ _) => apply agree_finally
  | |- agree _ (forEach _ _) (forEach _ _) => apply agree_forEach; intros ?
  | |- agree _ (when _ _) (when _ _) => apply agree_when
  | |- agree _ (lift _) (lift _) => apply agree_lift; reflexivity
  | |- agree _ now now => apply agree_now
  | |- agree _ sid sid => apply agree_sid
  | |- agree _ newObject newObject => apply agree_newObject
  | |- agree _ (send _) (send _) => apply agree_send
  | |- agree _ (act _) (act _) => apply agree_act
  | |- agree _ (onDisk _) (onDisk _) => apply agree_onDisk
  | |- agree _ (writeDisk _) (writeDisk _) => apply agree_writeDisk
  | |- agree _ (modify (with_clock _)) (modify (with_clock _)) => apply agree_clock
  | |- agree _ (update (set_ws _)) (update (set_ws _)) => apply agree_set_ws
  | |- agree _ (update _) (update _) =>
      apply agree_update; intros [] ?; reflexivity
  | |- agree _ (chunkLoop _ _ _ _) (chunkLoop _ _ _ _) => fail
  | |- agree _ (loop _ _ _ _ _) (loop _ _ _ _ _) => fail
  | |- agree _ (meanwhile _) (meanwhile _) => fail
  | |- agree _ (match ?x with _ => _ end) (match ?x with _ => _ end) => destruct x
  | |- agree _ (let _ := _ in _) _ => cbv zeta
  | |- agree _ ?m _ => let h := head_of m in unfold h
  end.

Section WithPlatform.
Context {platform : Platform}.

Lemma agree_chunkLoop output tid i k :
  agree eq (chunkLoop output tid i k) (chunkLoop output tid i k).
Proof.
  intros w1 w2 Hw.
  destruct (chunkLoop_spec output tid i k w1) as (chunks1 & -> & _ & Hnil1 & _).
  destruct (chunkLoop_spec output tid i k w2) as (chunks2 & -> & _ & Hnil2 & _).
  apply agree_handing; [|exact Hw].
  unfold chunkMsgs. split; intros Hnone.
  - apply (f_equal length) in Hnone. rewrite length_imap in Hnone.
    apply length_zero_iff_nil, Hnil1, Hnil2 in Hnone. by rewrite Hnone.
  - apply (f_equal length) in Hnone. rewrite length_imap in Hnone.
    apply length_zero_iff_nil, Hnil2, Hnil1 in Hnone. by rewrite Hnone.
Qed.

(** The calls and changes that do not make the [send] of the transport
    the engine holds throw. *)
Definition sendStillReturns (c : Control) : Prop :=
  match c with
  | SocketSendThrows (Some _) => False
  | _ => True
  end.

(** The same for what an engine goes through. *)
Definition returningOp (op : Op) : Prop :=
  match op with
  | Query _ _ _ stream _ => meanwhileOnly sendStillReturns stream
  | Between c => sendStillReturns c
  end.

Lemma agree_control c : sendStillReturns c -> agree eq (control c) (control c).
Proof.
  intros Hc.
  destruct c as [text streamed| |taskId|qid answers|transport| |toolName input plan
                |source|tts|effort|thinking|open|[err|]|t]; try done; simpl.
  12: { apply (agree_reshape (fun t => {| socket := socket t; isOpen := open;
                                           sendThrows := sendThrows t |})).
        intros t1 t2 [<-|[H1 H2]]; [by left | by right]. }
  12: { apply (agree_reshape (fun t => {| socket := socket t; isOpen := isOpen t;
                                           sendThrows := None |})).
        intros t1 t2 _. by right. }
  all: repeat agree_step.
Qed.

Lemma agree_meanwhile c : sendStillReturns c -> agree eq (meanwhile c) (meanwhile c).
Proof.
  intros Hc w1 w2 Hw. unfold meanwhile.
  pose proof (agree_control c Hc w1 w2 Hw) as H.
  destruct (control c w1) as [[?|?] ?], (control c w2) as [[?|?] ?]; simpl;
    try done; split; try done; apply H.
Qed.

Lemma agree_onMessage prompt resume m l :
  agree eq (onMessage prompt resume m l) (onMessage prompt resume m l).
Proof.
  repeat first
    [ lazymatch goal with
      | |- agree _ (chunkLoop _ _ _ _) _ => apply agree_chunkLoop
      end
    | agree_step ].
Qed.

Lemma agree_loop prompt resume stream ending :
  meanwhileOnly sendStillReturns stream ->
  forall l, agree eq (loop prompt resume stream ending l)
                     (loop prompt resume stream ending l).
Proof.
  intros Hok. induction Hok as [|[m|c] rest Ht Hrest IH]; intros l; simpl.
  - destruct ending; [apply agree_throw | by apply agree_ret].
  - eapply (agree_bind eq); [apply agree_onMessage | intros l' ? <-; apply IH].
  - eapply (agree_bind eq); [by apply agree_meanwhile | intros ? ? _; apply IH].
Qed.

Lemma agree_runQuery prompt resume started stream ending :
  meanwhileOnly sendStillReturns stream ->
  agree eq (runQuery prompt resume started stream ending)
           (runQuery prompt resume started stream ending).
Proof.
  intros Hok. unfold runQuery, tryBlock, enterQuery, catchBlock, finallyBlock.
  repeat first
    [ lazymatch goal with
      | |- agree _ (loop _ _ _ _ _) _ => by apply agree_loop
      end
    | agree_step ].
Qed.

Lemma agree_exec op : returningOp op -> agree eq (exec op) (exec op).
Proof. destruct op; simpl; [apply agree_runQuery | apply agree_control]. Qed.

Lemma alike_after ops :
  Forall returningOp ops ->
  forall w1 w2, alike w1 w2 -> alike (after w1 ops) (after w2 ops).
Proof.
  unfold after. induction 1 as [|op ops Hop Hops IH]; intros w1 w2 Hw; simpl;
    [exact Hw|].
  apply IH. pose proof (agree_exec op Hop w1 w2 Hw) as H.
  destruct (exec op w1) as [[?|?] ?], (exec op w2) as [[?|?] ?]; simpl;
    try done; apply H.
Qed.

(** As long as the [send] of its transport returns, what an engine
    does besides writing frames does not depend on the transport: two
    engines that differ only in the transport they hold (open, closed
    or detached), put through the same queries and calls, none of
    which makes [send] throw, leave the same store (the same history
    files, session list and todo lists), make the same calls on the
    SDK, resolve the same questions and set the same timers, and
    whatever comes next ends the same way for both; they still differ
    at most in the transport and the frames written.  So a session
    keeps its history while no client is attached. *)
Theorem history_independent_of_transport (w : World) (transport : Transport)
    (ops : list Op) :
  sendThrows (ws (session w)) = None ->
  sendThrows transport = None ->
  Forall returningOp ops ->
  let w1 := after w ops in
  let w2 := after (with_session (set_ws transport (session w)) w) ops in
  disk w1 = disk w2
  /\ besidesFrames (effects w1) = besidesFrames (effects w2)
  /\ (exists t, session w1 = set_ws t (session w2))
  /\ forall op, returningOp op -> fst (exec op w1) = fst (exec op w2).
Proof.
  intros Hmine Htheirs Hops w1 w2.
  assert (alike w1 w2) as Hw.
  { apply alike_after; [exact Hops|]. split; [|done]. simpl. split.
    - exists (ws (session w)). by destruct (session w).
    - right. by rewrite ws_set_ws. }
  pose proof Hw as ([Hs _] & Hd & Hc & Hf & He).
  split; [exact Hd|]. split; [exact He|]. split; [exact Hs|].
  intros op Hop. pose proof (agree_exec op Hop w1 w2 Hw) as H.
  destruct (exec op w1) as [[[]|?] ?], (exec op w2) as [[[]|?] ?]; simpl;
    try done. by destruct H as [-> _].
Qed.

End WithPlatform.

(** *** Runs of the engine *)

Section Runs.
#[local] Existing Instance Toy.platform.

(** The query in which the agent calls Bash, on an open transport and
    on a closed one. *)
Lemma history_independent_of_transport_witness :
  let w := boot (lit "/srv") in
  let closed := {| socket := 7; isOpen := false; sendThrows := None |} in
  sendThrows (ws (session w)) = None
  /\ sendThrows closed = None
  /\ Forall returningOp bashQuery
  /\ let w1 := after w bashQuery in
     let w2 := after (with_session (set_ws closed (session w)) w) bashQuery in
     disk w1 = disk w2
     /\ besidesFrames (effects w1) = besidesFrames (effects w2)
     /\ (exists t, session w1 = set_ws t (session w2))
     /\ forall op, returningOp op -> fst (exec op w1) = fst (exec op w2).
Proof.
  intros w closed.
  assert (sendThrows (ws (session w)) = None) as Hmine by reflexivity.
  assert (sendThrows closed = None) as Htheirs by reflexivity.
  assert (Forall returningOp bashQuery) as Hops by repeat constructor.
  split; [exact Hmine|]. split; [exact Htheirs|]. split; [exact Hops|].
  exact (history_independent_of_transport w closed bashQuery Hmine Htheirs Hops).
Defined.

(** Where the [send] of one of them throws, the two engines part: the
    first message of a stream that is sent on is the end of the query
    on the one, and not on the other. *)
Example transport_that_throws_matters :
  let w := boot (lit "/srv") in
  let refusing := {| socket := 7; isOpen := true;
                     sendThrows := Some (error "bad public key size") |} in
  let greeting := [Query (lit "hello") None (Ok tt)
                     [Incoming (SystemInit (lit "s1"))] None] in
  let w1 := after w greeting in
  let w2 := after (with_session (set_ws refusing (session w)) w) greeting in
  Store.history (disk w1) !! Store.historyFile (lit "s1")
  = Some (Store.Entries [Store.plain (lit "user") (lit "hello") (clock w)])
  /\ Store.history (disk w2) !! Store.historyFile (lit "s1") = None.
Proof. vm_compute. split; reflexivity. Qed.

End Runs.

End TransportFacts.

(** ** File transfer *)

Module TransferFacts.
Import Js Run Server.
Import Crypto (Platform, bytes, base64, bufferFrom).

Section WithPlatform.
Context {platform : Platform} {paths : Paths}.

(** *** Downloads *)

(** The pieces a file is read in: [chunk] bytes each, the last one
    what is left. *)
Definition piecesOf (chunk : nat) (content : bytes) : list bytes :=
  (fun i => readAt content (i * chunk) chunk)
  <$> seq 0 (chunkCount (length content) chunk).

Lemma chunkCount_covers size chunk :
  0 < chunk -> size <= chunkCount size chunk * chunk.
Proof.
  intros Hc. unfold chunkCount.
  pose proof (Nat.div_mod (size + chunk - 1) chunk ltac:(lia)) as Hdm.
  pose proof (Nat.mod_upper_bound (size + chunk - 1) chunk ltac:(lia)) as Hlt.
  nia.
Qed.

Lemma chunkCount_needed size chunk i :
  0 < chunk -> i < chunkCount size chunk -> i * chunk < size.
Proof.
  intros Hc Hi. unfold chunkCount in Hi.
  pose proof (Nat.div_mod (size + chunk - 1) chunk ltac:(lia)) as Hdm.
  nia.
Qed.

Lemma piecesOf_concat chunk content :
  0 < chunk -> mjoin (piecesOf chunk content) = content.
Proof.
  intros Hc. unfold piecesOf, readAt.
  apply (PageFacts.pages_cover content chunk _ Hc), chunkCount_covers, Hc.
Qed.

Lemma piecesOf_sizes chunk content :
  0 < chunk -> Forall (fun p => 0 < length p <= chunk) (piecesOf chunk content).
Proof.
  intros Hc. unfold piecesOf. apply Forall_fmap, Forall_forall. intros i Hi.
  apply elem_of_seq in Hi as [_ Hi]. simpl in Hi.
  pose proof (chunkCount_needed _ _ _ Hc Hi). simpl.
  unfold readAt. rewrite length_take, length_drop. lia.
Qed.

Lemma imap_seq {B} (f : nat -> nat -> B) n :
  imap f (seq 0 n) = (fun i => f i i) <$> seq 0 n.
Proof.
  apply list_eq. intros i. rewrite list_lookup_imap, list_lookup_fmap.
  destruct (decide (i < n)) as [Hi|Hi].
  - by rewrite (lookup_seq_lt 0 n i Hi).
  - assert (n <= i) as Hge by lia. by rewrite (lookup_seq_ge 0 n i Hge).
Qed.

Lemma sendJson_open reply h :
  isOpen h = true -> sendThrows h = None ->
  sendJson reply h = (Ok tt, with_sent (sent h ++ [reply]) h).
Proof.
  intros Hopen Htakes. unfold sendJson, bind, read, modify. simpl.
  by rewrite Hopen, Htakes.
Qed.

Lemma sendJson_refused reply h err :
  isOpen h = true -> sendThrows h = Some err ->
  sendJson reply h = (Throw err, h).
Proof.
  intros Hopen Hthrows. unfold sendJson, bind, read, throw. simpl.
  by rewrite Hopen, Hthrows.
Qed.

Lemma sendJson_each_refused {A} (f : A -> Reply) (l : list A) h err :
  isOpen h = true -> sendThrows h = Some err ->
  forEach l (fun x => sendJson (f x)) h
  = (match l with [] => Ok tt | _ :: _ => Throw err end, h).
Proof.
  intros Hopen Hthrows. destruct l as [|x l]; [reflexivity|].
  simpl. unfold bind. by rewrite (sendJson_refused _ _ err).
Qed.

Lemma sendJson_each {A} (f : A -> Reply) (l : list A) h :
  isOpen h = true -> sendThrows h = None ->
  forEach l (fun x => sendJson (f x)) h = (Ok tt, with_sent (sent h ++ (f <$> l)) h).
Proof.
  intros Hopen Htakes. revert h Hopen Htakes.
  induction l as [|x l IH]; intros h Hopen Htakes; simpl.
  - rewrite app_nil_r. by destruct h.
  - unfold bind. rewrite sendJson_open by assumption.
    rewrite IH by assumption. simpl. by rewrite <- app_assoc.
Qed.

Lemma CHUNK_SIZE_pos : 0 < CHUNK_SIZE.
Proof. unfold CHUNK_SIZE. apply Nat.mul_pos_pos; apply Nat.lt_0_succ. Qed.

(** The chunk messages for the pieces of a file. *)
Definition chunkReplies (fileId : option val) (name : str) (size : nat)
    (pieces : list bytes) : list Reply :=
  imap (fun i p => FileChunk fileId name size i (length pieces) (base64 p)) pieces.

Lemma requestFileBy_spec chunk path fileId h content :
  0 < chunk ->
  truthy path = true ->
  files h !! path = Some content ->
  isOpen h = true ->
  requestFileBy chunk path fileId h
  = match sendThrows h with
    | None =>
        (Ok tt, with_sent (sent h
                           ++ chunkReplies fileId (basename path None) (length content)
                                (piecesOf chunk content)
                           ++ [FileComplete fileId (basename path None)]) h)
    | Some err => (Throw err, h)
    end.
Proof.
  intros Hc Hpath Hfile Hopen.
  unfold requestFileBy, bind at 1, read. simpl.
  rewrite Hpath, Hfile. unfold bind.
  destruct (sendThrows h) as [err|] eqn:Hthrows.
  - rewrite (sendJson_each_refused _ _ _ err) by assumption.
    destruct (seq 0 _); [|reflexivity]. by apply sendJson_refused.
  - rewrite sendJson_each by assumption.
    rewrite sendJson_open by assumption. simpl. f_equal.
    rewrite <- app_assoc. unfold with_sent. simpl. do 3 f_equal.
    unfold chunkReplies, piecesOf.
    rewrite imap_fmap, length_fmap, length_seq. unfold compose.
    by rewrite imap_seq.
Qed.

(** On an open transport, a file that is asked for goes out in pieces
    of at most 512 KiB, in order, each with its index, the number of
    pieces and the size of the file; the pieces, put end to end, are
    the file, and none is empty; after them comes one [file_complete].
    An empty file gives the [file_complete] alone.  When the
    transport's [send] throws, the handler throws that error at the
    first message and nothing has been sent. *)
Theorem requestFile_sends_file (path : str) (fileId : option val) (h : Handler)
    (content : bytes) :
  truthy path = true ->
  files h !! path = Some content ->
  isOpen h = true ->
  let pieces := piecesOf CHUNK_SIZE content in
  let name := basename path None in
  requestFile path fileId h
  = match sendThrows h with
    | None =>
        (Ok tt, with_sent (sent h ++ chunkReplies fileId name (length content) pieces
                           ++ [FileComplete fileId name]) h)
    | Some err => (Throw err, h)
    end
  /\ mjoin pieces = content
  /\ Forall (fun p => 0 < length p <= CHUNK_SIZE) pieces
  /\ (content = [] -> pieces = []).
Proof.
  intros Hpath Hfile Hopen pieces name.
  pose proof CHUNK_SIZE_pos as Hc.
  split; [|split; [by apply piecesOf_concat|split; [by apply piecesOf_sizes|]]].
  - by apply requestFileBy_spec.
  - intros ->. unfold pieces, piecesOf, chunkCount.
    change (length (@nil N)) with 0. rewrite Nat.add_0_l.
    rewrite Nat.div_small by lia. reflexivity.
Qed.

(** *** Uploads *)

Lemma mapGet_mapSet {V} k (v : V) m : mapGet k (mapSet k v m) = Some v.
Proof.
  induction m as [|[k' v'] m IH]; simpl.
  - by rewrite bool_decide_eq_true_2.
  - destruct (decide (k' = k)) as [->|Hne].
    + rewrite (bool_decide_eq_true_2 (k = k)) by done. simpl.
      by rewrite bool_decide_eq_true_2.
    + rewrite (bool_decide_eq_false_2 (k' = k)) by done. simpl.
      by rewrite bool_decide_eq_false_2.
Qed.

Lemma mapSet_mapSet {V} k (v w : V) m : mapSet k w (mapSet k v m) = mapSet k w m.
Proof.
  induction m as [|[k' v'] m IH]; simpl.
  - by rewrite bool_decide_eq_true_2.
  - destruct (decide (k' = k)) as [->|Hne].
    + rewrite (bool_decide_eq_true_2 (k = k)) by done. simpl.
      by rewrite bool_decide_eq_true_2.
    + rewrite (bool_decide_eq_false_2 (k' = k)) by done. simpl.
      rewrite bool_decide_eq_false_2 by done. by rewrite IH.
Qed.

Lemma mapSet_same {V} k (v : V) m : mapGet k m = Some v -> mapSet k v m = m.
Proof.
  induction m as [|[k' v'] m IH]; simpl; [done|].
  destruct (decide (k' = k)) as [->|Hne].
  - rewrite (bool_decide_eq_true_2 (k = k)) by done. by intros [= ->].
  - rewrite (bool_decide_eq_false_2 (k' = k)) by done. intros Hm. by rewrite IH.
Qed.

Lemma mapDelete_mapSet {V} k (v : V) m : mapDelete k (mapSet k v m) = mapDelete k m.
Proof.
  induction m as [|[k' v'] m IH]; simpl.
  - by rewrite bool_decide_eq_true_2.
  - destruct (decide (k' = k)) as [->|Hne].
    + rewrite (bool_decide_eq_true_2 (k = k)) by done. simpl.
      by rewrite bool_decide_eq_true_2.
    + rewrite (bool_decide_eq_false_2 (k' = k)) by done. simpl.
      rewrite bool_decide_eq_false_2 by done. by rewrite IH.
Qed.

Lemma mapGet_mapDelete_keys {V} k (m : list (str * V)) :
  NoDup m.*1 -> mapGet k (mapDelete k m) = None.
Proof.
  induction m as [|[k' v'] m IH]; [done|].
  rewrite fmap_cons. cbn [fst]. intros [Hnot Hnd]%NoDup_cons. simpl.
  destruct (decide (k' = k)) as [->|Hne].
  - rewrite bool_decide_eq_true_2 by done.
    destruct (mapGet k m) as [x|] eqn:Hget; [|done].
    exfalso. apply Hnot. clear -Hget.
    induction m as [|[k2 v2] m IH]; [done|]. simpl in Hget.
    rewrite fmap_cons. cbn [fst]. case_bool_decide; [subst; left|right; auto].
  - rewrite bool_decide_eq_false_2 by done. simpl.
    rewrite bool_decide_eq_false_2 by done. auto.
Qed.

Lemma freePath_Some fuel taken dir name path c p :
  freePath fuel taken dir name path c = Some p -> taken p = false.
Proof.
  revert path c. induction fuel as [|fuel IH]; intros path c; simpl;
    destruct (taken path) eqn:Htaken; try congruence; eauto.
Qed.

Lemma freePath_None fuel taken dir name path c :
  freePath fuel taken dir name path c = None ->
  taken path = true
  /\ Forall (fun p => taken p = true)
            (numbered dir name <$> ((fun i => (c + N.of_nat i)%N) <$> seq 0 fuel)).
Proof.
  revert path c. induction fuel as [|fuel IH]; intros path c; simpl;
    destruct (taken path) eqn:Htaken; try congruence.
  - intros _. split; [done|constructor].
  - intros [Hc Hrest]%IH. split; [done|].
    rewrite N.add_0_r. constructor; [done|].
    rewrite <- seq_shift, <- !list_fmap_compose.
    rewrite <- !list_fmap_compose in Hrest.
    erewrite list_fmap_ext; [exact Hrest|]. intros _ i _. simpl. f_equal. lia.
Qed.

Lemma taken_bound (m : gmap str bytes) (l : list str) :
  NoDup l -> Forall (fun p => is_Some (m !! p)) l -> length l <= size m.
Proof.
  intros Hnd Hall.
  rewrite <- (size_list_to_set (C:=gset str) l Hnd), <- (size_dom m).
  apply subseteq_size. intros p Hp%elem_of_list_to_set.
  apply elem_of_dom. by eapply (proj1 (Forall_forall _ _) Hall).
Qed.

(** The upload that [upload_start] registers. *)
Definition started (path name : str) (total : Z) : Upload :=
  {| filePath := path; fileName := name; receivedChunks := 0; totalChunks := total |}.

Lemma uploadStart_spec fuel cwd uploadId name total h :
  size (files h) < fuel ->
  NoDup (numbered (join cwd (lit ".uploads")) name <$> (N.of_nat <$> seq 1 fuel)) ->
  exists path,
    files h !! path = None
    /\ uploadStart fuel cwd uploadId name total h
       = Some {| files := <[path := []]> (files h);
                 activeUploads := mapSet uploadId (started path name total) (activeUploads h);
                 isOpen := isOpen h; sendThrows := sendThrows h;
                 sent := sent h |}.
Proof.
  intros Hfuel Hnd. unfold uploadStart.
  destruct (freePath _ _ _ _ _ _) as [path|] eqn:Hfree.
  - exists path. split; [|by destruct h].
    apply freePath_Some in Hfree. apply bool_decide_eq_false in Hfree.
    by apply eq_None_not_Some.
  - exfalso. apply freePath_None in Hfree as [_ Hfree].
    assert ((fun i => (1 + N.of_nat i)%N) <$> seq 0 fuel = N.of_nat <$> seq 1 fuel) as Heq.
    { rewrite <- seq_shift, <- list_fmap_compose. apply list_fmap_ext.
      intros _ i _. simpl. lia. }
    rewrite Heq in Hfree.
    pose proof (taken_bound (files h) _ Hnd) as Hbound.
    rewrite !length_fmap, length_seq in Hbound.
    enough (fuel <= size (files h)) by lia. apply Hbound.
    eapply Forall_impl; [exact Hfree|]. intros p Hp. by apply bool_decide_eq_true in Hp.
Qed.

(** An upload never takes the place of a file: when fewer files exist
    than the loop has turns, and the numbered names it tries are
    different paths, [upload_start] ends at a path where no file was,
    creates an empty file there and registers the upload at that path
    with no chunk received; the other files are as they were, and
    nothing is sent. *)
Theorem uploadStart_fresh_path (fuel : nat) (cwd uploadId name : str) (total : Z)
    (h : Handler) :
  size (files h) < fuel ->
  NoDup (numbered (join cwd (lit ".uploads")) name <$> (N.of_nat <$> seq 1 fuel)) ->
  exists path h',
    uploadStart fuel cwd uploadId name total h = Some h'
    /\ files h !! path = None
    /\ files h' !! path = Some []
    /\ (forall p, p <> path -> files h' !! p = files h !! p)
    /\ mapGet uploadId (activeUploads h') = Some (started path name total)
    /\ sent h' = sent h.
Proof.
  intros Hfuel Hnd.
  destruct (uploadStart_spec fuel cwd uploadId name total h Hfuel Hnd)
    as (path & Hfresh & Hstart).
  exists path. eexists. split; [exact Hstart|]. simpl.
  split; [exact Hfresh|]. split; [apply lookup_insert_eq|].
  split; [by intros p Hp; apply lookup_insert_ne|].
  split; [apply mapGet_mapSet|reflexivity].
Qed.

(** The upload with one more chunk received. *)
Definition bump (u : Upload) : Upload :=
  {| filePath := filePath u; fileName := fileName u;
     receivedChunks := receivedChunks u + 1; totalChunks := totalChunks u |}.

(** A chunk that is not the last to be counted. *)
Lemma uploadChunkBy_more chunk uploadId i data b u h :
  mapGet uploadId (activeUploads h) = Some u ->
  bufferFrom data = Ok b ->
  (totalChunks u <=? receivedChunks u + 1)%Z = false ->
  uploadChunkBy chunk uploadId i data h
  = (Ok tt,
     {| files := <[filePath u := writeAt (default [] (files h !! filePath u))
                                   (i * chunk) b]> (files h);
        activeUploads := mapSet uploadId (bump u) (activeUploads h);
        isOpen := isOpen h; sendThrows := sendThrows h;
        sent := sent h |}).
Proof.
  intros Hget Hdata Hmore.
  unfold uploadChunkBy, sendJson, bind, read, modify, ret. simpl.
  rewrite Hget, Hdata. simpl. by rewrite Hmore.
Qed.

(** The chunk that is the last to be counted, on an open transport. *)
Lemma uploadChunkBy_last chunk uploadId i data b u h :
  mapGet uploadId (activeUploads h) = Some u ->
  bufferFrom data = Ok b ->
  (totalChunks u <=? receivedChunks u + 1)%Z = true ->
  isOpen h = true ->
  uploadChunkBy chunk uploadId i data h
  = (match sendThrows h with Some err => Throw err | None => Ok tt end,
     {| files := <[filePath u := writeAt (default [] (files h !! filePath u))
                                   (i * chunk) b]> (files h);
        activeUploads := mapDelete uploadId (activeUploads h);
        isOpen := isOpen h; sendThrows := sendThrows h;
        sent := sent h ++ match sendThrows h with
                          | Some _ => []
                          | None => [UploadComplete uploadId (filePath u)]
                          end |}).
Proof.
  intros Hget Hdata Hlast Hopen.
  destruct h as [fs ups open refuses out]. simpl in Hget, Hopen. subst open.
  unfold uploadChunkBy, sendJson, bind, read, modify, ret, throw. simpl.
  rewrite Hget, Hdata. simpl. rewrite Hlast. simpl.
  rewrite mapDelete_mapSet. destruct refuses; [|reflexivity].
  by rewrite app_nil_r.
Qed.

Lemma forEach_app {S A} (l k : list A) (f : A -> M S unit) (s : S) :
  forEach (l ++ k) f s
  = match forEach l f s with
    | (Ok _, s') => forEach k f s'
    | (Throw e, s') => (Throw e, s')
    end.
Proof.
  revert s. induction l as [|x l IH]; intros s; simpl; [done|].
  unfold bind. destruct (f x s) as [[[]|e] s']; [apply IH|done].
Qed.

Lemma chunks_count chunk uploadId msgs : forall h u,
  mapGet uploadId (activeUploads h) = Some u ->
  isOpen h = true ->
  Forall (fun c : nat * option val => exists b, bufferFrom c.2 = Ok b) msgs ->
  Z.of_nat (length msgs) = Z.max 1 (totalChunks u - receivedChunks u) ->
  exists h',
    forEach msgs (fun c => uploadChunkBy chunk uploadId c.1 c.2) h
    = (match sendThrows h with Some err => Throw err | None => Ok tt end, h')
    /\ sent h' = sent h ++ match sendThrows h with
                           | Some _ => []
                           | None => [UploadComplete uploadId (filePath u)]
                           end
    /\ activeUploads h' = mapDelete uploadId (activeUploads h)
    /\ isOpen h' = true
    /\ sendThrows h' = sendThrows h.
Proof.
  induction msgs as [|[i data] msgs IH]; intros h u Hget Hopen Hall Hlen.
  - simpl in Hlen. lia.
  - apply Forall_cons in Hall as [[b Hb] Hall]. simpl in Hb.
    cbn [forEach fst snd]. unfold bind at 1. rewrite length_cons in Hlen.
    destruct (totalChunks u <=? receivedChunks u + 1)%Z eqn:Hdone.
    + rewrite (uploadChunkBy_last chunk uploadId i data b u h Hget Hb Hdone Hopen).
      apply Z.leb_le in Hdone.
      destruct msgs as [|m msgs]; [|simpl in Hlen; lia].
      match goal with |- context [(Throw _, ?h1)] => exists h1 end.
      split; [by destruct (sendThrows h)|]. by simpl.
    + rewrite (uploadChunkBy_more chunk uploadId i data b u h Hget Hb Hdone).
      apply Z.leb_gt in Hdone.
      match goal with |- context [forEach msgs _ ?h1] =>
        destruct (IH h1 (bump u)) as (h' & Hrun & Hsent & Hups & Hopen' & Hthrows');
          [apply mapGet_mapSet|exact Hopen|exact Hall|simpl; lia|]
      end.
      exists h'. split; [exact Hrun|].
      split; [exact Hsent|]. split; [|by split].
      rewrite Hups. simpl. apply mapDelete_mapSet.
Qed.

(** An upload is complete when as many chunk messages have come as
    were announced (one, when none or fewer were announced), whatever
    their indexes: the last of them is answered with one
    [upload_complete] that names the path of the upload, nothing is
    sent before it, and the upload is no longer registered, so that a
    further chunk for it is answered with an error and writes
    nothing.  When the transport's [send] throws, the upload is no
    longer registered either, and the handler throws that error in
    place of each of the two answers. *)
Theorem upload_completes_by_count (uploadId : str) (u : Upload)
    (msgs : list (nat * option val)) (h : Handler) :
  mapGet uploadId (activeUploads h) = Some u ->
  NoDup (activeUploads h).*1 ->
  isOpen h = true ->
  Forall (fun c => exists b, bufferFrom c.2 = Ok b) msgs ->
  Z.of_nat (length msgs) = Z.max 1 (totalChunks u - receivedChunks u) ->
  exists h',
    forEach msgs (fun c => uploadChunk uploadId c.1 c.2) h
    = (match sendThrows h with Some err => Throw err | None => Ok tt end, h')
    /\ sent h' = sent h ++ match sendThrows h with
                           | Some _ => []
                           | None => [UploadComplete uploadId (filePath u)]
                           end
    /\ activeUploads h' = mapDelete uploadId (activeUploads h)
    /\ forall i data,
         uploadChunk uploadId i data h'
         = match sendThrows h with
           | Some err => (Throw err, h')
           | None =>
               (Ok tt, with_sent (sent h' ++ [ErrorReply (lit "Unknown upload: "
                                                           ++ uploadId)]) h')
           end.
Proof.
  intros Hget Hnd Hopen Hall Hlen.
  destruct (chunks_count CHUNK_SIZE uploadId msgs h u Hget Hopen Hall Hlen)
    as (h' & Hrun & Hsent & Hups & Hopen' & Hthrows').
  exists h'. split; [exact Hrun|]. split; [exact Hsent|]. split; [exact Hups|].
  intros i data. unfold uploadChunk, uploadChunkBy, bind at 1, read.
  cbn [fst snd]. rewrite Hups, (mapGet_mapDelete_keys uploadId _ Hnd).
  rewrite <- Hthrows'. destruct (sendThrows h') as [err|] eqn:Hthrows.
  - by apply sendJson_refused.
  - by apply sendJson_open.
Qed.

(** The chunk messages that carry the pieces of a file: the index of
    each piece and its base64. *)
Definition chunkMessages (pieces : list bytes) : list (nat * option val) :=
  imap (fun i p => (i, Some (Str (base64 p)))) pieces.

Lemma writeAt_next chunk content k :
  0 < chunk -> k * chunk < length content ->
  writeAt (take (k * chunk) content) (k * chunk) (readAt content (k * chunk) chunk)
  = take (S k * chunk) content.
Proof.
  intros Hc Hk. unfold writeAt.
  destruct (readAt content (k * chunk) chunk) as [|x piece] eqn:Hpiece.
  - apply (f_equal length) in Hpiece. unfold readAt in Hpiece.
    rewrite length_take, length_drop in Hpiece. simpl in Hpiece. lia.
  - rewrite <- Hpiece. clear Hpiece.
    rewrite length_take, (Nat.min_l (k * chunk)) by lia.
    rewrite Nat.sub_diag. simpl replicate. rewrite app_nil_r.
    rewrite take_take, Nat.min_id.
    rewrite (drop_ge (take (k * chunk) content)) by (rewrite length_take; lia).
    rewrite app_nil_r. unfold readAt. rewrite take_take_drop. f_equal. lia.
Qed.

Lemma chunkMessages_piecesOf chunk content :
  chunkMessages (piecesOf chunk content)
  = (fun i => (i, Some (Str (base64 (readAt content (i * chunk) chunk)))))
    <$> seq 0 (chunkCount (length content) chunk).
Proof.
  unfold chunkMessages, piecesOf. rewrite imap_fmap. unfold compose.
  by rewrite imap_seq.
Qed.

Lemma chunks_in_order chunk uploadId path name content h k :
  0 < chunk ->
  (forall p, bufferFrom (Some (Str (base64 p))) = Ok p) ->
  k < chunkCount (length content) chunk ->
  mapGet uploadId (activeUploads h)
  = Some (started path name (Z.of_nat (chunkCount (length content) chunk))) ->
  files h !! path = Some [] ->
  forEach ((fun i => (i, Some (Str (base64 (readAt content (i * chunk) chunk)))))
           <$> seq 0 k)
          (fun c => uploadChunkBy chunk uploadId c.1 c.2) h
  = (Ok tt,
     {| files := <[path := take (k * chunk) content]> (files h);
        activeUploads :=
          mapSet uploadId
            {| filePath := path; fileName := name;
               receivedChunks := Z.of_nat k;
               totalChunks := Z.of_nat (chunkCount (length content) chunk) |}
            (activeUploads h);
        isOpen := isOpen h; sendThrows := sendThrows h;
        sent := sent h |}).
Proof.
  intros Hc Hcodec Hk Hget Hfile. induction k as [|k IH].
  - simpl. unfold ret. f_equal.
    rewrite insert_id by exact Hfile.
    rewrite mapSet_same by exact Hget. by destruct h.
  - rewrite seq_S, fmap_app, forEach_app, IH by lia. clear IH.
    cbn [fmap list_fmap forEach fst snd plus]. unfold bind.
    erewrite uploadChunkBy_more;
      [|apply mapGet_mapSet|apply Hcodec
       |apply Z.leb_gt; cbn [receivedChunks totalChunks]; lia].
    cbn [filePath fileName receivedChunks totalChunks files activeUploads
         isOpen sendThrows sent ret].
    rewrite lookup_insert_eq. cbn [default from_option id].
    rewrite writeAt_next by first [done | apply chunkCount_needed; [done|lia]].
    rewrite insert_insert_eq, mapSet_mapSet.
    unfold ret, bump. cbn [filePath fileName receivedChunks totalChunks].
    do 4 f_equal. lia.
Qed.

Lemma upload_round_trip_by chunk fuel cwd uploadId name content h :
  0 < chunk ->
  size (files h) < fuel ->
  NoDup (numbered (join cwd (lit ".uploads")) name <$> (N.of_nat <$> seq 1 fuel)) ->
  (forall p, bufferFrom (Some (Str (base64 p))) = Ok p) ->
  isOpen h = true ->
  content <> [] ->
  exists path h1 h2,
    uploadStart fuel cwd uploadId name
      (Z.of_nat (length (piecesOf chunk content))) h = Some h1
    /\ forEach (chunkMessages (piecesOf chunk content))
               (fun c => uploadChunkBy chunk uploadId c.1 c.2) h1
       = (match sendThrows h with Some err => Throw err | None => Ok tt end, h2)
    /\ files h !! path = None
    /\ files h2 = <[path := content]> (files h)
    /\ sent h2 = sent h ++ match sendThrows h with
                           | Some _ => []
                           | None => [UploadComplete uploadId path]
                           end
    /\ activeUploads h2 = mapDelete uploadId (activeUploads h).
Proof.
  intros Hc Hfuel Hnd Hcodec Hopen Hcontent.
  assert (length (piecesOf chunk content) = chunkCount (length content) chunk) as Hlen
    by (unfold piecesOf; by rewrite length_fmap, length_seq).
  pose proof (chunkCount_covers (length content) chunk Hc) as Hcover.
  destruct (chunkCount (length content) chunk) as [|k] eqn:Hcount.
  { destruct content; [done|simpl in Hcover; lia]. }
  destruct (uploadStart_spec fuel cwd uploadId name
              (Z.of_nat (length (piecesOf chunk content))) h Hfuel Hnd)
    as (path & Hfresh & Hstart).
  exists path. eexists. eexists. split; [exact Hstart|].
  rewrite chunkMessages_piecesOf, Hcount.
  rewrite seq_S, fmap_app, forEach_app.
  rewrite (chunks_in_order chunk uploadId path name content _ k Hc Hcodec);
    [|lia|cbn [activeUploads]; rewrite mapGet_mapSet, Hlen, Hcount; reflexivity
     |cbn [files]; apply lookup_insert_eq].
  cbn [fmap list_fmap forEach fst snd plus]. unfold bind.
  erewrite uploadChunkBy_last;
    [|apply mapGet_mapSet|apply Hcodec
     |apply Z.leb_le; cbn [receivedChunks totalChunks]; rewrite Hcount; lia
     |exact Hopen].
  cbn [filePath fileName receivedChunks totalChunks files activeUploads
       isOpen sendThrows sent].
  rewrite lookup_insert_eq. cbn [default from_option id].
  rewrite writeAt_next by first [done | apply chunkCount_needed; [done|lia]].
  rewrite !insert_insert_eq, !mapDelete_mapSet.
  match goal with |- match _ with Ok _ => _ | Throw e => (_, ?h2) end = (_, ?h2') /\ _ =>
    unify h2' h2
  end.
  split; [by destruct (sendThrows h)|]. cbn [files sent activeUploads].
  split; [exact Hfresh|]. split; [|done].
  f_equal. apply take_ge. lia.
Qed.

(** An upload whose pieces arrive in order is stored as it was sent:
    after [upload_start] with the number of pieces of a file that is
    not empty, and the chunk messages of its pieces of 512 KiB, the
    file is at a path where none was before, with the bytes of the
    file; no other file has changed; the one message sent is the
    [upload_complete] with that path, and the upload is no longer
    registered.  When the transport's [send] throws, the file is
    stored all the same, and the handler throws that error in place of
    the [upload_complete]. *)
Theorem upload_round_trip (fuel : nat) (cwd uploadId name : str) (content : bytes)
    (h : Handler) :
  size (files h) < fuel ->
  NoDup (numbered (join cwd (lit ".uploads")) name <$> (N.of_nat <$> seq 1 fuel)) ->
  (forall p, bufferFrom (Some (Str (base64 p))) = Ok p) ->
  isOpen h = true ->
  content <> [] ->
  let pieces := piecesOf CHUNK_SIZE content in
  exists path h1 h2,
    uploadStart fuel cwd uploadId name (Z.of_nat (length pieces)) h = Some h1
    /\ forEach (chunkMessages pieces) (fun c => uploadChunk uploadId c.1 c.2) h1
       = (match sendThrows h with Some err => Throw err | None => Ok tt end, h2)
    /\ files h !! path = None
    /\ files h2 = <[path := content]> (files h)
    /\ sent h2 = sent h ++ match sendThrows h with
                           | Some _ => []
                           | None => [UploadComplete uploadId path]
                           end
    /\ activeUploads h2 = mapDelete uploadId (activeUploads h).
Proof.
  intros Hfuel Hnd Hcodec Hopen Hcontent pieces.
  exact (upload_round_trip_by CHUNK_SIZE fuel cwd uploadId name content h
           CHUNK_SIZE_pos Hfuel Hnd Hcodec Hopen Hcontent).
Qed.

End WithPlatform.

(** *** Runs *)

Section Runs.
#[local] Existing Instance Toy.platform.

(** A [path] for names that have neither a directory nor an
    extension. *)
#[local] Instance plainPaths : Paths :=
  {| join := fun a b => a ++ lit "/" ++ b;
     extname := fun _ => [];
     basename := fun p _ => p |}.

(** A handler on an open transport, with a note of two bytes and a
    file that an earlier upload has left. *)
Definition twoFiles : Handler :=
  {| files := {[ lit "notes" := [104; 105]%N; lit "w/.uploads/a" := [1]%N ]};
     activeUploads := [];
     isOpen := true;
     sendThrows := None;
     sent := [] |}.

(** The same handler in the middle of an upload of three chunks, of
    which one has come. *)
Definition uploading : Handler :=
  with_activeUploads
    [(lit "u1", {| filePath := lit "w/.uploads/b"; fileName := lit "b";
                   receivedChunks := 1; totalChunks := 3 |})]
    twoFiles.

Lemma requestFile_sends_file_witness :
  truthy (lit "notes") = true
  /\ files twoFiles !! lit "notes" = Some [104; 105]%N
  /\ isOpen twoFiles = true
  /\ (let pieces := piecesOf CHUNK_SIZE [104; 105]%N in
      let name := basename (lit "notes") None in
      requestFile (lit "notes") None twoFiles
      = (Ok tt, with_sent (sent twoFiles
                           ++ chunkReplies None name (length [104; 105]%N) pieces
                           ++ [FileComplete None name]) twoFiles)
      /\ mjoin pieces = [104; 105]%N
      /\ Forall (fun p => 0 < length p <= CHUNK_SIZE) pieces
      /\ ([104; 105]%N = [] -> pieces = [])).
Proof.
  assert (truthy (lit "notes") = true) as Hpath by reflexivity.
  assert (files twoFiles !! lit "notes" = Some [104; 105]%N) as Hfile by reflexivity.
  assert (isOpen twoFiles = true) as Hopen by reflexivity.
  split; [exact Hpath|]. split; [exact Hfile|]. split; [exact Hopen|].
  exact (requestFile_sends_file (lit "notes") None twoFiles [104; 105]%N
           Hpath Hfile Hopen).
Defined.

(** The same request on a transport whose [send] throws, as the virtual
    socket of the relay does on a peer key of the wrong size: the
    handler throws that error and has sent nothing. *)
Example requestFile_on_a_transport_that_throws :
  let refused := Js.error "bad public key size" in
  let h := {| files := files twoFiles; activeUploads := [];
              isOpen := true; sendThrows := Some refused; sent := [] |} in
  requestFile (lit "notes") None h = (Throw refused, h).
Proof.
  intros refused h.
  exact (requestFileBy_spec CHUNK_SIZE (lit "notes") None h [104; 105]%N
           CHUNK_SIZE_pos eq_refl eq_refl eq_refl).
Qed.

Lemma uploadStart_fresh_path_witness :
  size (files twoFiles) < 3
  /\ NoDup (numbered (join (lit "w") (lit ".uploads")) (lit "a")
            <$> (N.of_nat <$> seq 1 3))
  /\ exists path h',
       uploadStart 3 (lit "w") (lit "u1") (lit "a") 2 twoFiles = Some h'
       /\ files twoFiles !! path = None
       /\ files h' !! path = Some []
       /\ (forall p, p <> path -> files h' !! p = files twoFiles !! p)
       /\ mapGet (lit "u1") (activeUploads h') = Some (started path (lit "a") 2)
       /\ sent h' = sent twoFiles.
Proof.
  assert (size (files twoFiles) < 3) as Hfuel by (vm_compute; lia).
  assert (NoDup (numbered (join (lit "w") (lit ".uploads")) (lit "a")
                 <$> (N.of_nat <$> seq 1 3))) as Hnd
    by (apply (bool_decide_unpack _); vm_compute; exact I).
  split; [exact Hfuel|]. split; [exact Hnd|].
  exact (uploadStart_fresh_path 3 (lit "w") (lit "u1") (lit "a") 2 twoFiles
           Hfuel Hnd).
Defined.

(** The upload there takes the numbered name, as the plain one is
    taken. *)
Example uploadStart_numbers_the_name :
  activeUploads <$> uploadStart 3 (lit "w") (lit "u1") (lit "a") 2 twoFiles
  = Some [(lit "u1", started (lit "w/.uploads/a (1)") (lit "a") 2)].
Proof. reflexivity. Qed.

Lemma upload_completes_by_count_witness :
  let u := {| filePath := lit "w/.uploads/b"; fileName := lit "b";
              receivedChunks := 1; totalChunks := 3 |} in
  let msgs := [(0, Some (Str [7]%N)); (0, Some (Str [8]%N))] in
  mapGet (lit "u1") (activeUploads uploading) = Some u
  /\ NoDup (activeUploads uploading).*1
  /\ isOpen uploading = true
  /\ Forall (fun c => exists b, bufferFrom c.2 = Ok b) msgs
  /\ Z.of_nat (length msgs) = Z.max 1 (totalChunks u - receivedChunks u)
  /\ exists h',
       forEach msgs (fun c => uploadChunk (lit "u1") c.1 c.2) uploading = (Ok tt, h')
       /\ sent h' = sent uploading ++ [UploadComplete (lit "u1") (filePath u)]
       /\ activeUploads h' = mapDelete (lit "u1") (activeUploads uploading)
       /\ forall i data,
            uploadChunk (lit "u1") i data h'
            = (Ok tt, with_sent (sent h' ++ [ErrorReply (lit "Unknown upload: "
                                                          ++ lit "u1")]) h').
Proof.
  intros u msgs.
  assert (mapGet (lit "u1") (activeUploads uploading) = Some u) as Hget by reflexivity.
  assert (NoDup (activeUploads uploading).*1) as Hnd by apply NoDup_singleton.
  assert (isOpen uploading = true) as Hopen by reflexivity.
  assert (Forall (fun c : nat * option val => exists b, bufferFrom c.2 = Ok b) msgs)
    as Hall by (repeat constructor; eexists; reflexivity).
  assert (Z.of_nat (length msgs) = Z.max 1 (totalChunks u - receivedChunks u))
    as Hlen by reflexivity.
  split; [exact Hget|]. split; [exact Hnd|]. split; [exact Hopen|].
  split; [exact Hall|]. split; [exact Hlen|].
  exact (upload_completes_by_count (lit "u1") u msgs uploading
           Hget Hnd Hopen Hall Hlen).
Defined.

Lemma upload_round_trip_witness :
  size (files twoFiles) < 3
  /\ NoDup (numbered (join (lit "w") (lit ".uploads")) (lit "a")
            <$> (N.of_nat <$> seq 1 3))
  /\ (forall p, bufferFrom (Some (Str (base64 p))) = Ok p)
  /\ isOpen twoFiles = true
  /\ [1; 2; 3]%N <> []
  /\ (let pieces := piecesOf CHUNK_SIZE [1; 2; 3]%N in
      exists path h1 h2,
        uploadStart 3 (lit "w") (lit "u1") (lit "a") (Z.of_nat (length pieces)) twoFiles
        = Some h1
        /\ forEach (chunkMessages pieces) (fun c => uploadChunk (lit "u1") c.1 c.2) h1
           = (Ok tt, h2)
        /\ files twoFiles !! path = None
        /\ files h2 = <[path := [1; 2; 3]%N]> (files twoFiles)
        /\ sent h2 = sent twoFiles ++ [UploadComplete (lit "u1") path]
        /\ activeUploads h2 = mapDelete (lit "u1") (activeUploads twoFiles)).
Proof.
  assert (forall p, bufferFrom (Some (Str (base64 p))) = Ok p) as Hcodec
    by (intros p; reflexivity).
  assert (isOpen twoFiles = true) as Hopen by reflexivity.
  assert ([1; 2; 3]%N <> []) as Hcontent by discriminate.
  assert (size (files twoFiles) < 3) as Hfuel by (vm_compute; lia).
  assert (NoDup (numbered (join (lit "w") (lit ".uploads")) (lit "a")
                 <$> (N.of_nat <$> seq 1 3))) as Hnd
    by (apply (bool_decide_unpack _); vm_compute; exact I).
  split; [exact Hfuel|]. split; [exact Hnd|].
  split; [exact Hcodec|]. split; [exact Hopen|]. split; [exact Hcontent|].
  exact (upload_round_trip 3 (lit "w") (lit "u1") (lit "a") [1; 2; 3]%N twoFiles
           Hfuel Hnd Hcodec Hopen Hcontent).
Defined.

End Runs.

End TransferFacts.

(** ** The debounced broadcast *)

Module BroadcastFacts.
Import Server.

(** How many of the ticks are calls. *)
Fixpoint calls (ts : list Tick) : nat :=
  match ts with
  | [] => 0
  | Schedule :: ts' => S (calls ts')
  | Timeout :: ts' => calls ts'
  end.

(** At most one timeout is held, and it is held exactly while
    [broadcastPending] is set. *)
Definition oneTimer (b : Broadcaster) : Prop :=
  timers b = if broadcastPending b then 1 else 0.

Lemma tick_oneTimer b t : oneTimer b -> oneTimer (tick b t).
Proof.
  unfold oneTimer. destruct b as [[] n k], t; simpl; intros ->; reflexivity.
Qed.

Lemma ticks_oneTimer ts b : oneTimer b -> oneTimer (ticks ts b).
Proof.
  revert b. induction ts as [|t ts IH]; intros b Hb; [exact Hb|].
  apply IH, tick_oneTimer, Hb.
Qed.

Lemma ticks_due ts b :
  broadcasts (ticks ts b) + timers (ticks ts b)
  <= broadcasts b + timers b + calls ts.
Proof.
  revert b. induction ts as [|t ts IH]; intros b; [simpl; lia|].
  change (ticks (t :: ts) b) with (ticks ts (tick b t)).
  etransitivity; [apply IH|].
  destruct t; simpl.
  - unfold scheduleBroadcast. destruct (broadcastPending b); simpl; lia.
  - destruct (timers b) eqn:Htimers; simpl; lia.
Qed.

Lemma ticks_burst n b :
  oneTimer b ->
  ticks (replicate n Schedule) (scheduleBroadcast b)
  = {| broadcastPending := true; timers := 1; broadcasts := broadcasts b |}.
Proof.
  intros Hb. induction n as [|n IH]; simpl.
  - unfold scheduleBroadcast, oneTimer in *.
    destruct b as [[] k m]; simpl in *; by subst.
  - replace (scheduleBroadcast (scheduleBroadcast b)) with (scheduleBroadcast b);
      [exact IH|].
    unfold scheduleBroadcast.
    destruct (broadcastPending b) eqn:Hpending; simpl; by rewrite ?Hpending.
Qed.

(** Calls of [scheduleBroadcast] are gathered: whatever calls and
    timeouts have gone before, at most one timeout is held, and it is
    held exactly while [broadcastPending] is set; there are never more
    broadcasts, done or due, than there were calls; and any number of
    further calls, one or more, lead to one broadcast when the timeout
    comes, after which nothing is pending. *)
Theorem scheduleBroadcast_gathers (ts : list Tick) (n : nat) :
  let b := ticks ts idle in
  let b' := ticks (replicate (S n) Schedule ++ [Timeout]) b in
  oneTimer b
  /\ broadcasts b + timers b <= calls ts
  /\ b' = {| broadcastPending := false; timers := 0;
             broadcasts := S (broadcasts b) |}.
Proof.
  intros b b'.
  assert (oneTimer b) as Hone by (apply ticks_oneTimer; reflexivity).
  split; [exact Hone|]. split; [apply (ticks_due ts idle)|].
  unfold b', ticks. rewrite foldl_app. simpl.
  fold (ticks (replicate n Schedule) (scheduleBroadcast b)).
  by rewrite ticks_burst.
Qed.

End BroadcastFacts.
